(* ===== verification/_CoqProject ===== *)
-Q . S2P
Prelude.v
Markup.v
Types.v
Shuffle.v
Board.v
Deal.v
Engine.v
Grid.v
Storage.v
GameUI.v
App.v
Game.v
Invariant.v
Runs.v
Reducer.v
Pairs.v
Delivery.v
Liveness.v
View.v
Typing.v
Timed.v
Deadline.v
Safety.v
Score.v
Faults.v
Scenarios.v
Spec.v
Refinement.v
