(* ===== verification/Prelude.v ===== *)
(** * Memory Match: a verification development

    The program is a browser memory-matching game written with React.  Its
    logic lives in four places:

    - [src/types.ts] and [src/constants.ts]: the data ([GameState], [Card],
      [GameStats]) and the board's constants;
    - [src/components/GameEngine.tsx]: the board engine.  It owns the cards,
      the ids of the face-up unresolved cards and the processing lock; it
      deals a board ([initializeBoard]), accepts clicks ([handleCardClick]),
      compares a pair ([checkForMatch]) and resolves it after a delay
      ([handleMatch], [handleMismatch]);
    - [src/App.tsx]: the session.  It owns the phase and the statistics,
      runs the one-second timer, records the best score in [localStorage]
      and resets the game ([resetGame]);
    - [src/components/GameUI.tsx]: the overlay that shows the statistics and
      carries the two buttons (start, play again).

    Each component returns markup: [App] the page, in it the grid of
    [GameEngine], one element per card with the card's click handler, and
    over it the overlay of [GameUI].

    The parts interact through React: [App] hands its state and setters to
    the engine as props, the engine calls [updateStats] when a pair is
    selected and [setGameState] when the last pair is matched, and effects
    in both components react to the phase: the engine's deals or clears the
    board, the session's start and stop the interval and record the best
    score.

    ** Files

    - [Prelude] (this file): state updates as composable transformers
      ([Upd], with [;;] in [upd_scope]), the tactics and hint databases of
      the development, and counting occurrences in lists ([occ]).
    - [Markup]: the trees of elements the components return, what a tree
      displays and which click handlers a pointer can run in it
      ([pointer-events-none], bubbling).
    - [Types]: the data of [types.ts], the JavaScript numbers the statistics
      hold ([number]: an integer or [NaN]), the constants of [constants.ts].
    - [Shuffle]: [sort(() => 0.5 - Math.random())] as [randomSort], a
      permutation chosen by the environment; its outcomes are exactly the
      permutations of the input.
    - [Board]: the pure part of [initializeBoard], [newCards], and what holds
      of a dealt board: size, ids, faces, and that every emoji is on exactly
      two cards.
    - [Deal]: which boards are dealt: exactly the arrangements of the pairs
      of [PAIRS_COUNT] distinct emojis of the pool.
    - [Engine]: the state and the handlers of [GameEngine.tsx], function by
      function, written against the props interface [GameEngineProps] (a
      class with the laws of a pair of state variables); closed forms of
      what the handlers compute; the engine's invariant [engine_inv] and its
      preservation by every handler; what the component renders.
    - [Grid]: the return statement of [GameEngine.tsx] as markup, with the
      class names of the source; the board is read back from it.
    - [Storage]: the stored best score: [localStorage] as an optional
      string, [parseInt] and [toString] on the strings the program meets,
      and their round trip.
    - [GameUI]: the overlay, written against its props interface
      [GameUIProps]: [formatTime], the three screens as markup
      ([renderGameUI]) and as the summary of their texts and buttons
      ([renderUI]).
    - [App]: the state, effects, interval callback and [resetGame] of
      [App.tsx]; [App] as an instance of [GameEngineProps] and of
      [GameUIProps].
    - [Game]: the components put together.  A [World] is the state of the
      mounted application with, for each effect, the dependencies of its
      last run; [commit] runs the effects that are due, [settle] renders
      until none is; [step] delivers one enabled event.
    - [Invariant]: the invariant [world_inv] of the reachable worlds and its
      proof, event by event.
    - [Runs]: [run] and scripts of player actions; the concrete worlds the
      theorems are tried on.
    - [Reducer]: [next], the transition of an event as a closed-form
      function of the state, and its agreement with [react].
    - [Pairs]: matched cards come in pairs: the match callback marks both
      cards of a pair and no other card, in every reachable world.
    - [Delivery]: the interface of what a browser delivers, between the
      events of [Game.enabled] and those of them that are not clicks on
      matched cards; every delivery reaches the same worlds.
    - [Liveness]: every game can be finished: from every reachable world a
      run of at most [3 * PAIRS_COUNT + 1] events ends in GAME_OVER.
    - [View]: the return statement of [App.tsx]: the page, the clicks it
      takes, and the game played through them.
    - [Typing]: the values stay within the types the source declares: the
      counters are counts, no id is [undefined].
    - [Timed]: the clock.  Worlds with the time, the moments the pending
      callbacks and the next turn of the interval are due; timers never
      fire early.  The timer never runs ahead of the time played, shows it
      to the second when the interval is served on time, and no game ends
      sooner than its matches take.
    - [Deadline]: [Liveness] with the clock: every game can be finished
      within five seconds of any moment.
    - [Safety]: the invariant on every reachable world and its consequences:
      the lock, the pending callback, the cycle of phases, the grid.
    - [Score]: how [moves] counts, that [bestMoves] is the least score, that
      the store reads back as the best score, and the two ways a score is
      lost (a stored value that is not a number, the sentinel 9999).
    - [Faults]: the application with a store that throws: [getItem] and
      [setItem] with a result that is a value or an exception, threaded
      through the effects, the renders and the runs.
    - [Scenarios]: the scenarios of the specification, evaluated, and the
      callback that survives a reset.
    - [Spec]: the state machine the specification describes (session
      controller and board engine), written from the specification alone.
    - [Refinement]: the abstraction from worlds to states of [Spec], and
      the proof that every step of the application is a step of [Spec].

    ** Conventions

    A React state setter called in a handler queues an update; the updates of
    one handler are applied in order before the next event is delivered.  A
    handler is therefore a function from the values its closure captured (the
    render it was created in) to a state transformer, an [Upd].  A setter
    called with a value ignores the current state, a setter called with a
    function ([setCards(prev => ...)]) reads it: the model keeps the
    difference.  An effect is a function of the render it belongs to,
    composed of its previous cleanup and its body, and runs when its
    dependencies differ from those recorded at its last run.

    [undefined] ids (an array destructured beyond its length in
    [checkForMatch]) are [None].  The callbacks scheduled with [setTimeout]
    are kept in the engine's state as data ([Timeout]) until they run.

    ** Bounds and fuel

    [settle] takes fuel.  [renderFuel] is 2: [Game.settle_stable] shows that
    after two commits no effect is due, from every world, reachable or not,
    and [Game.settle_fuel] that more fuel changes nothing, so the fuel never
    cuts a computation short.  The statistics are exact integers: the model
    has no rounding, which is the behaviour of JavaScript numbers below
    2^53, far above any count of moves or seconds a game reaches.  The board
    has [2 * PAIRS_COUNT = 16] cards and the pool 32 emojis, as in
    [constants.ts]; the theorems about deals hold for the constants as they
    are.  The run that finishes a game is bounded by the code, not by fuel:
    three events for each pair that is left ([Liveness.clean_wins], by
    induction on the number of unmatched cards) and one for the start
    button; it uses only events every [Delivery] hands over, so the bound
    holds for the clicks of the page as well.  Time is a natural number of
    milliseconds; a wait can be any
    length, so a timed run covers every timing in which no timer fires
    early.

    ** What the theorems show

    - The deal: every dealt board pairs its emojis, for every outcome of
      the two random sorts, and every arrangement of eight pairs of the
      pool is dealt by some outcome.
    - The engine: each handler is characterised on every branch, and keeps
      [engine_inv]: ids distinct, emojis paired, the selection is exactly
      the face-up unmatched cards, the lock is held exactly while two cards
      are selected and one callback is pending.
    - Rendering: effects always settle within two commits.
    - The application: every reachable world satisfies [world_inv]; hence
      clicks under the lock change nothing, a callback never outlives its
      game, the interval runs exactly during a game, the game is over
      exactly when all cards are matched, and the phase follows START,
      PLAYING, GAME_OVER, START.
    - The transition function [next] agrees with the operational [react]
      on every world of the invariant.
    - Pairs and liveness: two cards with the same emoji are matched
      together or not at all, so the partner of a card that is not matched
      can always be turned, and every game can be finished in at most 25
      events.
    - The page: the grid shows the board and nothing else (the cards are
      read back from the markup); the page takes the clicks on the buttons
      of the screen and on the cards that are not matched, and no other;
      played through the page the game reaches the same worlds and can
      always be finished.
    - Types: no counter is [NaN] or negative and no callback holds an
      [undefined] id, in any reachable world.
    - Time: with the delays of the source (500 ms, [FLIP_DELAY_MS], the
      1000 ms of the interval) the timer shown is at most the seconds
      played, exactly so when the interval is served on time, a game
      takes at least four seconds, and from every moment on it can be
      finished within five.
    - Scores: [moves] is the number of pairs turned, at least
      [PAIRS_COUNT] when a game is over; [bestMoves] is the least final
      score; the store reads back as [bestMoves].
    - Faults: with a store that works the runs are those of [Game]; with
      one that cannot be written the application is lost exactly when a
      game ends with fewer moves than the best score; with none it does
      not start.
    - Refinement: the application implements the machine of the
      specification, step by step and along every run, when the best score
      it starts from is a number.

    ** What is not modelled

    What the browser draws: the class names and icons are in the markup
    as the source writes them, but of their meaning only
    [pointer-events-none] is modelled; layout, colours, the flip and the
    fading as animations, and which element lies on top at a point are
    not.  A pointer is taken to reach every element that receives pointer
    events; [View.overlay_blocks_board] shows that under the start and the
    end screen the board takes no click anyway.  The final [return null]
    of [GameUI.tsx] has no counterpart: the phase has three values.
    [index.tsx] and the build; the distribution of the random sort (only
    which outcomes are possible); the time an event handler or a render
    takes (events are instantaneous, and in [Game] a scheduled callback or
    the interval may fire at any later moment, which covers every timing;
    [Timed] adds the delays); exceptions other than those of
    [localStorage]; white space outside ASCII in [parseInt]; React's strict mode, which runs
    updaters twice.  Events are delivered one at a time, each after the
    renders of the one before, as React does for clicks and timers. *)

From stdpp Require Export base tactics option strings pretty numbers relations list sets.

(** ** State updates *)

(** A queued state update. *)
Definition Upd (S : Type) : Type := S → S.

Definition skip {S : Type} : Upd S := λ s, s.

Definition andThen {S : Type} (u v : Upd S) : Upd S := λ s, v (u s).

Definition when {S : Type} (b : bool) (u : Upd S) : Upd S :=
  if b then u else skip.

Declare Scope upd_scope.
Delimit Scope upd_scope with upd.
Bind Scope upd_scope with Upd.
Notation "u ;; v" := (andThen u v)
  (at level 100, v at level 200, right associativity) : upd_scope.

Lemma seq_skip_l {S : Type} (u : Upd S) s : (skip ;; u)%upd s = u s.
Proof. done. Qed.

Lemma seq_skip_r {S : Type} (u : Upd S) s : (u ;; skip)%upd s = u s.
Proof. done. Qed.

Lemma seq_assoc {S : Type} (u v w : Upd S) s :
  ((u ;; v) ;; w)%upd s = (u ;; (v ;; w))%upd s.
Proof. done. Qed.

Lemma when_true {S : Type} (u : Upd S) s : when true u s = u s.
Proof. done. Qed.

Lemma when_false {S : Type} (u : Upd S) s : when false u s = s.
Proof. done. Qed.

(** ** Hint databases and tactics *)

(** [game] holds the resolution hints of the components' invariants, and the
    rewrite database of the same name their simplification equations. *)
Create HintDb game discriminated.
Create Rewrite HintDb game.

#[export] Hint Rewrite @seq_skip_l @seq_skip_r @when_true @when_false : game.

(** Unfolds the sequencing combinators, leaving the composed function. *)
Ltac unfold_upd := unfold andThen, when, skip in *.

(** Case analysis on every [bool_decide] and [decide] of the goal. *)
Ltac case_decides :=
  repeat first [ case_bool_decide | case_decide ]; simplify_eq/=.

(** ** Counting occurrences *)

Section occ.
Context `{EqDecision A}.
Implicit Types (x y : A) (l k : list A).
(** The number of occurrences of [x] in [l]. *)
Definition occ (x : A) (l : list A) : nat := length (filter (x =.) l).
Lemma occ_nil x : occ x [] = 0.
Proof. done. Qed.
Lemma occ_cons x y l : occ x (y :: l) = (if decide (x = y) then 1 else 0) + occ x l.
Proof. unfold occ. rewrite filter_cons. by case_decide. Qed.
Lemma occ_app x l k : occ x (l ++ k) = occ x l + occ x k.
Proof. unfold occ. by rewrite filter_app, length_app. Qed.

#[export] Instance occ_Permutation x : Proper ((≡ₚ) ==> (=)) (occ x).
Proof. intros l k Hlk. unfold occ. by rewrite Hlk. Qed.

Lemma occ_not_elem_of x l : x ∉ l ↔ occ x l = 0.
Proof.
  induction l as [|y l IH]; [split; [done|intros _ []%elem_of_nil]|].
  rewrite occ_cons, not_elem_of_cons, IH. case_decide; naive_solver lia.
Qed.

Lemma occ_elem_of x l : x ∈ l ↔ 0 < occ x l.
Proof.
  pose proof (occ_not_elem_of x l).
  destruct (decide (x ∈ l)), (occ x l); naive_solver lia.
Qed.

Lemma occ_NoDup x l : NoDup l → x ∈ l → occ x l = 1.
Proof.
  induction 1 as [|y l Hy _ IH]; [by intros ?%elem_of_nil|].
  rewrite occ_cons, elem_of_cons. case_decide as Hxy.
  - intros _. subst y. apply occ_not_elem_of in Hy. lia.
  - intros [?|?]; [done|]. by rewrite IH.
Qed.

Lemma occ_le_length x l : occ x l ≤ length l.
Proof. apply length_filter. Qed.

Lemma occ_submseteq x l k : l ⊆+ k → occ x l ≤ occ x k.
Proof. intros [k' ->]%submseteq_Permutation. rewrite occ_app. lia. Qed.

End occ.

#[export] Hint Rewrite @occ_nil @occ_cons @occ_app : game.
