(* ===== verification/Markup.v ===== *)
(** * Markup: the elements a component returns

    A React component returns a tree of elements.  The tree is kept as the
    source writes it: the tag, the attributes in their order, the children.
    A handler is kept as a value of a type [H] the component chooses (the
    card a click is for, the button that was pressed), so that two trees can
    be compared.

    Two things are read off a tree.  [texts] is what it displays.
    [offered] is what a pointer can do to it: the handlers of the elements
    that receive pointer events.  An element with the class
    [pointer-events-none] receives none, nor do its descendants (the
    property is inherited) unless they switch it back on
    ([pointer-events-auto]); a click on a descendant bubbles to the handlers
    of its ancestors.  Geometry is left out: an element that receives
    pointer events is taken to be somewhere a pointer can reach. *)

From S2P Require Import Prelude.

#[local] Open Scope string_scope.

(** ** Elements *)

Inductive Attr (H : Type) :=
  | Key (k : string)
  | ClassName (c : string)
  | OnClick (h : H)
  | Style (property value : string)
  | Size (n : nat).

#[global] Arguments Key {H} k.
#[global] Arguments ClassName {H} c.
#[global] Arguments OnClick {H} h.
#[global] Arguments Style {H} property value.
#[global] Arguments Size {H} n.

#[local] Unset Elimination Schemes.

Inductive Node (H : Type) :=
  | Text (s : string)
  | Elem (tag : string) (attrs : list (Attr H)) (children : list (Node H)).

#[local] Set Elimination Schemes.

#[global] Arguments Text {H} s.
#[global] Arguments Elem {H} tag attrs children.

Section markup.
Context {H : Type}.
Implicit Types (a : Attr H) (attrs : list (Attr H)) (n : Node H)
  (children : list (Node H)) (on : bool).

(** Induction on a tree, with the hypothesis for every child. *)
Definition Node_ind (P : Node H → Prop)
    (text : ∀ s, P (Text s))
    (elem : ∀ tag attrs children, Forall P children → P (Elem tag attrs children))
    : ∀ n, P n :=
  fix go n :=
    match n with
    | Text s => text s
    | Elem tag attrs children =>
        elem tag attrs children
          ((fix all children : Forall P children :=
              match children with
              | [] => Forall_nil_2 P
              | child :: children =>
                  Forall_cons_2 P child children (go child) (all children)
              end) children)
    end.

(** ** Attributes *)

(** The classes of an element: the words of its [className]. *)
Definition classes attrs : list string :=
  attrs ≫= λ a, match a with ClassName c => String.words c | _ => [] end.

Definition handlers attrs : list H :=
  attrs ≫= λ a, match a with OnClick h => [h] | _ => [] end.

Definition keyOf attrs : option string :=
  head (attrs ≫= λ a, match a with Key k => [k] | _ => [] end).

(** Whether the element receives pointer events, given whether its parent
    does. *)
Definition pointerEvents on attrs : bool :=
  if bool_decide ("pointer-events-none" ∈ classes attrs) then false
  else if bool_decide ("pointer-events-auto" ∈ classes attrs) then true
  else on.

(** ** What a tree displays and offers *)

Fixpoint texts n : list string :=
  match n with
  | Text s => [s]
  | Elem _ _ children => flat_map texts children
  end.

(** Some part of the tree receives pointer events. *)
Fixpoint hit on n : bool :=
  match n with
  | Text _ => on
  | Elem _ attrs children =>
      pointerEvents on attrs || existsb (hit (pointerEvents on attrs)) children
  end.

(** The handlers a click can reach. *)
Fixpoint offered on n : list H :=
  match n with
  | Text _ => []
  | Elem _ attrs children =>
      (if hit on n then handlers attrs else [])
      ++ flat_map (offered (pointerEvents on attrs)) children
  end.

(** The keys of a list of siblings. *)
Definition keys children : list string :=
  children ≫= λ n, match n with
                   | Elem _ attrs _ => option_list (keyOf attrs)
                   | Text _ => []
                   end.

(** [offered] on an element, without unfolding [hit]. *)
Lemma offered_Elem on tag attrs children :
  offered on (Elem tag attrs children)
  = ((if hit on (Elem tag attrs children) then handlers attrs else [])
     ++ flat_map (offered (pointerEvents on attrs)) children)%list.
Proof. done. Qed.

End markup.

(** The tree with its handlers renamed: a component placed in another. *)
Definition amap {H H' : Type} (f : H → H') (a : Attr H) : Attr H' :=
  match a with
  | OnClick h => OnClick (f h)
  | Key k => Key k
  | ClassName c => ClassName c
  | Style p v => Style p v
  | Size k => Size k
  end.

Fixpoint nmap {H H' : Type} (f : H → H') (n : Node H) : Node H' :=
  match n with
  | Text s => Text s
  | Elem tag attrs children => Elem tag (map (amap f) attrs) (map (nmap f) children)
  end.

(** ** Renaming handlers *)

Section nmap.
Context {H H' : Type} (f : H → H').
Implicit Types (n : Node H) (attrs : list (Attr H)).

Lemma classes_amap attrs : classes (map (amap f) attrs) = classes attrs.
Proof.
  unfold classes. induction attrs as [|[] attrs IH]; csimpl; by rewrite ?IH.
Qed.

Lemma handlers_amap attrs : handlers (map (amap f) attrs) = f <$> handlers attrs.
Proof.
  unfold handlers. induction attrs as [|[] attrs IH]; csimpl; by rewrite ?IH.
Qed.

Lemma pointerEvents_amap on attrs :
  pointerEvents on (map (amap f) attrs) = pointerEvents on attrs.
Proof. unfold pointerEvents. by rewrite classes_amap. Qed.

Lemma texts_nmap n : texts (nmap f n) = texts n.
Proof.
  induction n as [|tag attrs children IH] using Node_ind; [done|]. simpl.
  induction IH as [|child children Hchild _ IH]; simpl; by rewrite ?Hchild, ?IH.
Qed.

Lemma hit_nmap on n : hit on (nmap f n) = hit on n.
Proof.
  revert on. induction n as [|tag attrs children IH] using Node_ind; intros on; [done|].
  simpl. rewrite pointerEvents_amap. f_equal.
  induction IH as [|child children Hchild _ IH]; simpl; by rewrite ?Hchild, ?IH.
Qed.

(** Renaming commutes with delivery: what the renamed tree offers is what
    the tree offers, renamed. *)
Lemma offered_nmap on n : offered on (nmap f n) = f <$> offered on n.
Proof.
  revert on. induction n as [|tag attrs children IH] using Node_ind; intros on; [done|].
  rewrite offered_Elem. change (nmap f (Elem tag attrs children))
    with (Elem tag (map (amap f) attrs) (map (nmap f) children)).
  rewrite offered_Elem, <-(hit_nmap on (Elem _ _ _)), handlers_amap.
  rewrite pointerEvents_amap.
  rewrite fmap_app. f_equal; [by destruct (hit _ _)|].
  induction IH as [|child children Hchild _ IH]; [done|].
  simpl. by rewrite fmap_app, Hchild, IH.
Qed.

End nmap.

