(* ===== verification/Types.v ===== *)
(** * Types: the data of [src/types.ts] and the constants of [src/constants.ts]

    [GameState], [Card] and [GameStats] are the source's declarations.  The
    fields of [GameStats] are JavaScript numbers: [number] keeps the two
    kinds of value they can hold in this program, an integer or [NaN] (what
    [parseInt] returns for a stored best score that is not a number), with
    the operators the source applies to them. *)

From S2P Require Import Prelude.

#[local] Open Scope string_scope.

(** ** [types.ts] *)

Inductive GameState := START | PLAYING | GAME_OVER.

#[export] Instance GameState_eq_dec : EqDecision GameState.
Proof. solve_decision. Defined.

Record Card := mkCard {
  id : string;
  emoji : string;
  isFlipped : bool;
  isMatched : bool;
}.

#[export] Instance Card_eq_dec : EqDecision Card.
Proof. solve_decision. Defined.

(** A JavaScript number as this program meets it.  Integers are exact in
    the source's doubles below 2^53; the model keeps them unbounded. *)
Inductive number := NaN | Num (z : Z).

#[export] Instance number_eq_dec : EqDecision number.
Proof. solve_decision. Defined.

(** [a + b] *)
Definition num_add (a b : number) : number :=
  match a, b with
  | Num x, Num y => Num (x + y)
  | _, _ => NaN
  end.

(** [a < b]: false as soon as one side is [NaN]. *)
Definition num_lt (a b : number) : bool :=
  match a, b with
  | Num x, Num y => bool_decide (x < y)%Z
  | _, _ => false
  end.

Record GameStats := mkStats {
  moves : number;
  bestMoves : number;
  timer : number;
}.

#[export] Instance GameStats_eq_dec : EqDecision GameStats.
Proof. solve_decision. Defined.

(** The object spreads [{ ...prev, field: v }] of the source. *)
Definition set_moves (v : number) (s : GameStats) : GameStats :=
  mkStats v (bestMoves s) (timer s).

Definition set_bestMoves (v : number) (s : GameStats) : GameStats :=
  mkStats (moves s) v (timer s).

Definition set_timer (v : number) (s : GameStats) : GameStats :=
  mkStats (moves s) (bestMoves s) v.

Definition set_isFlipped (b : bool) (c : Card) : Card :=
  mkCard (id c) (emoji c) b (isMatched c).

Definition set_isMatched (b : bool) (c : Card) : Card :=
  mkCard (id c) (emoji c) (isFlipped c) b.

(** ** [constants.ts] *)

Definition GRID_SIZE : nat := 4.

(** [(GRID_SIZE * GRID_SIZE) / 2]; the only use is as the end of a [slice],
    which truncates, so the quotient is the natural one. *)
Definition PAIRS_COUNT : nat := (GRID_SIZE * GRID_SIZE) / 2.

Definition FLIP_DELAY_MS : nat := 1000.

Definition EMOJI_POOL : list string :=
  [ "🐶"; "🐱"; "🐭"; "🐹"; "🐰"; "🦊"; "🐻"; "🐼";
    "🐨"; "🐯"; "🦁"; "🐮"; "🐷"; "🐸"; "🐵"; "🦄";
    "🐙"; "🦋"; "🐞"; "🦀"; "🐠"; "🦕"; "🦖"; "🐢";
    "🍎"; "🍌"; "🍇"; "🍉"; "🍓"; "🍒"; "🍑"; "🍍" ].

(** The colours of the two faces of a card.  No component reads them: the
    markup of the grid spells the same classes out. *)
Definition CARD_BACK_COLOR : string :=
  "bg-gradient-to-br from-indigo-500 to-purple-600".

Definition CARD_FRONT_COLOR : string := "bg-white".

(** ** Numbers *)

Lemma num_lt_Num x y : num_lt (Num x) (Num y) = true ↔ (x < y)%Z.
Proof. simpl. by rewrite bool_decide_eq_true. Qed.

Lemma num_lt_NaN_r a : num_lt a NaN = false.
Proof. by destruct a. Qed.

Lemma num_lt_NaN_l a : num_lt NaN a = false.
Proof. done. Qed.

Lemma num_lt_irrefl a : num_lt a a = false.
Proof. destruct a as [|x]; [done|]. simpl. apply bool_decide_eq_false. lia. Qed.

Lemma num_add_Num x y : num_add (Num x) (Num y) = Num (x + y).
Proof. done. Qed.

#[export] Hint Rewrite num_lt_NaN_r num_lt_NaN_l num_lt_irrefl num_add_Num : game.

(** ** The constants *)

Lemma PAIRS_COUNT_eq : PAIRS_COUNT = 8.
Proof. reflexivity. Qed.

Lemma EMOJI_POOL_length : length EMOJI_POOL = 32.
Proof. reflexivity. Qed.

Lemma EMOJI_POOL_NoDup : NoDup EMOJI_POOL.
Proof. apply (bool_decide_unpack _). vm_compute. exact I. Qed.
