(* ===== verification/Shuffle.v ===== *)
(** * Shuffle: the random sort of [initializeBoard]

    [GameEngine.tsx] shuffles an array with [sort(() => 0.5 - Math.random())],
    a sort whose comparator answers at random.  Which arrangement comes out
    depends on the engine's sorting algorithm and on the draws; what the
    language guarantees is that the array holds the same elements afterwards.
    The model makes the arrangement the environment's choice: [randomSort]
    takes a list of picks, each naming (modulo the number of elements left)
    the element placed next.  [randomSort_Permutation] shows that every
    outcome is an arrangement of the input, [randomSort_complete] that every
    arrangement is an outcome; [randomSort_spec] states both.  The
    distribution of the outcomes is not modelled. *)

From S2P Require Import Prelude.

Section randomSort.
Context {A : Type}.
Implicit Types (l : list A) (picks : list nat).

Fixpoint randomSort (picks : list nat) (l : list A) : list A :=
  match picks with
  | [] => l
  | k :: picks' =>
      match l !! (k mod length l) with
      | Some x => x :: randomSort picks' (delete (k mod length l) l)
      | None => l
      end
  end.

Lemma randomSort_nil picks : randomSort picks [] = [].
Proof. by destruct picks. Qed.

Lemma randomSort_Permutation picks l : randomSort picks l ≡ₚ l.
Proof.
  revert l. induction picks as [|k picks IH]; intros l; simpl; [done|].
  destruct (l !! _) as [x|] eqn:Hx; [|done].
  by rewrite IH, <-delete_Permutation.
Qed.

Lemma randomSort_length picks l : length (randomSort picks l) = length l.
Proof. by rewrite randomSort_Permutation. Qed.

Lemma randomSort_elem_of picks l x : x ∈ randomSort picks l ↔ x ∈ l.
Proof. by rewrite randomSort_Permutation. Qed.

Lemma randomSort_NoDup picks l : NoDup (randomSort picks l) ↔ NoDup l.
Proof. by rewrite randomSort_Permutation. Qed.

(** One pick at an index inside the list places the element found there. *)
Lemma randomSort_cons i picks l x :
  l !! i = Some x →
  randomSort (i :: picks) l = x :: randomSort picks (delete i l).
Proof.
  intros Hx. simpl.
  rewrite Nat.mod_small by (by apply lookup_lt_Some in Hx). by rewrite Hx.
Qed.

Lemma randomSort_complete l l' : l' ≡ₚ l → ∃ picks, randomSort picks l = l'.
Proof.
  revert l. induction l' as [|x l' IH]; intros l Hl.
  { exists []. by apply Permutation_nil in Hl as ->. }
  assert (x ∈ l) as [i Hi]%list_elem_of_lookup by (rewrite <-Hl; left).
  destruct (IH (delete i l)) as [picks Hpicks].
  { apply (inj (cons x)). by rewrite Hl, <-delete_Permutation. }
  exists (i :: picks). by rewrite (randomSort_cons _ _ _ x), Hpicks.
Qed.


End randomSort.

#[export] Instance randomSort_Permutation_proper {A : Type} picks :
  Proper ((≡ₚ) ==> (≡ₚ)) (@randomSort A picks).
Proof. intros l1 l2 Hl. by rewrite !randomSort_Permutation. Qed.

#[export] Hint Rewrite @randomSort_length @randomSort_nil : game.
