(* ===== verification/Board.v ===== *)
(** * Board: the cards [initializeBoard] deals

    [newCards] is the pure part of [initializeBoard]
    ([src/components/GameEngine.tsx], lines 30-46): choose [PAIRS_COUNT]
    emojis of the pool, take each twice, shuffle, and number the cards in
    board order.  The two random sorts draw from [Draws].  The theorems are
    the facts about a fresh board that the engine's invariants start from:
    its size, its ids, that every card is face down, and the pairing of the
    emojis. *)

From S2P Require Import Prelude Types Shuffle.

(** The draws of the two random sorts of one deal. *)
Record Draws := mkDraws {
  draws1 : list nat;
  draws2 : list nat;
}.

(** [`card-${index}`] *)
Definition cardId (index : nat) : string := "card-"%string +:+ pretty index.

Definition newCard (index : nat) (emoji : string) : Card :=
  mkCard (cardId index) emoji false false.

(** The emojis chosen by a deal: the first [PAIRS_COUNT] of the shuffled
    pool. *)
Definition selectedEmojis (d : Draws) : list string :=
  let shuffledEmojis := randomSort (draws1 d) EMOJI_POOL in
  take PAIRS_COUNT shuffledEmojis.

Definition newCards (d : Draws) : list Card :=
  let gameEmojis := selectedEmojis d ++ selectedEmojis d in
  let shuffledGameEmojis := randomSort (draws2 d) gameEmojis in
  imap newCard shuffledGameEmojis.

#[global] Arguments newCards : simpl never.
#[global] Arguments selectedEmojis : simpl never.

(** ** Predicates on boards *)

(** The number of cards that carry [e]. *)
Definition emojiCount (e : string) (cs : list Card) : nat :=
  occ e (emoji <$> cs).

(** Every emoji on the board is on exactly two cards. *)
Definition paired (cs : list Card) : Prop :=
  Forall (λ c, emojiCount (emoji c) cs = 2) cs.

#[export] Instance paired_dec cs : Decision (paired cs).
Proof. unfold paired. apply _. Defined.

(** ** The ids *)

#[export] Instance cardId_inj : Inj (=) (=) cardId.
Proof. intros i j Hij. by apply (inj (String.append _)), (inj pretty) in Hij. Qed.

Lemma newCards_emojis d :
  emoji <$> newCards d
  = randomSort (draws2 d) (selectedEmojis d ++ selectedEmojis d).
Proof.
  unfold newCards. apply list_eq; intros i.
  rewrite list_lookup_fmap, list_lookup_imap. by destruct (_ !! i).
Qed.

(** The card at position [i] is card [i] of the shuffled emojis. *)
Lemma newCards_lookup d i :
  newCards d !! i = newCard i <$> (emoji <$> newCards d) !! i.
Proof.
  rewrite newCards_emojis. unfold newCards. by rewrite list_lookup_imap.
Qed.

Lemma newCards_lookup_id d i c : newCards d !! i = Some c → id c = cardId i.
Proof.
  rewrite newCards_lookup. destruct (_ !! i); intros; by simplify_eq/=.
Qed.

Lemma newCards_ids_NoDup d : NoDup (id <$> newCards d).
Proof.
  apply NoDup_alt. intros i j x.
  rewrite !list_lookup_fmap.
  destruct (newCards d !! i) as [c|] eqn:Hc, (newCards d !! j) as [c'|] eqn:Hc';
    intros; simplify_eq/=.
  apply newCards_lookup_id in Hc, Hc'. apply (inj cardId). congruence.
Qed.

(** ** Size and faces *)

Lemma selectedEmojis_length d : length (selectedEmojis d) = PAIRS_COUNT.
Proof.
  unfold selectedEmojis. rewrite length_take, randomSort_length. reflexivity.
Qed.

Lemma newCards_length d : length (newCards d) = 2 * PAIRS_COUNT.
Proof.
  rewrite <-(length_fmap emoji), newCards_emojis, randomSort_length, length_app.
  rewrite selectedEmojis_length. lia.
Qed.

Lemma newCards_face_down d :
  Forall (λ c, isFlipped c = false ∧ isMatched c = false) (newCards d).
Proof.
  apply Forall_lookup. intros i c. rewrite newCards_lookup.
  destruct (_ !! i); intros; by simplify_eq/=.
Qed.

(** ** The pairing of the emojis *)

Lemma selectedEmojis_NoDup d : NoDup (selectedEmojis d).
Proof.
  eapply sublist_NoDup; [|apply sublist_take].
  apply randomSort_NoDup, EMOJI_POOL_NoDup.
Qed.

Lemma selectedEmojis_pool d : selectedEmojis d ⊆ EMOJI_POOL.
Proof.
  intros e He%subseteq_take. by apply randomSort_elem_of in He.
Qed.

Lemma emojiCount_newCards d e :
  emojiCount e (newCards d) = if decide (e ∈ selectedEmojis d) then 2 else 0.
Proof.
  unfold emojiCount. rewrite newCards_emojis, randomSort_Permutation, occ_app.
  case_decide as He.
  - rewrite (occ_NoDup e) by auto using selectedEmojis_NoDup. done.
  - apply occ_not_elem_of in He. lia.
Qed.

Lemma elem_of_newCards_emoji d c : c ∈ newCards d → emoji c ∈ selectedEmojis d.
Proof.
  intros Hc. assert (emoji c ∈ emoji <$> newCards d) as He by set_solver.
  rewrite newCards_emojis, randomSort_elem_of in He. set_solver.
Qed.

Lemma emojiCount_dealt d c :
  c ∈ newCards d → emojiCount (emoji c) (newCards d) = 2.
Proof.
  intros Hc%elem_of_newCards_emoji. rewrite emojiCount_newCards. by case_decide.
Qed.

(** Every emoji of a board comes from the pool, and the board shows
    [PAIRS_COUNT] different ones. *)
Lemma newCards_emoji_pool d c : c ∈ newCards d → emoji c ∈ EMOJI_POOL.
Proof. intros Hc. by apply (selectedEmojis_pool d), elem_of_newCards_emoji. Qed.

(** ** The deal *)

(** C2: on every board that [initializeBoard] deals, each emoji that is
    present is on exactly two cards. *)
Theorem newCards_paired d : paired (newCards d).
Proof. apply Forall_forall, emojiCount_dealt. Qed.

(** C29: a deal is [2 * PAIRS_COUNT] cards, the card at position [i] has the
    id [card-i], so that the ids are distinct, every card lies face down and
    unmatched, and every emoji is one of the pool. *)
Theorem newCards_fresh d :
  length (newCards d) = 2 * PAIRS_COUNT
  ∧ (∀ i c, newCards d !! i = Some c → id c = cardId i)
  ∧ NoDup (id <$> newCards d)
  ∧ Forall (λ c, isFlipped c = false ∧ isMatched c = false) (newCards d)
  ∧ Forall (λ c, emoji c ∈ EMOJI_POOL) (newCards d).
Proof.
  split_and!; [apply newCards_length|apply newCards_lookup_id|
    apply newCards_ids_NoDup|apply newCards_face_down|].
  apply Forall_forall, newCards_emoji_pool.
Qed.
