(* ===== verification/Deal.v ===== *)
(** * Deal: the boards [initializeBoard] can deal

    [Board] shows what holds of every board dealt.  This file shows which
    boards are dealt: a board is the outcome of [newCards] for some draws
    of the two random sorts of [src/components/GameEngine.tsx] exactly when
    it is an arrangement of the pairs of [PAIRS_COUNT] distinct emojis of
    the pool, numbered in board order.  No arrangement is left out, and
    none has an emoji twice over. *)

From S2P Require Import Prelude Types Shuffle Board.

Implicit Types (d : Draws) (es l : list string) (cs : list Card).

(** A choice of emojis for a game. *)
Definition selection (es : list string) : Prop :=
  NoDup es ∧ es ⊆ EMOJI_POOL ∧ length es = PAIRS_COUNT.

#[export] Instance selection_dec es : Decision (selection es).
Proof. unfold selection. apply _. Defined.

(** A board of the pairs of [es]. *)
Definition boardOf (es : list string) (cs : list Card) : Prop :=
  ∃ l, l ≡ₚ es ++ es ∧ cs = imap newCard l.

Lemma selectedEmojis_selection d : selection (selectedEmojis d).
Proof.
  split_and!; [apply selectedEmojis_NoDup|apply selectedEmojis_pool|
               apply selectedEmojis_length].
Qed.

(** Every selection is chosen by some draws of the first sort. *)
Lemma selection_drawn es : selection es → ∃ picks,
  take PAIRS_COUNT (randomSort picks EMOJI_POOL) = es.
Proof.
  intros (Hnd & Hsub & Hlen).
  destruct (submseteq_Permutation es EMOJI_POOL) as [rest Hrest];
    [by apply NoDup_submseteq|].
  destruct (randomSort_complete EMOJI_POOL (es ++ rest)) as [picks Hpicks];
    [done|].
  exists picks. by rewrite Hpicks, <-Hlen, take_app_length.
Qed.

Lemma newCards_boardOf d : boardOf (selectedEmojis d) (newCards d).
Proof.
  exists (randomSort (draws2 d) (selectedEmojis d ++ selectedEmojis d)).
  split; [apply randomSort_Permutation|done].
Qed.

Lemma boardOf_dealt es cs :
  selection es → boardOf es cs → ∃ d, newCards d = cs.
Proof.
  intros [picks1 Hes]%selection_drawn (l & Hl & ->).
  destruct (randomSort_complete (es ++ es) l Hl) as [picks2 Hpicks].
  exists (mkDraws picks1 picks2). unfold newCards, selectedEmojis. simpl.
  by rewrite Hes, Hpicks.
Qed.

(** C20: the boards dealt are exactly the arrangements of the pairs of
    [PAIRS_COUNT] distinct emojis of the pool: every deal is one, and every
    one of them is dealt for some outcome of the two random sorts. *)
Theorem newCards_spec cs :
  (∃ d, newCards d = cs) ↔ ∃ es, selection es ∧ boardOf es cs.
Proof.
  split.
  - intros [d <-]. exists (selectedEmojis d).
    split; [apply selectedEmojis_selection|apply newCards_boardOf].
  - intros (es & Hes & Hcs). by apply (boardOf_dealt es).
Qed.

(** The first eight emojis of the pool, each next to its pair. *)
Example sideBySide_dealt :
  let es := take PAIRS_COUNT EMOJI_POOL in
  ∃ d, newCards d = imap newCard (es ≫= λ e, [e; e]).
Proof.
  intros es. apply (boardOf_dealt es);
    [apply (bool_decide_unpack _); by vm_compute|].
  eexists. split; [|done]. apply (bool_decide_unpack _). by vm_compute.
Qed.
