(* ===== verification/Engine.v ===== *)
(** * Engine: the board engine of [src/components/GameEngine.tsx]

    The component keeps three pieces of React state ([cards], [flippedIds],
    [isProcessing]) and schedules the callbacks that resolve a pair; the
    model adds the callbacks that are scheduled and have not run yet
    ([timeouts]).  The parent reaches the engine through the props of
    [GameEngineProps], a class here: the handlers are written against it and
    [App] provides the instance.

    A handler takes the render it was created in (the values its closure
    captured) and returns the updates it queues.  The two delayed callbacks
    capture only the two ids and read the cards through the functional form
    of [setCards], so they take no render. *)

From S2P Require Import Prelude Types Shuffle Board.

#[local] Open Scope upd_scope.

(** ** The props *)

(** [GameEngineProps]: what the parent hands to the engine, with the laws a
    pair of React state variables obeys. *)
Class GameEngineProps (P : Type) := {
  gameState : P → GameState;
  setGameState : GameState → Upd P;
  stats : P → GameStats;
  updateStats : (GameStats → GameStats) → Upd P;
  gameState_setGameState g p : gameState (setGameState g p) = g;
  stats_setGameState g p : stats (setGameState g p) = stats p;
  gameState_updateStats f p : gameState (updateStats f p) = gameState p;
  stats_updateStats f p : stats (updateStats f p) = f (stats p);
}.

#[export] Hint Rewrite @gameState_setGameState @stats_setGameState
  @gameState_updateStats @stats_updateStats : game.

(** ** The state *)

(** A callback handed to [setTimeout], with the ids its closure holds.  A
    destructured id is [undefined] when the array was too short: [None]. *)
Inductive Timeout :=
  | MatchTimeout (id1 id2 : option string)
  | MismatchTimeout (id1 id2 : option string).

#[export] Instance Timeout_eq_dec : EqDecision Timeout.
Proof. solve_decision. Defined.

(** The delay the callback was scheduled with, in milliseconds. *)
Definition timeoutDelay (t : Timeout) : nat :=
  match t with
  | MatchTimeout _ _ => 500
  | MismatchTimeout _ _ => FLIP_DELAY_MS
  end.

Record Engine := mkEngine {
  cards : list Card;
  flippedIds : list string;
  isProcessing : bool;
  timeouts : list Timeout;
}.

#[export] Instance Engine_eq_dec : EqDecision Engine.
Proof. solve_decision. Defined.

(** [useState]'s initial values; nothing is scheduled. *)
Definition initialEngine : Engine := mkEngine [] [] false [].

(** An element of the grid. *)
Record CardView := mkCardView {
  key : string;
  rotated : bool;
  faded : bool;
  front : string;
}.

Definition cardView (c : Card) : CardView :=
  mkCardView (id c) (isFlipped c) (isMatched c) (emoji c).

Section engine.
Context {P : Type} `{!GameEngineProps P}.
Implicit Types (s r : Engine * P) (c : Card) (t : Timeout).

(** *** Setters *)

Definition setCards (v : list Card) : Upd (Engine * P) :=
  λ s, (mkEngine v (flippedIds s.1) (isProcessing s.1) (timeouts s.1), s.2).

Definition setFlippedIds (v : list string) : Upd (Engine * P) :=
  λ s, (mkEngine (cards s.1) v (isProcessing s.1) (timeouts s.1), s.2).

Definition setIsProcessing (v : bool) : Upd (Engine * P) :=
  λ s, (mkEngine (cards s.1) (flippedIds s.1) v (timeouts s.1), s.2).

(** [setTimeout(callback, delay)]: the callback joins the pending ones. *)
Definition setTimeout (t : Timeout) : Upd (Engine * P) :=
  λ s, (mkEngine (cards s.1) (flippedIds s.1) (isProcessing s.1)
          (timeouts s.1 ++ [t]), s.2).

(** A prop's setter called from the engine. *)
Definition props (u : Upd P) : Upd (Engine * P) := λ s, (s.1, u s.2).

(** ** Dealing *)

Definition initializeBoard (d : Draws) : Upd (Engine * P) :=
  setCards (newCards d) ;;
  setFlippedIds [] ;;
  setIsProcessing false.

(** The effect "Initialize Game", run after a render whose [initDeps]
    changed. *)
Definition initEffect (r : Engine * P) (d : Draws) : Upd (Engine * P) :=
  if bool_decide (gameState r.2 = START) then
    setCards [] ;;
    setFlippedIds [] ;;
    setIsProcessing false
  else if bool_decide (gameState r.2 = PLAYING)
          && bool_decide (length (cards r.1) = 0) then
    initializeBoard d
  else skip.

Definition initDeps (r : Engine * P) : GameState * nat :=
  (gameState r.2, length (cards r.1)).

(** ** Resolving a pair *)

(** [c.id === i], where [i] may be [undefined]. *)
Definition hasId (i : option string) (c : Card) : bool :=
  bool_decide (Some (id c) = i).

(** The callback of [handleMatch]: mark the two cards, end the game when
    every card is matched, release the lock. *)
Definition matchCallback (id1 id2 : option string) : Upd (Engine * P) :=
  (λ s,
    let prev := cards s.1 in
    let newCards :=
      (λ c, if hasId id1 c || hasId id2 c
            then set_isFlipped true (set_isMatched true c) else c) <$> prev in
    (when (forallb isMatched newCards) (props (setGameState GAME_OVER)) ;;
     setCards newCards) s) ;;
  setFlippedIds [] ;;
  setIsProcessing false.

(** The callback of [handleMismatch]: turn the two cards face down again,
    release the lock. *)
Definition mismatchCallback (id1 id2 : option string) : Upd (Engine * P) :=
  (λ s,
    let prev := cards s.1 in
    setCards ((λ c, if hasId id1 c || hasId id2 c
                    then set_isFlipped false c else c) <$> prev) s) ;;
  setFlippedIds [] ;;
  setIsProcessing false.

Definition handleMatch (id1 id2 : option string) : Upd (Engine * P) :=
  setTimeout (MatchTimeout id1 id2).

Definition handleMismatch (id1 id2 : option string) : Upd (Engine * P) :=
  setTimeout (MismatchTimeout id1 id2).

Definition checkForMatch (currentFlippedIds : list string)
    (currentCards : list Card) : Upd (Engine * P) :=
  let id1 := currentFlippedIds !! 0 in
  let id2 := currentFlippedIds !! 1 in
  let card1 := find (hasId id1) currentCards in
  let card2 := find (hasId id2) currentCards in
  match card1, card2 with
  | Some card1, Some card2 =>
      if bool_decide (emoji card1 = emoji card2)
      then handleMatch id1 id2
      else handleMismatch id1 id2
  | _, _ => handleMismatch id1 id2
  end.

(** ** Clicks *)

Definition handleCardClick (r : Engine * P) (clickedCard : Card)
    : Upd (Engine * P) :=
  if bool_decide (gameState r.2 ≠ PLAYING)
     || isProcessing r.1
     || isMatched clickedCard
     || isFlipped clickedCard
  then skip
  else
    let newCards :=
      (λ c, if bool_decide (id c = id clickedCard)
            then set_isFlipped true c else c) <$> cards r.1 in
    let newFlippedIds := flippedIds r.1 ++ [id clickedCard] in
    setCards newCards ;;
    setFlippedIds newFlippedIds ;;
    when (bool_decide (length newFlippedIds = 2))
      (setIsProcessing true ;;
       props (updateStats (λ prev, set_moves (num_add (moves prev) (Num 1)) prev)) ;;
       checkForMatch newFlippedIds newCards).

(** ** Timers *)

(** Running a pending callback. *)
Definition runTimeout (t : Timeout) : Upd (Engine * P) :=
  match t with
  | MatchTimeout id1 id2 => matchCallback id1 id2
  | MismatchTimeout id1 id2 => mismatchCallback id1 id2
  end.

(** The [i]-th pending callback fires: it leaves the pending ones and runs.
    Nothing happens when there is no such callback. *)
Definition fireTimeout (i : nat) : Upd (Engine * P) :=
  λ s,
    match timeouts s.1 !! i with
    | Some t =>
        runTimeout t
          (mkEngine (cards s.1) (flippedIds s.1) (isProcessing s.1)
             (delete i (timeouts s.1)), s.2)
    | None => s
    end.

(** ** The grid *)

(** What the component returns: nothing on the start screen, else one
    element per card, keyed by the card's id, rotated when the card is face
    up and faded out when it is matched. *)
Definition renderGrid (r : Engine * P) : option (list CardView) :=
  if bool_decide (gameState r.2 = START) && bool_decide (length (cards r.1) = 0)
  then None
  else Some (cardView <$> cards r.1).

End engine.

(** ** What the handlers compute *)

(** The cards after the one with id [i] is turned face up. *)
Definition flipCard (i : string) (cs : list Card) : list Card :=
  (λ c, if bool_decide (id c = i) then set_isFlipped true c else c) <$> cs.

(** The cards after those with id [id1] or [id2] are marked matched. *)
Definition matchCards (id1 id2 : option string) (cs : list Card) : list Card :=
  (λ c, if hasId id1 c || hasId id2 c
        then set_isFlipped true (set_isMatched true c) else c) <$> cs.

(** The cards after those with id [id1] or [id2] are turned face down. *)
Definition unflipCards (id1 id2 : option string) (cs : list Card) : list Card :=
  (λ c, if hasId id1 c || hasId id2 c then set_isFlipped false c else c) <$> cs.

(** The callback [checkForMatch] schedules for the ids and the cards. *)
Definition pairOutcome (ids : list string) (cs : list Card) : Timeout :=
  match find (hasId (ids !! 0)) cs, find (hasId (ids !! 1)) cs with
  | Some card1, Some card2 =>
      if bool_decide (emoji card1 = emoji card2)
      then MatchTimeout (ids !! 0) (ids !! 1)
      else MismatchTimeout (ids !! 0) (ids !! 1)
  | _, _ => MismatchTimeout (ids !! 0) (ids !! 1)
  end.

(** [prev => ({ ...prev, moves: prev.moves + 1 })] *)
Definition incMoves (prev : GameStats) : GameStats :=
  set_moves (num_add (moves prev) (Num 1)) prev.

Section engine_spec.
Context {P : Type} `{!GameEngineProps P}.
Implicit Types (s r : Engine * P) (c : Card) (t : Timeout) (e : Engine).

(** The click passes the guard of [handleCardClick]. *)
Definition accepts (r : Engine * P) (c : Card) : bool :=
  bool_decide (gameState r.2 = PLAYING)
  && negb (isProcessing r.1) && negb (isMatched c) && negb (isFlipped c).

Lemma checkForMatch_eq ids cs :
  checkForMatch (P:=P) ids cs = setTimeout (pairOutcome ids cs).
Proof.
  unfold checkForMatch, pairOutcome, handleMatch, handleMismatch.
  repeat case_match; done.
Qed.

Lemma handleCardClick_rejected r c s :
  accepts r c = false → handleCardClick r c s = s.
Proof.
  unfold accepts, handleCardClick. intros Hacc.
  destruct (isProcessing r.1), (isMatched c), (isFlipped c);
    repeat case_bool_decide; simplify_eq/=; done.
Qed.

Lemma handleCardClick_accepted r c s :
  accepts r c = true →
  handleCardClick r c s =
    let newCards := flipCard (id c) (cards r.1) in
    let ids := flippedIds r.1 ++ [id c] in
    if bool_decide (length ids = 2) then
      (mkEngine newCards ids true (timeouts s.1 ++ [pairOutcome ids newCards]),
       updateStats incMoves s.2)
    else (mkEngine newCards ids (isProcessing s.1) (timeouts s.1), s.2).
Proof.
  unfold accepts, handleCardClick. intros Hacc.
  destruct (isProcessing r.1), (isMatched c), (isFlipped c);
    repeat case_bool_decide; simplify_eq/=; try done.
  all: rewrite ?checkForMatch_eq; done.
Qed.

Lemma matchCallback_eq id1 id2 s :
  matchCallback id1 id2 s =
    let newCards := matchCards id1 id2 (cards s.1) in
    (mkEngine newCards [] false (timeouts s.1),
     if forallb isMatched newCards then setGameState GAME_OVER s.2 else s.2).
Proof. unfold matchCallback, matchCards. unfold_upd. simpl. by case_match. Qed.

Lemma mismatchCallback_eq id1 id2 s :
  mismatchCallback id1 id2 s =
    (mkEngine (unflipCards id1 id2 (cards s.1)) [] false (timeouts s.1), s.2).
Proof. done. Qed.

End engine_spec.

(** ** Updates that keep the faces *)

(** The handlers change the flags of cards and nothing else. *)
Section keeps_face.
Context (f : Card → Card).
Context (f_id : ∀ c, id (f c) = id c) (f_emoji : ∀ c, emoji (f c) = emoji c).
Implicit Types (cs : list Card).

Lemma fmap_keeps_id cs : id <$> (f <$> cs) = id <$> cs.
Proof. rewrite <-list_fmap_compose. apply list_fmap_ext; intros; simpl; auto. Qed.

Lemma fmap_keeps_emoji cs : emoji <$> (f <$> cs) = emoji <$> cs.
Proof. rewrite <-list_fmap_compose. apply list_fmap_ext; intros; simpl; auto. Qed.

Lemma emojiCount_keeps e cs : emojiCount e (f <$> cs) = emojiCount e cs.
Proof. unfold emojiCount. by rewrite fmap_keeps_emoji. Qed.

Lemma paired_keeps cs : paired (f <$> cs) ↔ paired cs.
Proof.
  unfold paired. rewrite Forall_fmap. apply Forall_iff. intros c. simpl.
  by rewrite f_emoji, emojiCount_keeps.
Qed.

Lemma find_hasId_keeps i cs : find (hasId i) (f <$> cs) = f <$> find (hasId i) cs.
Proof.
  induction cs as [|c cs IH]; simpl; [done|].
  unfold hasId at 1 3. rewrite f_id. by case_bool_decide.
Qed.

Lemma pairOutcome_keeps ids cs : pairOutcome ids (f <$> cs) = pairOutcome ids cs.
Proof.
  unfold pairOutcome. rewrite !find_hasId_keeps.
  destruct (find _ cs), (find _ cs); simpl; rewrite ?f_emoji; done.
Qed.

End keeps_face.

(** Discharges the two side conditions of the lemmas above for an update
    written as a conditional on the card. *)
Ltac keeps_face := intros; repeat case_match; done.

(** A card of a board with distinct ids is the card found under its id. *)
Lemma find_hasId_elem_of (cs : list Card) c :
  NoDup (id <$> cs) → c ∈ cs → find (hasId (Some (id c))) cs = Some c.
Proof.
  intros Hnd Hc. destruct (find _ cs) as [c'|] eqn:Hfind.
  - apply find_some in Hfind as [Hc' Hid%bool_decide_eq_true].
    f_equal. apply list_elem_of_In in Hc'.
    apply list_elem_of_lookup in Hc as [i Hi], Hc' as [j Hj].
    assert (i = j) as ->; [|congruence].
    eapply NoDup_lookup; [done|..]; rewrite list_lookup_fmap; [by rewrite Hi|].
    rewrite Hj. simpl. congruence.
  - eapply find_none in Hfind; [|by apply list_elem_of_In].
    unfold hasId in Hfind. by rewrite bool_decide_eq_true_2 in Hfind.
Qed.

(** ** The invariant of the engine *)

(** The cards are a board: distinct ids, emojis in pairs, and a matched card
    stays face up. *)
Definition board_ok (cs : list Card) : Prop :=
  NoDup (id <$> cs) ∧ paired cs ∧ Forall (λ c, isMatched c → isFlipped c) cs.

(** [flippedIds] names, without repetition, exactly the cards that are face
    up and not matched. *)
Definition selection_ok (e : Engine) : Prop :=
  NoDup (flippedIds e) ∧
  flippedIds e ⊆ id <$> cards e ∧
  Forall (λ c, id c ∈ flippedIds e ↔ isFlipped c ∧ ¬ isMatched c) (cards e).

(** The lock is held exactly while two cards are selected, and then exactly
    one callback is pending: the one that resolves them. *)
Definition lock_ok (e : Engine) : Prop :=
  length (flippedIds e) ≤ 2 ∧
  isProcessing e = bool_decide (length (flippedIds e) = 2) ∧
  timeouts e =
    if isProcessing e then [pairOutcome (flippedIds e) (cards e)] else [].

Definition engine_inv (e : Engine) : Prop :=
  board_ok (cards e) ∧ selection_ok e ∧ lock_ok e.

#[export] Instance engine_inv_dec e : Decision (engine_inv e).
Proof. unfold engine_inv, board_ok, selection_ok, lock_ok. apply _. Defined.

Lemma initialEngine_inv : engine_inv initialEngine.
Proof. apply (bool_decide_unpack _). vm_compute. exact I. Qed.

(** A board keeps being one when flags change so that matched cards stay
    face up. *)
Lemma board_ok_keeps (f : Card → Card) cs :
  (∀ c, id (f c) = id c) → (∀ c, emoji (f c) = emoji c) →
  (∀ c, c ∈ cs → (isMatched c → isFlipped c) → isMatched (f c) → isFlipped (f c)) →
  board_ok cs → board_ok (f <$> cs).
Proof.
  intros Hid Hemoji Hf (Hids & Hpair & Hflip). split_and!.
  - by rewrite fmap_keeps_id.
  - by apply paired_keeps.
  - rewrite Forall_fmap. rewrite Forall_forall in Hflip |- *.
    intros c Hc. simpl. eauto.
Qed.

(** In a board, a card is determined by its id. *)
Lemma board_ok_id_inj cs c c' :
  board_ok cs → c ∈ cs → c' ∈ cs → id c = id c' → c = c'.
Proof.
  intros (Hids & _) [i Hi]%list_elem_of_lookup [j Hj]%list_elem_of_lookup Hcc'.
  assert (i = j) as ->; [|congruence].
  eapply NoDup_lookup; [done| |]; rewrite list_lookup_fmap.
  - by rewrite Hi.
  - rewrite Hj. simpl. by rewrite Hcc'.
Qed.

(** *** A click *)

Lemma flipCard_board_ok i cs : board_ok cs → board_ok (flipCard i cs).
Proof. apply board_ok_keeps; intros; repeat case_match; naive_solver. Qed.

(** The engine after an accepted click on [c], from the engine before. *)
Definition clicked (c : Card) (e : Engine) : Engine :=
  let newCards := flipCard (id c) (cards e) in
  let ids := flippedIds e ++ [id c] in
  if bool_decide (length ids = 2)
  then mkEngine newCards ids true (timeouts e ++ [pairOutcome ids newCards])
  else mkEngine newCards ids (isProcessing e) (timeouts e).

Lemma clicked_cards c e : cards (clicked c e) = flipCard (id c) (cards e).
Proof. unfold clicked. by case_bool_decide. Qed.

Lemma clicked_flippedIds c e : flippedIds (clicked c e) = flippedIds e ++ [id c].
Proof. unfold clicked. by case_bool_decide. Qed.

Section click.
Context (e : Engine) (c : Card).
Context (Hinv : engine_inv e) (Hc : c ∈ cards e).
Context (Hproc : isProcessing e = false).
Context (Hmatched : isMatched c = false) (Hflipped : isFlipped c = false).

Lemma click_fresh : id c ∉ flippedIds e.
Proof using Hinv Hc Hflipped.
  destruct Hinv as (_ & (_ & _ & Hsel) & _).
  rewrite Forall_forall in Hsel. rewrite (Hsel c Hc), Hflipped. naive_solver.
Qed.

Lemma clicked_selection_ok : selection_ok (clicked c e).
Proof using All.
  pose proof click_fresh as Hfresh.
  destruct Hinv as (Hboard & (Hnd & Hsub & Hsel) & _).
  unfold selection_ok. rewrite clicked_cards, clicked_flippedIds. split_and!.
  - apply NoDup_app. split_and!; [done|set_solver|apply NoDup_singleton].
  - unfold flipCard. rewrite fmap_keeps_id by keeps_face.
    assert (id c ∈ id <$> cards e) by (by apply list_elem_of_fmap_2).
    set_solver.
  - unfold flipCard. rewrite Forall_fmap. apply Forall_forall. intros c' Hc'.
    rewrite Forall_forall in Hsel. specialize (Hsel c' Hc'). simpl.
    rewrite elem_of_app, list_elem_of_singleton. case_bool_decide as Hid.
    + assert (c' = c) as -> by eauto using board_ok_id_inj.
      simpl. rewrite Hmatched. naive_solver.
    + naive_solver.
Qed.

Lemma clicked_lock_ok : lock_ok (clicked c e).
Proof using Hinv Hproc.
  destruct Hinv as (_ & _ & (Hlen & Hlock & Htime)).
  rewrite Hproc in Hlock, Htime. symmetry in Hlock.
  apply bool_decide_eq_false in Hlock.
  unfold lock_ok, clicked. rewrite length_app. simpl.
  case_bool_decide as Htwo; simpl; rewrite ?length_app, ?Htime, ?Hproc; simpl.
  - split_and!; [lia|by rewrite bool_decide_eq_true_2|].
    unfold flipCard. by rewrite pairOutcome_keeps by keeps_face.
  - split_and!; [lia|by rewrite bool_decide_eq_false_2|done].
Qed.

Lemma clicked_inv : engine_inv (clicked c e).
Proof using All.
  split_and!; [|apply clicked_selection_ok|apply clicked_lock_ok].
  rewrite clicked_cards. apply flipCard_board_ok, Hinv.
Qed.

End click.

(** *** A pending callback runs *)

(** What is pending under the invariant: the lock is held, two cards are
    selected, and the one callback is the outcome of comparing them. *)
Lemma pending_inv e i t :
  engine_inv e → timeouts e !! i = Some t →
  ∃ a b, i = 0 ∧ isProcessing e = true ∧ flippedIds e = [a; b] ∧
         timeouts e = [t] ∧ t = pairOutcome [a; b] (cards e).
Proof.
  intros (_ & _ & (Hlen & Hlock & Htime)) Ht. rewrite Htime in Ht.
  destruct (isProcessing e); [|by rewrite lookup_nil in Ht].
  symmetry in Hlock. apply bool_decide_eq_true in Hlock.
  destruct (flippedIds e) as [|a [|b [|]]] eqn:Hids; simplify_eq/=.
  destruct i; simplify_eq/=. by exists a, b.
Qed.

Lemma pairOutcome_cases a b cs :
  pairOutcome [a; b] cs = MatchTimeout (Some a) (Some b)
  ∨ pairOutcome [a; b] cs = MismatchTimeout (Some a) (Some b).
Proof. unfold pairOutcome. simpl. repeat case_match; auto. Qed.

(** The two callbacks update exactly the selected cards, and leave none of
    them face up and unmatched. *)
Lemma resolve_inv (g : Card → Card) e a b :
  (∀ c, id (g c) = id c) → (∀ c, emoji (g c) = emoji c) →
  (∀ c, ¬ isMatched c → isMatched (g c) → isFlipped (g c)) →
  (∀ c, ¬ (isFlipped (g c) ∧ ¬ isMatched (g c))) →
  engine_inv e → flippedIds e = [a; b] →
  engine_inv
    (mkEngine ((λ c, if hasId (Some a) c || hasId (Some b) c then g c else c)
               <$> cards e) [] false []).
Proof.
  intros Hid Hemoji Hkeep Hdone (Hboard & (_ & _ & Hsel) & _) Hids.
  rewrite Hids in Hsel. rewrite Forall_forall in Hsel.
  assert (∀ c, c ∈ cards e →
    hasId (Some a) c || hasId (Some b) c ↔ isFlipped c ∧ ¬ isMatched c) as Hsel'.
  { intros c Hc. rewrite <-(Hsel c Hc), orb_True. unfold hasId.
    rewrite !bool_decide_spec. set_solver. }
  unfold engine_inv, selection_ok, lock_ok.
  cbn [cards flippedIds isProcessing timeouts]. split_and!; try done.
  - apply board_ok_keeps; [keeps_face..| |done].
    intros c Hc Hmf. specialize (Hsel' c Hc). case_match; naive_solver.
  - apply NoDup_nil_2.
  - set_solver.
  - rewrite Forall_fmap. apply Forall_forall. intros c Hc. simpl.
    specialize (Hsel' c Hc). specialize (Hdone c). case_match; set_solver.
  - simpl. lia.
Qed.

Lemma matchCards_inv e a b :
  engine_inv e → flippedIds e = [a; b] →
  engine_inv (mkEngine (matchCards (Some a) (Some b) (cards e)) [] false []).
Proof. apply (resolve_inv (λ c, set_isFlipped true (set_isMatched true c))); naive_solver. Qed.

Lemma unflipCards_inv e a b :
  engine_inv e → flippedIds e = [a; b] →
  engine_inv (mkEngine (unflipCards (Some a) (Some b) (cards e)) [] false []).
Proof. apply (resolve_inv (set_isFlipped false)); naive_solver. Qed.

(** *** A deal *)

Lemma newCards_board_ok d : board_ok (newCards d).
Proof.
  split_and!; [apply newCards_ids_NoDup|apply Forall_forall, emojiCount_dealt|].
  eapply Forall_impl; [apply newCards_face_down|]. by intros c [_ ->].
Qed.

Lemma dealt_inv d : engine_inv (mkEngine (newCards d) [] false []).
Proof.
  unfold engine_inv, selection_ok, lock_ok.
  cbn [cards flippedIds isProcessing timeouts].
  split_and!; try done;
    [apply newCards_board_ok|apply NoDup_nil_2|set_solver| |simpl; lia].
  eapply Forall_impl; [apply newCards_face_down|].
  intros c [-> ->]. set_solver.
Qed.

(** ** The handlers keep the invariant *)

Section engine_inv.
Context {P : Type} `{!GameEngineProps P}.
Implicit Types (s : Engine * P) (c : Card).

Lemma handleCardClick_engine s c :
  accepts s c = true → (handleCardClick s c s).1 = clicked c s.1.
Proof.
  intros Hacc. rewrite handleCardClick_accepted by done.
  unfold clicked. simpl. by case_bool_decide.
Qed.

Lemma handleCardClick_inv s c :
  engine_inv s.1 → c ∈ cards s.1 → engine_inv (handleCardClick s c s).1.
Proof.
  intros Hinv Hc. destruct (accepts s c) eqn:Hacc.
  - rewrite handleCardClick_engine by done. unfold accepts in Hacc.
    apply andb_prop in Hacc as [[[_ ?%negb_true_iff]%andb_prop
      ?%negb_true_iff]%andb_prop ?%negb_true_iff].
    by apply clicked_inv.
  - by rewrite handleCardClick_rejected.
Qed.

Lemma fireTimeout_inv s i : engine_inv s.1 → engine_inv (fireTimeout i s).1.
Proof.
  intros Hinv. unfold fireTimeout.
  destruct (timeouts s.1 !! i) as [t|] eqn:Ht; [|done].
  destruct (pending_inv _ _ _ Hinv Ht) as (a & b & -> & _ & Hids & Htime & ->).
  destruct (pairOutcome_cases a b (cards s.1)) as [-> | ->]; cbn [runTimeout].
  - rewrite matchCallback_eq. cbn -[matchCards]. rewrite Htime.
    by apply matchCards_inv.
  - rewrite mismatchCallback_eq. cbn -[unflipCards]. rewrite Htime.
    by apply unflipCards_inv.
Qed.

End engine_inv.

(** ** What the handlers leave alone *)

Lemma flipCard_length i cs : length (flipCard i cs) = length cs.
Proof. apply length_fmap. Qed.

Lemma matchCards_length a b cs : length (matchCards a b cs) = length cs.
Proof. apply length_fmap. Qed.

Lemma unflipCards_length a b cs : length (unflipCards a b cs) = length cs.
Proof. apply length_fmap. Qed.

Lemma flipCard_isMatched i cs : isMatched <$> flipCard i cs = isMatched <$> cs.
Proof.
  unfold flipCard. rewrite <-list_fmap_compose.
  apply list_fmap_ext; intros; simpl; by case_match.
Qed.

Lemma unflipCards_isMatched a b cs :
  isMatched <$> unflipCards a b cs = isMatched <$> cs.
Proof.
  unfold unflipCards. rewrite <-list_fmap_compose.
  apply list_fmap_ext; intros; simpl; by case_match.
Qed.

(** Whether every card is matched is a property of the matched flags. *)
Lemma all_matched_flags cs cs' :
  isMatched <$> cs = isMatched <$> cs' →
  Forall (λ c, isMatched c) cs ↔ Forall (λ c, isMatched c) cs'.
Proof.
  intros Hflags.
  trans (Forall Is_true (isMatched <$> cs)); [by rewrite Forall_fmap|].
  rewrite Hflags. by rewrite Forall_fmap.
Qed.

Lemma clicked_length c e : length (cards (clicked c e)) = length (cards e).
Proof. by rewrite clicked_cards, flipCard_length. Qed.

Lemma clicked_all_matched c e :
  Forall (λ c, isMatched c) (cards (clicked c e))
  ↔ Forall (λ c, isMatched c) (cards e).
Proof. rewrite clicked_cards. apply all_matched_flags, flipCard_isMatched. Qed.

(** The engine after its pending callback ran. *)
Definition resolve (e : Engine) : Engine :=
  mkEngine
    match pairOutcome (flippedIds e) (cards e) with
    | MatchTimeout id1 id2 => matchCards id1 id2 (cards e)
    | MismatchTimeout id1 id2 => unflipCards id1 id2 (cards e)
    end [] false [].

(** A selected card is not matched yet. *)
Lemma selected_not_all_matched e a :
  engine_inv e → a ∈ flippedIds e → ¬ Forall (λ c, isMatched c) (cards e).
Proof.
  intros (_ & (_ & Hsub & Hsel) & _) Ha Hall. pose proof (Hsub _ Ha) as Hin.
  apply list_elem_of_fmap in Hin as (c & -> & Hc).
  rewrite Forall_forall in Hsel, Hall. specialize (Hall c Hc).
  apply (Hsel c Hc) in Ha. naive_solver.
Qed.

Lemma resolve_length e : length (cards (resolve e)) = length (cards e).
Proof.
  unfold resolve. cbn [cards].
  case_match; [apply matchCards_length|apply unflipCards_length].
Qed.

Lemma resolve_engine_inv e :
  engine_inv e → length (flippedIds e) = 2 → engine_inv (resolve e).
Proof.
  intros Hinv Hlen. unfold resolve.
  destruct (flippedIds e) as [|a [|b [|]]] eqn:Hids; simplify_eq/=.
  destruct (pairOutcome_cases a b (cards e)) as [-> | ->];
    [by apply matchCards_inv|by apply unflipCards_inv].
Qed.

Section engine_props.
Context {P : Type} `{!GameEngineProps P}.
Implicit Types (s r : Engine * P) (c : Card).

(** The props after a click: one more move when it completes a pair. *)
Lemma handleCardClick_props r c s :
  (handleCardClick r c s).2 =
    if accepts r c && bool_decide (length (flippedIds r.1 ++ [id c]) = 2)
    then updateStats incMoves s.2 else s.2.
Proof.
  destruct (accepts r c) eqn:Hacc.
  - rewrite handleCardClick_accepted by done. simpl. by case_bool_decide.
  - by rewrite handleCardClick_rejected.
Qed.

Lemma handleCardClick_gameState r c s :
  gameState (handleCardClick r c s).2 = gameState s.2.
Proof.
  rewrite handleCardClick_props. case_match; [|done].
  apply gameState_updateStats.
Qed.

Lemma handleCardClick_length s c :
  length (cards (handleCardClick s c s).1) = length (cards s.1).
Proof.
  destruct (accepts s c) eqn:Hacc.
  - by rewrite handleCardClick_engine, clicked_length.
  - by rewrite handleCardClick_rejected.
Qed.

Lemma handleCardClick_all_matched s c :
  Forall (λ c, isMatched c) (cards (handleCardClick s c s).1)
  ↔ Forall (λ c, isMatched c) (cards s.1).
Proof.
  destruct (accepts s c) eqn:Hacc.
  - by rewrite handleCardClick_engine, clicked_all_matched.
  - by rewrite handleCardClick_rejected.
Qed.

(** The state after the pending callback ran, under the invariant: the two
    selected cards are turned back, or they are matched and the game is over
    when no other card is left. *)
Lemma fireTimeout_pending s i :
  engine_inv s.1 → is_Some (timeouts s.1 !! i) →
  ∃ a b, flippedIds s.1 = [a; b] ∧
    (fireTimeout i s =
       (mkEngine (unflipCards (Some a) (Some b) (cards s.1)) [] false [], s.2)
     ∨ fireTimeout i s =
       (mkEngine (matchCards (Some a) (Some b) (cards s.1)) [] false [],
        if forallb isMatched (matchCards (Some a) (Some b) (cards s.1))
        then setGameState GAME_OVER s.2 else s.2)).
Proof.
  intros Hinv [t Ht]. unfold fireTimeout. rewrite Ht.
  destruct (pending_inv _ _ _ Hinv Ht) as (a & b & -> & _ & Hids & Htime & ->).
  exists a, b. split; [done|].
  destruct (pairOutcome_cases a b (cards s.1)) as [-> | ->]; cbn [runTimeout].
  - right. rewrite matchCallback_eq. cbn -[matchCards]. by rewrite Htime.
  - left. rewrite mismatchCallback_eq. cbn -[unflipCards]. by rewrite Htime.
Qed.

(** The same, as a function of the state. *)
Lemma fireTimeout_resolve s i :
  engine_inv s.1 → is_Some (timeouts s.1 !! i) →
  fireTimeout i s =
    (resolve s.1,
     if forallb isMatched (cards (resolve s.1))
     then setGameState GAME_OVER s.2 else s.2).
Proof.
  intros Hinv [t Ht]. unfold fireTimeout, resolve. rewrite Ht.
  destruct (pending_inv _ _ _ Hinv Ht) as (a & b & -> & _ & Hids & Htime & ->).
  rewrite Hids.
  destruct (pairOutcome_cases a b (cards s.1)) as [-> | ->]; cbn [runTimeout].
  - rewrite matchCallback_eq. cbn -[matchCards]. by rewrite Htime.
  - rewrite mismatchCallback_eq. cbn -[unflipCards]. rewrite Htime.
    destruct (forallb _ _) eqn:Hall; [|done].
    destruct (selected_not_all_matched s.1 a Hinv); [rewrite Hids; set_solver|].
    rewrite (all_matched_flags _ _ (eq_sym (unflipCards_isMatched (Some a) (Some b) _))).
    apply forallb_True. by rewrite Hall.
Qed.

End engine_props.

(** ** The contract of the engine *)

(** The props as a pair of values: the least implementation of the
    interface, for trying the engine on its own. *)
#[export, refine] Instance pair_props : GameEngineProps (GameState * GameStats) := {
  gameState p := p.1;
  setGameState g p := (g, p.2);
  stats p := p.2;
  updateStats f p := (p.1, f p.2);
}.
Proof. all: done. Defined.

Section engine_contract.
Context {P : Type} `{!GameEngineProps P}.
Implicit Types (s r : Engine * P) (c : Card).



(** C11: the handlers of the engine keep its invariant: a click on a card of
    the board, a callback becoming due, and a new deal when no callback is
    pending (a deal does not cancel one). *)
Theorem engine_inv_preserved s :
  engine_inv s.1 →
  (∀ c, c ∈ cards s.1 → engine_inv (handleCardClick s c s).1)
  ∧ (∀ i, engine_inv (fireTimeout i s).1)
  ∧ (∀ d, timeouts s.1 = [] → engine_inv (initializeBoard d s).1).
Proof.
  intros Hinv. split_and!.
  - intros c Hc. by apply handleCardClick_inv.
  - intros i. by apply fireTimeout_inv.
  - intros d Htime. unfold initializeBoard. unfold_upd. simpl.
    rewrite Htime. apply dealt_inv.
Qed.

End engine_contract.

Lemma engine_inv_preserved_witness :
  let s := (mkEngine (newCards (mkDraws [] [])) [] false [],
            (PLAYING, mkStats (Num 0) (Num 9999) (Num 0))) in
  (∀ c, c ∈ cards s.1 → engine_inv (handleCardClick s c s).1)
  ∧ (∀ i, engine_inv (fireTimeout i s).1)
  ∧ (∀ d, timeouts s.1 = [] → engine_inv (initializeBoard d s).1).
Proof. apply engine_inv_preserved, dealt_inv. Defined.
