(* ===== verification/Grid.v ===== *)
(** * Grid: what [GameEngine] renders

    The return statement of [src/components/GameEngine.tsx]: nothing on the
    start screen, else the grid with one element per card.  The element of a
    card carries the card as its click handler ([handleCardClick(card)]),
    the card's id as its key, and the card's two flags as classes: a
    matched card fades out and stops receiving pointer events, a card that
    is face up is rotated.  Class names are the source's.

    The markup is read back: [readCard] recovers the card from its element,
    so the grid shows the state of the board and nothing else, and
    [Engine.renderGrid], the summary of the grid, is what is read off the
    markup ([renderGrid_read]). *)

From S2P Require Import Prelude Types Markup Shuffle Board Engine.

#[local] Open Scope string_scope.

(** ** The markup *)

(** The element of one card. *)
Definition cardElem (card : Card) : Node Card :=
  Elem "div"
    [Key (id card);
     OnClick card;
     ClassName
       ("relative w-full h-full cursor-pointer perspective-1000 group "
        +:+ (if isMatched card
             then "opacity-0 pointer-events-none transition-opacity duration-700 delay-500"
             else ""))]
    [Elem "div"
       [ClassName
          ("w-full h-full relative transform-style-3d transition-transform duration-500 shadow-sm rounded-xl "
           +:+ (if isFlipped card then "rotate-y-180" else ""))]
       [Elem "div"
          [ClassName "absolute inset-0 w-full h-full backface-hidden bg-gradient-to-br from-indigo-500 to-purple-600 rounded-xl shadow-lg border-2 border-white/20 flex items-center justify-center"]
          [Elem "span" [ClassName "text-2xl opacity-50"] [Text "âœ¨"]];
        Elem "div"
          [ClassName "absolute inset-0 w-full h-full backface-hidden rotate-y-180 bg-white rounded-xl shadow-lg border-4 border-indigo-200 flex items-center justify-center"]
          [Elem "span" [ClassName "text-4xl md:text-5xl select-none transform transition-transform animate-pop-in"] [Text (emoji card)]]]].

(** [`repeat(${GRID_SIZE}, minmax(0, 1fr))`] *)
Definition gridTemplate : string :=
  "repeat(" +:+ pretty GRID_SIZE +:+ ", minmax(0, 1fr))".

Section grid.
Context {P : Type} `{!GameEngineProps P}.

(** What the component returns. *)
Definition renderGameEngine (r : Engine * P) : option (Node Card) :=
  if bool_decide (gameState r.2 = START) && bool_decide (length (cards r.1) = 0)
  then None
  else
    Some
      (Elem "div" [ClassName "w-full h-full flex items-center justify-center p-4"]
         [Elem "div"
            [ClassName "grid gap-3 w-full max-w-lg aspect-square";
             Style "gridTemplateColumns" gridTemplate;
             Style "gridTemplateRows" gridTemplate]
            (cardElem <$> cards r.1)]).

End grid.

(** ** Reading the markup *)

(** The element's [className] has the class. *)
Definition hasClass {H : Type} (c : string) (attrs : list (Attr H)) : bool :=
  bool_decide (c ∈ classes attrs).

(** What an element shows of its card: its key, whether it is rotated (the
    front face towards the player) and faded out, the emoji on its front
    face. *)
Definition readView (n : Node Card) : option CardView :=
  match n with
  | Elem _ attrs [Elem _ inner [_; Elem _ _ [Elem _ _ [Text front]]]] =>
      key ← keyOf attrs;
      Some (mkCardView key (hasClass "rotate-y-180" inner)
              (hasClass "opacity-0" attrs) front)
  | _ => None
  end.

(** The card that is shown so. *)
Definition cardOf (v : CardView) : Card :=
  mkCard (key v) (front v) (rotated v) (faded v).

Definition readCard (n : Node Card) : option Card := cardOf <$> readView n.

(** The classes of the faces of a card, back and front. *)
Definition faceClasses (n : Node Card) : list (list string) :=
  match n with
  | Elem _ _ [Elem _ _ faces] =>
      (λ face, match face with
               | Elem _ attrs _ => classes attrs
               | Text _ => []
               end) <$> faces
  | _ => []
  end.

(** The elements of the cards in a rendered grid. *)
Definition cardElems (n : Node Card) : list (Node Card) :=
  match n with
  | Elem _ _ [Elem _ _ elems] => elems
  | _ => []
  end.

Lemma readView_cardElem c : readView (cardElem c) = Some (cardView c).
Proof. destruct c as [i e [] []]; by vm_compute. Qed.

Lemma cardOf_cardView c : cardOf (cardView c) = c.
Proof. by destruct c. Qed.

Lemma readCard_cardElem c : readCard (cardElem c) = Some c.
Proof. unfold readCard. rewrite readView_cardElem. simpl. by rewrite cardOf_cardView. Qed.

(** The faces have the colours of [constants.ts], which the markup repeats
    instead of reading the constants. *)
Lemma faceClasses_colours c :
  ∃ back front, faceClasses (cardElem c) = [back; front]
    ∧ String.words CARD_BACK_COLOR ⊆ back
    ∧ String.words CARD_FRONT_COLOR ⊆ front.
Proof.
  do 2 eexists. split; [reflexivity|].
  split; apply (bool_decide_unpack _); by vm_compute.
Qed.

(** A click reaches the handler of a card unless the card is matched. *)
Lemma offered_cardElem c :
  offered true (cardElem c) = if isMatched c then [] else [c].
Proof. destruct c as [i e [] []]; by vm_compute. Qed.

Lemma hit_cardElem c : hit true (cardElem c) = negb (isMatched c).
Proof. destruct c as [i e [] []]; by vm_compute. Qed.

Lemma texts_cardElem c : texts (cardElem c) = ["âœ¨"; emoji c].
Proof. done. Qed.

Lemma keys_cardElem cs : keys (cardElem <$> cs) = id <$> cs.
Proof. induction cs as [|c cs IH]; [done|]. cbn. by f_equal. Qed.

Lemma offered_cardElems cs :
  flat_map (offered true) (cardElem <$> cs)
  = filter (λ c, isMatched c = false) cs.
Proof.
  induction cs as [|c cs IH]; [done|].
  rewrite fmap_cons, filter_cons. cbn [flat_map]. rewrite offered_cardElem, IH.
  destruct (isMatched c); case_decide; done.
Qed.

Section grid_spec.
Context {P : Type} `{!GameEngineProps P}.
Implicit Types (r : Engine * P).

(** The grid is there exactly when [renderGrid] says so. *)
Lemma renderGameEngine_None r :
  renderGameEngine r = None ↔ renderGrid r = None.
Proof. unfold renderGameEngine, renderGrid. by case_match. Qed.

(** The cards can be read back from the grid, in their order. *)
Lemma renderGameEngine_cards r n :
  renderGameEngine r = Some n → mapM readCard (cardElems n) = Some (cards r.1).
Proof.
  unfold renderGameEngine. case_match; [done|]. intros [= <-]. cbn [cardElems].
  apply mapM_Some. apply Forall2_fmap_l, Forall_Forall2_diag, Forall_forall.
  intros c _. apply readCard_cardElem.
Qed.

(** [renderGrid] is what is read off the markup. *)
Lemma renderGrid_read r :
  renderGrid r = renderGameEngine r ≫= λ n, mapM readView (cardElems n).
Proof.
  unfold renderGameEngine, renderGrid. case_match; [done|]. symmetry.
  cbn [mbind option_bind cardElems]. apply mapM_Some.
  rewrite Forall2_fmap. apply Forall_Forall2_diag, Forall_forall.
  intros c _. apply readView_cardElem.
Qed.

(** The clicks the grid offers: the cards that are not matched. *)
Lemma renderGameEngine_offered r n :
  renderGameEngine r = Some n →
  offered true n = filter (λ c, isMatched c = false) (cards r.1).
Proof.
  unfold renderGameEngine. case_match; [done|]. intros [= <-].
  change (flat_map (offered true) (cardElem <$> cards r.1) ++ []
          = filter (λ c, isMatched c = false) (cards r.1))%list.
  by rewrite app_nil_r, offered_cardElems.
Qed.

(** The keys of the card elements are distinct, as React asks of the
    children of a list. *)
Lemma renderGameEngine_keys r n :
  engine_inv r.1 → renderGameEngine r = Some n → NoDup (keys (cardElems n)).
Proof.
  intros ((Hids & _) & _). unfold renderGameEngine. case_match; [done|].
  intros [= <-]. cbn [cardElems]. by rewrite keys_cardElem.
Qed.

(** C24: the grid shows the board: from the elements of the grid (the key,
    the emoji on the front face, the class that turns a card and the class
    that fades it out) the cards of the state are read back, each with its
    id, its emoji and its two flags. *)
Theorem grid_reads_back r n :
  renderGameEngine r = Some n → mapM readCard (cardElems n) = Some (cards r.1).
Proof. apply renderGameEngine_cards. Qed.

End grid_spec.

Lemma grid_reads_back_witness :
  let r := (mkEngine (newCards (mkDraws [] [])) [] false [],
            (PLAYING, mkStats (Num 0) (Num 9999) (Num 0))) in
  ∃ n, renderGameEngine r = Some n
       ∧ mapM readCard (cardElems n) = Some (cards r.1).
Proof.
  intros r. eexists. split; [reflexivity|].
  by apply (grid_reads_back r).
Defined.
