(* ===== verification/Storage.v ===== *)
(** * Storage: the persisted best score

    [src/App.tsx] keeps one value in [localStorage], under the key
    [memory_best_moves]: it reads it in the argument of [useState] (line
    11; React keeps the value of the first render), through
    [parseInt(... || '9999', 10)], and writes it when a
    game ends with fewer moves (line 33), through [toString()].  The store is
    a string or nothing; [parseInt] and [toString] are the language's
    functions, modelled here on the strings this program can meet: ASCII
    white space is trimmed, a sign is read, the longest prefix of decimal
    digits is the value, and no digit gives [NaN].  White space outside
    ASCII is not trimmed by the model. *)

From S2P Require Import Prelude Types.
From Stdlib Require Import Ascii.

#[local] Open Scope string_scope.

(** ** [toString] *)

Definition toString (x : number) : string :=
  match x with
  | NaN => "NaN"
  | Num z => pretty z
  end.

(** ** [parseInt(s, 10)] *)

Definition isWhiteSpace (a : ascii) : bool :=
  bool_decide (a ∈ [" "; "009"; "010"; "011"; "012"; "013"]%char).

Fixpoint trimStart (s : string) : string :=
  match s with
  | String a s' => if isWhiteSpace a then trimStart s' else s
  | EmptyString => EmptyString
  end.

Definition digitValue (a : ascii) : option N :=
  let n := N_of_ascii a in
  if bool_decide (48 ≤ n ≤ 57)%N then Some (n - 48)%N else None.

(** The value of the longest prefix of digits, [None] when it is empty. *)
Fixpoint parseDigits (acc : option N) (s : string) : option N :=
  match s with
  | String a s' =>
      match digitValue a with
      | Some d => parseDigits (Some (10 * default 0 acc + d)%N) s'
      | None => acc
      end
  | EmptyString => acc
  end.

Definition parseInt (s : string) : number :=
  let trimmed := trimStart s in
  let '(sign, rest) :=
    match trimmed with
    | String "-" rest => ((-1)%Z, rest)
    | String "+" rest => (1%Z, rest)
    | _ => (1%Z, trimmed)
    end in
  match parseDigits None rest with
  | Some n => Num (sign * Z.of_N n)
  | None => NaN
  end.

(** ** The store *)

(** [localStorage.getItem('memory_best_moves')]: [None] is [null]. *)
Definition LocalStorage : Type := option string.

(** [localStorage.getItem('memory_best_moves') || '9999']: [null] and the
    empty string are both falsy. *)
Definition storedOrDefault (store : LocalStorage) : string :=
  match store with
  | Some (String a s) => String a s
  | _ => "9999"
  end.

(** The initial [bestMoves]. *)
Definition loadBestMoves (store : LocalStorage) : number :=
  parseInt (storedOrDefault store).

(** [localStorage.setItem('memory_best_moves', v)] *)
Definition setItem (v : string) : Upd LocalStorage := λ _, Some v.

(** ** Round trip *)

Lemma digit_cases (d : N) : (d < 10)%N → d ∈ [0; 1; 2; 3; 4; 5; 6; 7; 8; 9]%N.
Proof.
  intros Hd. destruct d as [|p]; [set_solver|].
  do 4 (try destruct p as [p|p|]); try lia; set_solver.
Qed.

Lemma digitValue_pretty_N_char d :
  (d < 10)%N → digitValue (pretty_N_char d) = Some d.
Proof. intros Hd%digit_cases. set_unfold. by destruct_or!; subst. Qed.

Lemma parseDigits_pretty_N_go x s :
  (0 < x)%N → parseDigits None (pretty_N_go x s) = parseDigits (Some x) s.
Proof.
  revert s. induction (N.lt_wf_0 x) as [x _ IH]; intros s Hx.
  rewrite pretty_N_go_step by done.
  assert (x `mod` 10 < 10)%N as Hd by (by apply N.mod_lt).
  destruct (N.eq_0_gt_0_cases (x `div` 10)) as [Hq|Hq].
  - rewrite Hq, pretty_N_go_0. simpl. rewrite digitValue_pretty_N_char by done.
    simpl. f_equal. f_equal. pose proof (N.div_mod x 10 ltac:(done)). lia.
  - rewrite IH by (done || by apply N.div_lt). simpl.
    rewrite digitValue_pretty_N_char by done.
    simpl. f_equal. f_equal. pose proof (N.div_mod x 10 ltac:(done)). lia.
Qed.

Lemma pretty_N_go_head x s :
  (0 < x)%N → ∃ d s', (d < 10)%N ∧ pretty_N_go x s = String (pretty_N_char d) s'.
Proof.
  revert s. induction (N.lt_wf_0 x) as [x _ IH]; intros s Hx.
  rewrite pretty_N_go_step by done.
  destruct (N.eq_0_gt_0_cases (x `div` 10)) as [Hq|Hq].
  - rewrite Hq, pretty_N_go_0. eexists _, _. split; [|done]. by apply N.mod_lt.
  - apply IH; [by apply N.div_lt|done].
Qed.

(** A string that starts with a digit is read without trimming and without
    a sign. *)
Lemma parseInt_unsigned d s :
  (d < 10)%N →
  parseInt (String (pretty_N_char d) s) =
    match parseDigits None (String (pretty_N_char d) s) with
    | Some n => Num (Z.of_N n)
    | None => NaN
    end.
Proof.
  intros Hd%digit_cases. set_unfold.
  destruct_or!; subst; unfold parseInt; simpl; try done;
    case_match; f_equal; lia.
Qed.

Lemma parseInt_pretty_N (x : N) : parseInt (pretty x) = Num (Z.of_N x).
Proof.
  unfold pretty, pretty_N. case_decide as Hx; [by subst|].
  destruct (pretty_N_go_head x "") as (d & s' & Hd & Hs); [lia|].
  rewrite Hs, parseInt_unsigned, <-Hs by done.
  rewrite parseDigits_pretty_N_go by lia. done.
Qed.

Lemma parseInt_negative s :
  parseInt (String "-" s) =
    match parseDigits None s with
    | Some n => Num (- Z.of_N n)
    | None => NaN
    end.
Proof. unfold parseInt. simpl. case_match; f_equal; lia. Qed.

Lemma parseInt_pretty_Z (z : Z) : parseInt (pretty z) = Num z.
Proof.
  destruct z as [|p|p]; [done|apply (parseInt_pretty_N (N.pos p))|].
  unfold pretty, pretty_Z, pretty, pretty_positive, pretty, pretty_N.
  rewrite decide_False by done.
  change ("-" +:+ ?s) with (String "-" s). rewrite parseInt_negative.
  by rewrite parseDigits_pretty_N_go.
Qed.

(** C30: writing a number and reading it back gives the number. *)
Theorem parseInt_toString z : parseInt (toString (Num z)) = Num z.
Proof. apply parseInt_pretty_Z. Qed.

Lemma toString_ne_empty x : toString x ≠ "".
Proof.
  destruct x as [|[|p|p]]; try done. simpl.
  unfold pretty, pretty_Z, pretty, pretty_positive, pretty, pretty_N.
  rewrite decide_False by done.
  by destruct (pretty_N_go_head (N.pos p) "") as (d & s' & _ & ->).
Qed.

Lemma storedOrDefault_Some s : s ≠ "" → storedOrDefault (Some s) = s.
Proof. by destruct s. Qed.

(** What [loadBestMoves] finds after [setItem] stored a number. *)
Theorem loadBestMoves_setItem z store :
  loadBestMoves (setItem (toString (Num z)) store) = Num z.
Proof.
  unfold loadBestMoves, setItem.
  rewrite storedOrDefault_Some by apply toString_ne_empty.
  apply parseInt_pretty_Z.
Qed.

(** A stored [NaN] is read back as [NaN]. *)
Example loadBestMoves_NaN store :
  loadBestMoves (setItem (toString NaN) store) = NaN.
Proof. reflexivity. Qed.

(** ** Examples *)

Example parseInt_9999 : parseInt "9999" = Num 9999.
Proof. reflexivity. Qed.

Example parseInt_garbage : parseInt "best" = NaN.
Proof. reflexivity. Qed.

Example parseInt_prefix : parseInt "  -12px" = Num (-12).
Proof. reflexivity. Qed.

Example loadBestMoves_unset : loadBestMoves None = Num 9999.
Proof. reflexivity. Qed.

Example loadBestMoves_empty : loadBestMoves (Some "") = Num 9999.
Proof. reflexivity. Qed.
