(* ===== verification/GameUI.v ===== *)
(** * GameUI: the overlay of [src/components/GameUI.tsx]

    The component shows one of three screens, chosen by the phase, and
    carries the two buttons of the game.  It is written against its props,
    [GameUIProps], a class here; [App] provides the instance.
    [renderGameUI] is the markup the component returns, element by element
    with the class names of the source; [renderUI] is its summary, a
    [Screen]: the texts that depend on the state, and the buttons.  The
    markup displays the texts of the summary and offers its buttons
    ([texts_renderGameUI], [offered_renderGameUI]).  [formatTime] is the
    source's function on JavaScript numbers.  The source's last line,
    [return null], is not reached: the three phases are all there are. *)

From S2P Require Import Prelude Markup Types Storage.

#[local] Open Scope string_scope.

(** ** [formatTime] *)

(** [s.padStart(2, '0')] *)
Definition padStart2 (s : string) : string :=
  match String.length s with
  | 0 => "00"
  | 1 => "0" +:+ s
  | _ => s
  end.

(** [Math.floor(seconds / 60)] *)
Definition minutesOf (seconds : number) : number :=
  match seconds with
  | NaN => NaN
  | Num z => Num (z `div` 60)
  end.

(** [seconds % 60]: the remainder takes the sign of [seconds]. *)
Definition secondsOf (seconds : number) : number :=
  match seconds with
  | NaN => NaN
  | Num z => Num (z `rem` 60)
  end.

Definition formatTime (seconds : number) : string :=
  let mins := minutesOf seconds in
  let secs := secondsOf seconds in
  toString mins +:+ ":" +:+ padStart2 (toString secs).

(** ** Screens and buttons *)

Inductive Screen :=
  | Hud (moves time : string)
  | StartScreen (personalBest : option string)
  | GameOverScreen (moves time : string).

#[export] Instance Screen_eq_dec : EqDecision Screen.
Proof. solve_decision. Defined.

Inductive Button := StartGame | PlayAgain.

#[export] Instance Button_eq_dec : EqDecision Button.
Proof. solve_decision. Defined.

(** [GameUIProps]: what the parent hands to the overlay. *)
Class GameUIProps (P : Type) := {
  ui_gameState : P → GameState;
  ui_setGameState : GameState → Upd P;
  ui_stats : P → GameStats;
  ui_resetGame : Upd P;
}.

Section gameUI.
Context {P : Type} `{!GameUIProps P}.

(** What the component returns for the props [p]. *)
Definition renderUI (p : P) : Screen :=
  match ui_gameState p with
  | PLAYING =>
      Hud (toString (moves (ui_stats p))) (formatTime (timer (ui_stats p)))
  | START =>
      StartScreen
        (if num_lt (bestMoves (ui_stats p)) (Num 9999)
         then Some (toString (bestMoves (ui_stats p))) else None)
  | GAME_OVER =>
      GameOverScreen (toString (moves (ui_stats p)))
        (formatTime (timer (ui_stats p)))
  end.

(** The buttons a screen carries. *)
Definition buttonsOf (s : Screen) : list Button :=
  match s with
  | Hud _ _ => []
  | StartScreen _ => [StartGame]
  | GameOverScreen _ _ => [PlayAgain]
  end.

(** The [onClick] of each button. *)
Definition clickButton (b : Button) : Upd P :=
  match b with
  | StartGame => ui_setGameState PLAYING
  | PlayAgain => ui_resetGame
  end.

End gameUI.

(** ** The markup *)

Section overlay.
Context {P : Type} `{!GameUIProps P}.

(** A number in the text of an element: React shows it as [toString]
    does. *)
Definition shownNumber (x : number) : Node Button := Text (toString x).

(** The heads-up display, shown during a game. *)
Definition hudView (p : P) : Node Button :=
  Elem "div" [ClassName "absolute top-0 left-0 right-0 z-10 p-4 flex justify-between items-center max-w-2xl mx-auto w-full"]
    [Elem "div" [ClassName "bg-white/90 backdrop-blur-sm rounded-2xl px-6 py-3 shadow-lg border-b-4 border-indigo-200"]
       [Elem "p" [ClassName "text-slate-500 text-xs font-bold uppercase tracking-wider"] [Text "Moves"];
        Elem "p" [ClassName "text-2xl font-black text-indigo-600 font-mono leading-none"] [shownNumber (moves (ui_stats p))]];
     Elem "h1" [ClassName "hidden md:block text-2xl font-black text-white drop-shadow-md tracking-tight"] [Text "MEMORY MATCH"];
     Elem "div" [ClassName "bg-white/90 backdrop-blur-sm rounded-2xl px-6 py-3 shadow-lg border-b-4 border-pink-200 min-w-[100px] text-right"]
       [Elem "p" [ClassName "text-slate-500 text-xs font-bold uppercase tracking-wider"] [Text "Time"];
        Elem "p" [ClassName "text-2xl font-black text-pink-500 font-mono leading-none"] [Text (formatTime (timer (ui_stats p)))]]].

(** [{stats.bestMoves < 9999 && (...)}]: the personal best, when there is
    one. *)
Definition personalBestView (p : P) : list (Node Button) :=
  if num_lt (bestMoves (ui_stats p)) (Num 9999) then
    [Elem "div" [ClassName "mb-8 bg-amber-50 rounded-xl p-4 border border-amber-100 inline-block w-full"]
       [Elem "div" [ClassName "flex items-center justify-center gap-2 text-amber-600 mb-1"]
          [Elem "Trophy" [Size 16] [];
           Elem "span" [ClassName "text-xs font-bold uppercase"] [Text "Personal Best"]];
        Elem "p" [ClassName "text-2xl font-black text-slate-800"]
          [shownNumber (bestMoves (ui_stats p)); Text " Moves"]]]
  else [].

Definition startView (p : P) : Node Button :=
  Elem "div" [ClassName "absolute inset-0 z-20 flex items-center justify-center bg-gradient-to-br from-indigo-600/90 to-purple-800/90 backdrop-blur-sm p-4"]
    [Elem "div" [ClassName "bg-white rounded-3xl p-8 max-w-md w-full shadow-2xl text-center border-4 border-white/20 animate-fade-in-up"]
       ([Elem "div" [ClassName "mb-6 flex justify-center gap-2 text-6xl animate-bounce"]
           [Elem "span" [] [Text "ðŸŽ´"];
            Elem "span" [ClassName "animation-delay-200"] [Text "âœ¨"]];
         Elem "h1" [ClassName "text-4xl md:text-5xl font-black text-slate-800 mb-2"] [Text "Memory Match"];
         Elem "p" [ClassName "text-slate-500 mb-8 text-lg"] [Text "Flip cards, find pairs, beat your time!"]]
        ++ personalBestView p
        ++ [Elem "button" [OnClick StartGame; ClassName "w-full py-4 bg-gradient-to-r from-indigo-500 to-purple-600 text-white text-xl font-bold rounded-xl shadow-lg hover:shadow-indigo-500/30 hover:scale-[1.02] active:scale-[0.98] transition-all flex items-center justify-center gap-2 group"]
              [Elem "Play" [Size 24; ClassName "fill-current"] [];
               Text "Start Game"]])].

Definition gameOverView (p : P) : Node Button :=
  Elem "div" [ClassName "absolute inset-0 z-20 flex items-center justify-center bg-black/50 backdrop-blur-md p-4"]
    [Elem "div" [ClassName "bg-white rounded-3xl p-8 max-w-md w-full shadow-2xl text-center animate-bounce-in relative overflow-hidden"]
       [Elem "div" [ClassName "absolute inset-0 opacity-10 bg-[radial-gradient(circle_at_center,_var(--tw-gradient-stops))] from-yellow-400 via-red-500 to-pink-500"] [];
        Elem "div" [ClassName "relative z-10"]
          [Elem "div" [ClassName "mb-4 text-6xl"] [Text "ðŸŽ‰"];
           Elem "h2" [ClassName "text-4xl font-black text-slate-800 mb-2"] [Text "You Won!"];
           Elem "p" [ClassName "text-slate-500 mb-8"] [Text "Excellent memory skills!"];
           Elem "div" [ClassName "grid grid-cols-2 gap-4 mb-8"]
             [Elem "div" [ClassName "bg-indigo-50 rounded-xl p-4 border border-indigo-100"]
                [Elem "div" [ClassName "flex flex-col items-center"]
                   [Elem "span" [ClassName "text-slate-400 text-xs font-bold uppercase mb-1"] [Text "Moves"];
                    Elem "span" [ClassName "text-3xl font-black text-indigo-600"]
                      [shownNumber (moves (ui_stats p))]]];
              Elem "div" [ClassName "bg-pink-50 rounded-xl p-4 border border-pink-100"]
                [Elem "div" [ClassName "flex flex-col items-center"]
                   [Elem "span" [ClassName "text-slate-400 text-xs font-bold uppercase mb-1"] [Text "Time"];
                    Elem "span" [ClassName "text-3xl font-black text-pink-500"]
                      [Text (formatTime (timer (ui_stats p)))]]]];
           Elem "button" [OnClick PlayAgain; ClassName "w-full py-4 bg-slate-800 text-white text-xl font-bold rounded-xl shadow-lg hover:bg-slate-700 hover:-translate-y-1 active:translate-y-0 transition-all flex items-center justify-center gap-2"]
             [Elem "RotateCcw" [Size 24] []; Text "Play Again"]]]].

(** What the component returns. *)
Definition renderGameUI (p : P) : Node Button :=
  match ui_gameState p with
  | PLAYING => hudView p
  | START => startView p
  | GAME_OVER => gameOverView p
  end.

End overlay.

(** ** Examples *)

Example formatTime_75 : formatTime (Num 75) = "1:15".
Proof. reflexivity. Qed.

Example formatTime_5 : formatTime (Num 5) = "0:05".
Proof. reflexivity. Qed.

Example formatTime_3600 : formatTime (Num 3600) = "60:00".
Proof. reflexivity. Qed.

Example formatTime_NaN : formatTime NaN = "NaN:NaN".
Proof. reflexivity. Qed.

Example formatTime_negative : formatTime (Num (-5)) = "-1:-5".
Proof. reflexivity. Qed.

(** ** The shape of a formatted time *)

(** A number below 100 in two digits. *)
Definition twoDigits (n : nat) : string :=
  pretty (n `div` 10) +:+ pretty (n `mod` 10).

Lemma padStart2_pretty (n : nat) :
  n < 60 → padStart2 (pretty (Z.of_nat n)) = twoDigits n.
Proof. do 60 (destruct n as [|n]; [reflexivity|]). lia. Qed.

Lemma pretty_Z_of_nat (n : nat) : pretty (Z.of_nat n) = pretty n.
Proof. by destruct n. Qed.

(** C40: a count of seconds is shown as its minutes, a colon and its seconds
    in two digits. *)
Theorem formatTime_count (n : nat) :
  formatTime (Num (Z.of_nat n))
  = pretty (n `div` 60) +:+ ":" +:+ twoDigits (n `mod` 60).
Proof.
  unfold formatTime, minutesOf, secondsOf, toString.
  rewrite Z.rem_mod_nonneg by lia. change 60%Z with (Z.of_nat 60).
  rewrite <-(Nat2Z.inj_div n 60), <-(Nat2Z.inj_mod n 60).
  rewrite padStart2_pretty by (apply Nat.mod_upper_bound; lia).
  by rewrite pretty_Z_of_nat.
Qed.

(** ** What the screens offer *)

Section screens.
Context {P : Type} `{!GameUIProps P}.

(** The HUD has no button: during a game nothing can be pressed. *)
Lemma renderUI_playing (p : P) :
  ui_gameState p = PLAYING → buttonsOf (renderUI p) = [].
Proof. unfold renderUI. by intros ->. Qed.

(** The screen offers a button exactly in the phase it leaves. *)
Lemma buttonsOf_renderUI (p : P) b :
  b ∈ buttonsOf (renderUI p) ↔
    (b = StartGame ∧ ui_gameState p = START)
    ∨ (b = PlayAgain ∧ ui_gameState p = GAME_OVER).
Proof. unfold renderUI. destruct (ui_gameState p); simpl; set_solver. Qed.

End screens.


(** ** The markup and its summary *)

(** The texts of a screen, in the order the markup displays them. *)
Definition screenTexts (s : Screen) : list string :=
  match s with
  | Hud moves time => ["Moves"; moves; "MEMORY MATCH"; "Time"; time]
  | StartScreen personalBest =>
      ["ðŸŽ´"; "âœ¨"; "Memory Match"; "Flip cards, find pairs, beat your time!"]
      ++ match personalBest with
         | Some best => ["Personal Best"; best; " Moves"]
         | None => []
         end
      ++ ["Start Game"]
  | GameOverScreen moves time =>
      ["ðŸŽ‰"; "You Won!"; "Excellent memory skills!"; "Moves"; moves; "Time"; time;
       "Play Again"]
  end%list.

Section overlay_spec.
Context {P : Type} `{!GameUIProps P}.

(** The markup displays the texts of the screen. *)
Lemma texts_renderGameUI (p : P) :
  texts (renderGameUI p) = screenTexts (renderUI p).
Proof.
  unfold renderGameUI, renderUI, startView, personalBestView.
  destruct (ui_gameState p); [|done..]. by destruct (num_lt _ _).
Qed.

(** The markup offers the buttons of the screen: every button receives
    pointer events, and nothing else of the overlay has a handler. *)
Lemma offered_renderGameUI (p : P) :
  offered true (renderGameUI p) = buttonsOf (renderUI p).
Proof.
  unfold renderGameUI, renderUI, startView, personalBestView.
  destruct (ui_gameState p); [|done..]. by destruct (num_lt _ _).
Qed.

(** The personal best is on the start screen exactly when it is below the
    sentinel. *)
Lemma personal_best_shown (p : P) :
  ui_gameState p = START →
  ("Personal Best" ∈ texts (renderGameUI p)
   ↔ num_lt (bestMoves (ui_stats p)) (Num 9999) = true).
Proof.
  intros Hstart. rewrite texts_renderGameUI. unfold renderUI.
  rewrite Hstart. destruct (num_lt _ _); simpl; [set_solver|].
  split; [|done]. intros Hin%(bool_decide_pack _). by vm_compute in Hin.
Qed.

End overlay_spec.
