(* ===== verification/App.v ===== *)
(** * App: the session of [src/App.tsx]

    [App] owns the phase ([gameState]) and the statistics ([stats]).  Beside
    these two React states the model keeps the two browser resources the
    component uses: whether its one-second interval is running, and the
    stored best score.  The operations are the interval's callback ([tick]),
    the two effects ([timerEffect], [highScoreEffect]) with the dependencies
    React compares to decide whether to run them, and [resetGame].  [App]
    implements the props the engine and the overlay are written against. *)

From S2P Require Import Prelude Types Storage Engine GameUI.

#[local] Open Scope upd_scope.

Record App := mkApp {
  app_gameState : GameState;
  app_stats : GameStats;
  interval : bool;
  localStorage : LocalStorage;
}.

#[export] Instance App_eq_dec : EqDecision App.
Proof. solve_decision. Defined.

(** The state of a freshly mounted [App], given what the browser stored. *)
Definition initialApp (store : LocalStorage) : App :=
  mkApp START (mkStats (Num 0) (loadBestMoves store) (Num 0)) false store.

(** ** Setters *)

Definition app_setGameState (g : GameState) : Upd App :=
  λ a, mkApp g (app_stats a) (interval a) (localStorage a).

Definition setStats (f : GameStats → GameStats) : Upd App :=
  λ a, mkApp (app_gameState a) (f (app_stats a)) (interval a) (localStorage a).

Definition setInterval : Upd App :=
  λ a, mkApp (app_gameState a) (app_stats a) true (localStorage a).

Definition clearInterval : Upd App :=
  λ a, mkApp (app_gameState a) (app_stats a) false (localStorage a).

Definition localStorage_setItem (v : string) : Upd App :=
  λ a, mkApp (app_gameState a) (app_stats a) (interval a)
         (setItem v (localStorage a)).

(** The props handed to [GameEngine]. *)
#[export, refine] Instance App_props : GameEngineProps App := {
  gameState := app_gameState;
  setGameState := app_setGameState;
  stats := app_stats;
  updateStats := setStats;
}.
Proof. all: done. Defined.

(** ** Timer *)

(** The interval's callback. *)
Definition tick : Upd App :=
  setStats (λ prev, set_timer (num_add (timer prev) (Num 1)) prev).

(** The effect "Timer Logic": the cleanup of its previous run, then its
    body. *)
Definition timerEffect (r : App) : Upd App :=
  clearInterval ;;
  when (bool_decide (app_gameState r = PLAYING)) setInterval.

Definition timerDeps (r : App) : GameState := app_gameState r.

(** ** Best score *)

(** The effect "Handle Game Over High Score". *)
Definition highScoreEffect (r : App) : Upd App :=
  if bool_decide (app_gameState r = GAME_OVER) then
    if num_lt (moves (app_stats r)) (bestMoves (app_stats r)) then
      localStorage_setItem (toString (moves (app_stats r))) ;;
      setStats (λ prev, set_bestMoves (moves (app_stats r)) prev)
    else skip
  else skip.

Definition highScoreDeps (r : App) : GameState * number * number :=
  (app_gameState r, moves (app_stats r), bestMoves (app_stats r)).

(** ** Reset *)

Definition resetGame : Upd App :=
  setStats (λ prev, set_timer (Num 0) (set_moves (Num 0) prev)) ;;
  app_setGameState START.

(** The props handed to [GameUI]. *)
#[export] Instance App_ui : GameUIProps App := {
  ui_gameState := app_gameState;
  ui_setGameState := app_setGameState;
  ui_stats := app_stats;
  ui_resetGame := resetGame;
}.
