(* ===== verification/Game.v ===== *)
(** * Game: the components put together

    A [World] is the state of the mounted application: the engine's state,
    the session's state, and for each of the three effects the dependencies
    of its last run.  [commit] is what React does after a render: it runs
    the effects whose dependencies changed, the child's before the parent's,
    and records the dependencies; the updates the effects queue cause another
    render, so [settle] commits until nothing changes.  An [Event] is
    something the browser delivers: a click on a button or on a card, a turn
    of the interval, a pending callback of [setTimeout] becoming due.  [step]
    delivers one enabled event to the handlers rendered last and lets the
    application settle; [reachable] worlds are those a freshly mounted
    application gets to. *)

From S2P Require Import Prelude Types Shuffle Board Storage Engine App GameUI.

#[local] Open Scope upd_scope.

(** ** Worlds *)

(** The dependencies each effect ran with last; [None] before the first
    run. *)
Record Deps := mkDeps {
  depsInit : option (GameState * nat);
  depsTimer : option GameState;
  depsHighScore : option (GameState * number * number);
}.

#[export] Instance Deps_eq_dec : EqDecision Deps.
Proof. solve_decision. Defined.

Record World := mkWorld {
  engine : Engine;
  app : App;
  deps : Deps;
}.

#[export] Instance World_eq_dec : EqDecision World.
Proof. solve_decision. Defined.

(** The values a render hands to the closures it creates. *)
Definition rendered (w : World) : Engine * App := (engine w, app w).

(** The dependencies of the effects in the render of [w]. *)
Definition depsOf (w : World) : Deps :=
  mkDeps (Some (initDeps (rendered w)))
         (Some (timerDeps (app w)))
         (Some (highScoreDeps (app w))).

(** No effect is due. *)
Definition stable (w : World) : Prop := deps w = depsOf w.

#[export] Instance stable_dec w : Decision (stable w).
Proof. unfold stable. apply _. Defined.

(** ** Rendering *)

(** An effect is due when it never ran or its dependencies differ from those
    of its last run. *)
Definition changed `{EqDecision A} (last : option A) (now : A) : bool :=
  bool_decide (last ≠ Some now).

(** The effects due after the render of [w], in React's order. *)
Definition effects (d : Draws) (w : World) : Upd (Engine * App) :=
  let r := rendered w in
  when (changed (depsInit (deps w)) (initDeps r))
    (initEffect r d) ;;
  when (changed (depsTimer (deps w)) (timerDeps (app w)))
    (props (timerEffect (app w))) ;;
  when (changed (depsHighScore (deps w)) (highScoreDeps (app w)))
    (props (highScoreEffect (app w))).

Definition commit (d : Draws) (w : World) : World :=
  let s := effects d w (rendered w) in
  mkWorld s.1 s.2 (depsOf w).

#[global] Arguments commit : simpl never.

Fixpoint settle (fuel : nat) (d : Draws) (w : World) : World :=
  match fuel with
  | 0 => w
  | S fuel' => if bool_decide (stable w) then w else settle fuel' d (commit d w)
  end.

(** Two commits always reach a stable world ([settle_stable]). *)
Definition renderFuel : nat := 2.

(** ** Events *)

Inductive Event :=
  | ClickButton (b : Button)
  | ClickCard (c : Card)
  | Tick
  | TimeoutFires (i : nat).

#[export] Instance Event_eq_dec : EqDecision Event.
Proof. solve_decision. Defined.

(** What the browser can deliver in [w]: a button of the screen shown, a
    card of the grid, a turn of a running interval, a pending callback. *)
Definition enabled (ev : Event) (w : World) : Prop :=
  match ev with
  | ClickButton b => b ∈ buttonsOf (renderUI (app w))
  | ClickCard c => c ∈ cards (engine w)
  | Tick => interval (app w) = true
  | TimeoutFires i => is_Some (timeouts (engine w) !! i)
  end.

#[export] Instance enabled_dec ev w : Decision (enabled ev w).
Proof. destruct ev; simpl; apply _. Defined.

(** The handler of the event, as the last render created it. *)
Definition dispatch (ev : Event) (w : World) : Upd (Engine * App) :=
  match ev with
  | ClickButton b => props (clickButton b)
  | ClickCard c => handleCardClick (rendered w) c
  | Tick => props tick
  | TimeoutFires i => fireTimeout i
  end.

(** The handler's updates, before React renders again. *)
Definition handle (ev : Event) (w : World) : World :=
  let s := dispatch ev w (rendered w) in
  mkWorld s.1 s.2 (deps w).

Definition react (ev : Event) (d : Draws) (w : World) : World :=
  settle renderFuel d (handle ev w).

Inductive step : World → World → Prop :=
  | step_event ev d w : enabled ev w → step w (react ev d w).

(** The application after its first render and effects. *)
Definition initialWorld (store : LocalStorage) : World :=
  settle renderFuel (mkDraws [] [])
    (mkWorld initialEngine (initialApp store) (mkDeps None None None)).

Definition reachable (w : World) : Prop :=
  ∃ store, rtc step (initialWorld store) w.

(** Runs a list of events, each with its draws; [None] when one of them is
    not enabled. *)
Fixpoint run (evs : list (Event * Draws)) (w : World) : option World :=
  match evs with
  | [] => Some w
  | (ev, d) :: evs' =>
      if decide (enabled ev w) then run evs' (react ev d w) else None
  end.

(** ** One commit *)

Lemma changed_Some `{EqDecision A} (a b : A) :
  changed (Some a) b = bool_decide (a ≠ b).
Proof. unfold changed. apply bool_decide_ext. naive_solver. Qed.

Lemma changed_same `{EqDecision A} (a : A) : changed (Some a) a = false.
Proof. rewrite changed_Some. by apply bool_decide_eq_false_2; intros []. Qed.

Lemma changed_ne `{EqDecision A} (a b : A) : a ≠ b → changed (Some a) b = true.
Proof. intros. rewrite changed_Some. by apply bool_decide_eq_true_2. Qed.

Lemma changed_None `{EqDecision A} (b : A) : changed None b = true.
Proof. done. Qed.

(** The effect of the engine leaves the props alone, those of the session
    the engine. *)
Lemma initEffect_snd (r s : Engine * App) d : (initEffect r d s).2 = s.2.
Proof. unfold initEffect. repeat case_match; done. Qed.

(** The engine after the effect "Initialize Game". *)
Lemma initEffect_fst (r s : Engine * App) d :
  (initEffect r d s).1 =
    match gameState r.2 with
    | START => mkEngine [] [] false (timeouts s.1)
    | PLAYING =>
        if decide (length (cards r.1) = 0)
        then mkEngine (newCards d) [] false (timeouts s.1) else s.1
    | GAME_OVER => s.1
    end.
Proof.
  unfold initEffect. destruct (gameState r.2); simpl; [done| |done].
  by case_bool_decide; case_decide.
Qed.

(** The session after its two effects, when they are due. *)
Definition appEffects (w : World) : Upd App :=
  when (changed (depsTimer (deps w)) (timerDeps (app w))) (timerEffect (app w)) ;;
  when (changed (depsHighScore (deps w)) (highScoreDeps (app w)))
    (highScoreEffect (app w)).

Lemma commit_engine d w :
  engine (commit d w) =
    if changed (depsInit (deps w)) (initDeps (rendered w))
    then (initEffect (rendered w) d (rendered w)).1 else engine w.
Proof.
  unfold commit, effects. unfold_upd. simpl.
  destruct (changed (depsInit _) _), (changed (depsTimer _) _),
    (changed (depsHighScore _) _); done.
Qed.

Lemma commit_app d w : app (commit d w) = appEffects w (app w).
Proof.
  unfold commit, effects, appEffects. unfold_upd. simpl.
  destruct (changed (depsInit _) _), (changed (depsTimer _) _),
    (changed (depsHighScore _) _); simpl; rewrite ?initEffect_snd; done.
Qed.

Lemma commit_deps d w : deps (commit d w) = depsOf w.
Proof. done. Qed.

(** The effects of the session change neither the phase nor the moves nor
    the timer. *)
Lemma appEffects_gameState w a :
  app_gameState (appEffects w a) = app_gameState a.
Proof.
  unfold appEffects, timerEffect, highScoreEffect. unfold_upd.
  repeat case_match; done.
Qed.

Lemma appEffects_moves w a :
  moves (app_stats (appEffects w a)) = moves (app_stats a).
Proof.
  unfold appEffects, timerEffect, highScoreEffect. unfold_upd.
  repeat case_match; done.
Qed.

Lemma appEffects_timer w a :
  timer (app_stats (appEffects w a)) = timer (app_stats a).
Proof.
  unfold appEffects, timerEffect, highScoreEffect. unfold_upd.
  repeat case_match; done.
Qed.

(** The best score after the effects of the session: the moves of the
    render when the game is over and they are fewer. *)
Definition improves (a : App) : bool :=
  bool_decide (app_gameState a = GAME_OVER)
  && num_lt (moves (app_stats a)) (bestMoves (app_stats a)).

Lemma appEffects_bestMoves w a :
  bestMoves (app_stats (appEffects w a)) =
    if changed (depsHighScore (deps w)) (highScoreDeps (app w)) && improves (app w)
    then moves (app_stats (app w)) else bestMoves (app_stats a).
Proof.
  unfold appEffects, timerEffect, highScoreEffect, improves. unfold_upd.
  repeat case_match; simplify_eq/=; done.
Qed.

Lemma initEffect_length (r : Engine * App) d :
  length (cards (initEffect r d r).1) =
    match gameState r.2 with
    | START => 0
    | PLAYING => if decide (length (cards r.1) = 0) then 2 * PAIRS_COUNT
                 else length (cards r.1)
    | GAME_OVER => length (cards r.1)
    end.
Proof.
  rewrite initEffect_fst. destruct (gameState r.2); [done| |done].
  case_decide; [apply newCards_length|done].
Qed.

(** ** Settling *)

Lemma settle_stable_id n d w : stable w → settle n d w = w.
Proof. intros Hw. destruct n; simpl; [done|]. by rewrite bool_decide_eq_true_2. Qed.

(** After one commit the dependencies of the engine's effect are those of a
    render that a second run of the effect leaves alone. *)
Lemma commit_initDeps d w :
  initDeps (rendered (commit d w)) =
    (app_gameState (app w), length (cards (engine (commit d w)))).
Proof. unfold initDeps, rendered. cbn -[commit]. by rewrite commit_app, appEffects_gameState. Qed.

Lemma commit_length d w :
  length (cards (engine (commit d w))) =
    if changed (depsInit (deps w)) (initDeps (rendered w)) then
      match app_gameState (app w) with
      | START => 0
      | PLAYING => if decide (length (cards (engine w)) = 0) then 2 * PAIRS_COUNT
                   else length (cards (engine w))
      | GAME_OVER => length (cards (engine w))
      end
    else length (cards (engine w)).
Proof. rewrite commit_engine. case_match; [|done]. by rewrite initEffect_length. Qed.

Lemma commit_commit_length d w :
  length (cards (engine (commit d (commit d w))))
  = length (cards (engine (commit d w))).
Proof.
  rewrite (commit_length d (commit d w)), commit_deps. cbn -[commit].
  rewrite changed_Some, commit_initDeps, commit_app, appEffects_gameState.
  case_bool_decide as Hch; [|done]. rewrite commit_length in Hch |- *.
  unfold initDeps, rendered in *. cbn -[commit] in *.
  destruct (changed (depsInit (deps w)) _), (app_gameState (app w));
    repeat case_decide; simplify_eq/=; done.
Qed.

Lemma commit_commit_bestMoves d w :
  bestMoves (app_stats (app (commit d (commit d w))))
  = bestMoves (app_stats (app (commit d w))).
Proof.
  rewrite (commit_app d (commit d w)), appEffects_bestMoves, commit_deps.
  cbn -[commit]. rewrite changed_Some. unfold highScoreDeps, improves.
  rewrite !commit_app, appEffects_gameState, appEffects_moves.
  rewrite appEffects_bestMoves.
  destruct (changed _ _ && improves (app w)) eqn:Himp.
  - rewrite num_lt_irrefl, andb_false_r, andb_false_r. done.
  - rewrite bool_decide_eq_false_2; [done|]. by intros [].
Qed.

(** Whatever the state, two commits leave no effect due. *)
Lemma settle_stable d w : stable (settle renderFuel d w).
Proof.
  unfold renderFuel. simpl. case_bool_decide as H1; [done|].
  case_bool_decide as H2; [done|].
  unfold stable. rewrite commit_deps. unfold depsOf. f_equal.
  - f_equal. rewrite !commit_initDeps, commit_commit_length.
    by rewrite commit_app, appEffects_gameState.
  - f_equal. unfold timerDeps. by rewrite !commit_app, !appEffects_gameState.
  - f_equal. unfold highScoreDeps.
    rewrite commit_commit_bestMoves.
    by rewrite !(commit_app d (commit d w)), appEffects_gameState, appEffects_moves.
Qed.

(** More fuel changes nothing. *)
Lemma settle_fuel n d w : settle (renderFuel + n) d w = settle renderFuel d w.
Proof.
  pose proof (settle_stable d w) as Hs. unfold renderFuel in *. simpl in *.
  repeat case_bool_decide; try done. by apply settle_stable_id.
Qed.

(** *** The second commit only records dependencies *)

Lemma commit_commit_engine d w :
  engine (commit d (commit d w)) = engine (commit d w).
Proof.
  rewrite (commit_engine d (commit d w)), commit_deps. cbn -[commit].
  rewrite changed_Some, commit_initDeps.
  case_bool_decide as Hch; [|done]. rewrite initEffect_fst.
  unfold rendered. cbn -[commit]. rewrite commit_app, appEffects_gameState.
  unfold initDeps, rendered in Hch. cbn -[commit] in Hch.
  rewrite commit_engine in Hch |- *.
  destruct (changed (depsInit (deps w)) _); [|done].
  rewrite initEffect_fst in Hch |- *. simpl in *.
  destruct (app_gameState (app w)); [done| |done].
  case_decide; [|done]. simpl. rewrite newCards_length. by case_decide.
Qed.

Lemma highScoreEffect_not_improves r a :
  improves r = false → highScoreEffect r a = a.
Proof.
  unfold improves, highScoreEffect.
  destruct (bool_decide _); simpl; [by intros ->|done].
Qed.

Lemma commit_commit_app d w : app (commit d (commit d w)) = app (commit d w).
Proof.
  rewrite (commit_app d (commit d w)). unfold appEffects at 1.
  rewrite commit_deps. cbn -[commit]. unfold timerDeps, highScoreDeps.
  rewrite !commit_app, appEffects_gameState, appEffects_moves, changed_same.
  rewrite changed_Some. case_bool_decide as Hch; [|done].
  unfold_upd. apply highScoreEffect_not_improves. unfold improves.
  rewrite appEffects_gameState, appEffects_moves.
  rewrite appEffects_bestMoves in Hch |- *.
  destruct (changed _ _ && improves (app w)); [|done].
  by rewrite num_lt_irrefl, andb_false_r.
Qed.

Lemma commit_stable d w : stable w → commit d w = w.
Proof.
  intros Hw. pose proof (commit_engine d w) as He.
  pose proof (commit_app d w) as Ha. unfold appEffects in Ha.
  rewrite Hw in He, Ha. cbn -[commit] in He, Ha.
  rewrite changed_same in He.
  rewrite (changed_same (timerDeps _)), (changed_same (highScoreDeps _)) in Ha.
  pose proof (commit_deps d w) as Hd. rewrite <-Hw in Hd.
  destruct (commit d w), w. simpl in *. by subst.
Qed.

(** The settled world is the first commit with its own dependencies: a
    second commit only records them. *)
Lemma settle_eq d w :
  settle renderFuel d w =
    mkWorld (engine (commit d w)) (app (commit d w)) (depsOf (commit d w)).
Proof.
  unfold renderFuel. cbn [settle]. case_bool_decide as Hw.
  { rewrite commit_stable by done. unfold stable in Hw. destruct w. simpl in *. by f_equal. }
  case_bool_decide as Hc.
  - unfold stable in Hc. destruct (commit d w) as [e a dp]. simpl in *. by f_equal.
  - pose proof (commit_commit_engine d w) as He.
    pose proof (commit_commit_app d w) as Ha.
    pose proof (commit_deps d (commit d w)) as Hd.
    destruct (commit d (commit d w)) as [e a dp]. simpl in *. by subst.
Qed.

(** ** Termination *)

(** C14: rendering terminates.  From every world, whatever its state and its
    recorded dependencies, [settle] with [renderFuel] returns a world in
    which no effect is due, and more fuel returns the same world. *)
Theorem rendering_terminates d w :
  stable (settle renderFuel d w)
  ∧ ∀ n, settle (renderFuel + n) d w = settle renderFuel d w.
Proof. split; [apply settle_stable|intros n; apply settle_fuel]. Qed.
