(* ===== verification/Invariant.v ===== *)
(** * Invariant: what holds in every world the application reaches

    [world_inv] collects the facts that the handlers and the effects keep
    true together: the engine's invariant ([engine_inv]), what each phase
    means for the board, the interval and the counters ([phase_ok]), that the
    two counters are natural numbers, and that no effect is due.  The file
    first computes the state after each kind of event ([react_tick],
    [react_card], [react_engine_only], [react_finishes], [react_start],
    [react_play_again], [react_timeout]); the invariant is then checked on
    these states, and [invariant_rtc] follows by induction on the steps. *)

From S2P Require Import Prelude Types Shuffle Board Storage Engine App GameUI Game.

#[local] Open Scope upd_scope.

(** ** The state of a world after an event *)

Section react.
Context (ev : Event) (d : Draws) (w : World) (Hw : stable w).

Lemma react_engine :
  engine (react ev d w) =
    let w' := handle ev w in
    if bool_decide (initDeps (rendered w) ≠ initDeps (rendered w'))
    then (initEffect (rendered w') d (rendered w')).1 else engine w'.
Proof using Hw.
  unfold react. rewrite settle_eq. cbn -[commit]. rewrite commit_engine.
  cbn -[commit]. by rewrite Hw, <-changed_Some.
Qed.

Lemma react_app :
  app (react ev d w) =
    let w' := handle ev w in
    (when (bool_decide (timerDeps (app w) ≠ timerDeps (app w')))
       (timerEffect (app w')) ;;
     when (bool_decide (highScoreDeps (app w) ≠ highScoreDeps (app w')))
       (highScoreEffect (app w'))) (app w').
Proof using Hw.
  unfold react. rewrite settle_eq. cbn -[commit]. rewrite commit_app.
  unfold appEffects. cbn -[commit]. by rewrite Hw, <-!changed_Some.
Qed.

Lemma react_stable : stable (react ev d w).
Proof. apply settle_stable. Qed.

End react.

(** ** The invariant *)

(** A counter: a number that is an integer and not negative. *)
Definition is_count (x : number) : Prop :=
  match x with
  | Num z => (0 ≤ z)%Z
  | NaN => False
  end.

#[export] Instance is_count_dec x : Decision (is_count x).
Proof. destruct x; apply _. Defined.

(** Instances are found for [is_count] as it is written, without
    evaluating its argument. *)
#[global] Hint Opaque is_count : typeclass_instances.

(** What each phase means for the board, the timer and the statistics. *)
Definition phase_ok (e : Engine) (a : App) : Prop :=
  match app_gameState a with
  | START =>
      e = initialEngine ∧ interval a = false ∧
      moves (app_stats a) = Num 0 ∧ timer (app_stats a) = Num 0
  | PLAYING =>
      length (cards e) = 2 * PAIRS_COUNT ∧ interval a = true ∧
      ¬ Forall (λ c, isMatched c) (cards e)
  | GAME_OVER =>
      length (cards e) = 2 * PAIRS_COUNT ∧ isProcessing e = false ∧
      interval a = false ∧ Forall (λ c, isMatched c) (cards e) ∧
      num_lt (moves (app_stats a)) (bestMoves (app_stats a)) = false
  end.

#[export] Instance phase_ok_dec e a : Decision (phase_ok e a).
Proof. unfold phase_ok. destruct (app_gameState a); apply _. Defined.

Definition state_inv (e : Engine) (a : App) : Prop :=
  engine_inv e ∧ phase_ok e a ∧
  is_count (moves (app_stats a)) ∧ is_count (timer (app_stats a)).

Definition world_inv (w : World) : Prop :=
  state_inv (engine w) (app w) ∧ stable w.

#[export] Instance world_inv_dec w : Decision (world_inv w).
Proof. unfold world_inv, state_inv. apply _. Defined.

Lemma is_count_succ x : is_count x → is_count (num_add x (Num 1)).
Proof. destruct x as [|z]; [done|]. simpl. lia. Qed.

(** The count a number stands for. *)
Definition absCount (x : number) : nat :=
  match x with
  | Num z => Z.to_nat z
  | NaN => 0
  end.

Lemma absCount_succ x : is_count x → absCount (num_add x (Num 1)) = S (absCount x).
Proof. destruct x as [|z]; [done|]. simpl. intros Hz. lia. Qed.

(** *** The interval turns *)

Lemma state_inv_interval e a :
  state_inv e a → interval a = true → app_gameState a = PLAYING.
Proof.
  intros (_ & Hphase & _) Hint. unfold phase_ok in Hphase.
  destruct (app_gameState a); [|done|]; destruct_and!; congruence.
Qed.

Lemma react_tick d w :
  world_inv w → enabled Tick w →
  engine (react Tick d w) = engine w ∧ app (react Tick d w) = tick (app w).
Proof.
  intros [Hst Hw] Hen. rewrite react_engine, react_app by done.
  cbn -[initEffect]. unfold timerDeps, highScoreDeps. simpl.
  rewrite !bool_decide_eq_false_2 by naive_solver. done.
Qed.

Lemma tick_inv e a :
  state_inv e a → interval a = true → state_inv e (tick a).
Proof.
  intros Hst Hint. pose proof (state_inv_interval _ _ Hst Hint) as Hg.
  destruct Hst as (He & Hphase & Hm & Ht). unfold state_inv, phase_ok in *.
  cbn [tick setStats app_gameState app_stats interval timer moves set_timer].
  rewrite Hg in *. destruct_and!. split_and!; try done. by apply is_count_succ.
Qed.

(** *** Events that leave the phase and the size of the board alone *)

(** When the handler changes neither the phase nor the number of cards, and
    the game is not over, no effect changes the state. *)
Lemma react_quiet ev d w :
  stable w →
  app_gameState (app (handle ev w)) = app_gameState (app w) →
  length (cards (engine (handle ev w))) = length (cards (engine w)) →
  app_gameState (app w) ≠ GAME_OVER →
  engine (react ev d w) = engine (handle ev w)
  ∧ app (react ev d w) = app (handle ev w).
Proof.
  intros Hw Hg Hlen Hover. rewrite react_engine, react_app by done.
  cbn zeta. unfold initDeps, timerDeps, rendered. cbn [fst snd gameState App_props].
  rewrite Hg, Hlen, !bool_decide_eq_false_2 by naive_solver.
  split; [done|]. unfold_upd. case_bool_decide; [|done].
  apply highScoreEffect_not_improves. unfold improves.
  rewrite Hg. by rewrite bool_decide_eq_false_2.
Qed.

(** *** A card is clicked *)

Lemma react_card c d w :
  world_inv w →
  engine (react (ClickCard c) d w) = (handleCardClick (rendered w) c (rendered w)).1
  ∧ app (react (ClickCard c) d w) = (handleCardClick (rendered w) c (rendered w)).2.
Proof.
  intros [Hst Hw].
  destruct (decide (app_gameState (app w) = GAME_OVER)) as [Hover|Hover].
  - assert (accepts (rendered w) c = false) as Hacc.
    { unfold accepts. simpl. rewrite Hover. done. }
    unfold react, handle, dispatch. rewrite handleCardClick_rejected by done.
    rewrite settle_stable_id; [done|]. by destruct w.
  - apply react_quiet; [done| | |done].
    + exact (handleCardClick_gameState (rendered w) c (rendered w)).
    + exact (handleCardClick_length (rendered w) c).
Qed.

Lemma accepts_playing (e : Engine) (a : App) c :
  accepts (e, a) c = true → app_gameState a = PLAYING.
Proof. unfold accepts. simpl. by case_bool_decide. Qed.

Lemma card_inv e a c :
  state_inv e a → c ∈ cards e →
  state_inv (handleCardClick (e, a) c (e, a)).1 (handleCardClick (e, a) c (e, a)).2.
Proof.
  intros Hst Hc.
  destruct (accepts (e, a) c) eqn:Hacc; [|by rewrite handleCardClick_rejected].
  pose proof (accepts_playing _ _ _ Hacc) as Hplay.
  destruct Hst as (He & Hphase & Hm & Ht). unfold state_inv.
  split; [by apply (handleCardClick_inv (e, a))|].
  rewrite handleCardClick_engine, handleCardClick_props, Hacc by done.
  unfold phase_ok in *. rewrite Hplay in Hphase. destruct_and!.
  cbn [fst snd andb updateStats App_props].
  case_bool_decide; cbn [setStats app_gameState app_stats interval incMoves
    set_moves moves timer]; rewrite Hplay, clicked_length, clicked_all_matched;
    split_and!; try done.
  by apply is_count_succ.
Qed.

(** *** A pending callback runs *)

Lemma pending_playing e a i :
  state_inv e a → is_Some (timeouts e !! i) → app_gameState a = PLAYING.
Proof.
  intros ((_ & _ & _ & Hproc & Htime) & Hphase & _) [t Ht].
  unfold phase_ok in Hphase. destruct (app_gameState a); [|done|].
  - destruct Hphase as (-> & _). simpl in Ht. by rewrite lookup_nil in Ht.
  - destruct Hphase as (_ & Hp & _). rewrite Hp in Htime.
    by rewrite Htime, lookup_nil in Ht.
Qed.

(** The session when the phase becomes [GAME_OVER]: the interval stops and
    the best score is updated. *)
Definition finished (a : App) : App :=
  let a' := app_setGameState GAME_OVER a in
  highScoreEffect a' (timerEffect a' a').

Lemma react_game_over ev d w :
  stable w → app_gameState (app w) ≠ GAME_OVER →
  app (handle ev w) = app_setGameState GAME_OVER (app w) →
  engine (react ev d w) = engine (handle ev w)
  ∧ app (react ev d w) = finished (app w).
Proof.
  intros Hw Hg Ha. rewrite react_engine, react_app by done. cbn zeta.
  rewrite initEffect_fst. unfold initDeps, timerDeps, highScoreDeps, rendered.
  cbn [fst snd gameState App_props]. rewrite Ha.
  cbn [app_setGameState app_gameState app_stats].
  rewrite !bool_decide_eq_true_2 by (intros ?; simplify_eq).
  done.
Qed.

Lemma finished_inv e a :
  engine_inv e → length (cards e) = 2 * PAIRS_COUNT → isProcessing e = false →
  Forall (λ c, isMatched c) (cards e) →
  is_count (moves (app_stats a)) → is_count (timer (app_stats a)) →
  state_inv e (finished a).
Proof.
  intros He Hlen Hproc Hall Hm Ht. unfold finished, highScoreEffect, timerEffect.
  cbn [app_setGameState app_gameState app_stats]. unfold_upd.
  rewrite bool_decide_eq_true_2 by done. rewrite bool_decide_eq_false_2 by done.
  unfold state_inv, phase_ok.
  destruct (num_lt _ _) eqn:Hlt; cbn; rewrite ?num_lt_irrefl; split_and!; done.
Qed.

(** The invariant of a playing world whose engine changed and whose
    session did not. *)
Lemma playing_inv e e' a :
  state_inv e a → app_gameState a = PLAYING → engine_inv e' →
  length (cards e') = length (cards e) →
  ¬ Forall (λ c, isMatched c) (cards e') →
  state_inv e' a.
Proof.
  intros (_ & Hphase & Hm & Ht) Hplay He' Hlen Hall.
  unfold state_inv, phase_ok in *. rewrite Hplay in *. destruct_and!.
  split_and!; try done. congruence.
Qed.

Lemma react_engine_only ev d w e' :
  stable w → app_gameState (app w) ≠ GAME_OVER →
  dispatch ev w (rendered w) = (e', app w) →
  length (cards e') = length (cards (engine w)) →
  engine (react ev d w) = e' ∧ app (react ev d w) = app w.
Proof.
  intros Hw Hg Hd Hlen.
  destruct (react_quiet ev d w) as [-> ->]; unfold handle; rewrite ?Hd; done.
Qed.

Lemma react_finishes ev d w e' :
  stable w → app_gameState (app w) ≠ GAME_OVER →
  dispatch ev w (rendered w) = (e', app_setGameState GAME_OVER (app w)) →
  engine (react ev d w) = e' ∧ app (react ev d w) = finished (app w).
Proof.
  intros Hw Hg Hd.
  destruct (react_game_over ev d w) as [-> ->]; unfold handle; rewrite ?Hd; done.
Qed.

(** The world after the pending callback ran. *)
Lemma react_timeout i d w :
  world_inv w → enabled (TimeoutFires i) w →
  engine (react (TimeoutFires i) d w) = resolve (engine w)
  ∧ app (react (TimeoutFires i) d w) =
      if forallb isMatched (cards (resolve (engine w)))
      then finished (app w) else app w.
Proof.
  intros [Hst Hw] Hen. pose proof Hst as (He & _).
  pose proof (pending_playing _ _ _ Hst Hen) as Hplay.
  assert (app_gameState (app w) ≠ GAME_OVER) as Hover by congruence.
  pose proof (fireTimeout_resolve (rendered w) i He Hen) as Hf.
  unfold rendered in Hf. cbn [fst snd] in Hf.
  destruct (forallb _ _) eqn:Hall.
  - exact (react_finishes (TimeoutFires i) d w _ Hw Hover Hf).
  - apply (react_engine_only (TimeoutFires i) d w _ Hw Hover Hf), resolve_length.
Qed.

Lemma timeout_inv i d w :
  world_inv w → enabled (TimeoutFires i) w →
  state_inv (engine (react (TimeoutFires i) d w)) (app (react (TimeoutFires i) d w)).
Proof.
  intros Hinv Hen. destruct (react_timeout i d w Hinv Hen) as [-> ->].
  destruct Hinv as [Hst _]. pose proof Hst as (He & Hphase & Hm & Ht).
  pose proof (pending_playing _ _ _ Hst Hen) as Hplay.
  unfold phase_ok in Hphase. rewrite Hplay in Hphase. destruct_and!.
  destruct Hen as [t Hen].
  destruct (pending_inv _ _ _ He Hen) as (a & b & _ & _ & Hids & _).
  assert (engine_inv (resolve (engine w))) as He'.
  { apply resolve_engine_inv; [done|by rewrite Hids]. }
  destruct (forallb _ _) eqn:Hall.
  - apply finished_inv; try done; [by rewrite resolve_length|].
    apply forallb_True. by rewrite Hall.
  - eapply playing_inv; try done; [apply resolve_length|].
    intros HF%forallb_True. by rewrite Hall in HF.
Qed.

(** *** The buttons *)

Lemma enabled_button b w :
  enabled (ClickButton b) w ↔
    (b = StartGame ∧ app_gameState (app w) = START)
    ∨ (b = PlayAgain ∧ app_gameState (app w) = GAME_OVER).
Proof.
  unfold enabled, renderUI. cbn [ui_gameState App_ui].
  destruct (app_gameState (app w)), b; cbn [buttonsOf]; set_solver.
Qed.

(** The session after "Start Game": playing, with the interval running. *)
Definition started (a : App) : App :=
  mkApp PLAYING (app_stats a) true (localStorage a).

(** The session after "Play Again": the counters at zero, the best score
    kept. *)
Definition restarted (a : App) : App :=
  mkApp START (set_timer (Num 0) (set_moves (Num 0) (app_stats a))) false
    (localStorage a).

Lemma react_start d w :
  world_inv w → app_gameState (app w) = START →
  engine (react (ClickButton StartGame) d w) = mkEngine (newCards d) [] false []
  ∧ app (react (ClickButton StartGame) d w) = started (app w).
Proof.
  intros [(_ & Hphase & _) Hw] Hg. unfold phase_ok in Hphase.
  rewrite Hg in Hphase. destruct Hphase as (He & Hint & _).
  rewrite react_engine, react_app by done. cbn zeta.
  rewrite initEffect_fst. unfold initDeps, timerDeps, highScoreDeps, rendered.
  cbn [handle dispatch clickButton props engine app fst snd gameState
       ui_setGameState ui_resetGame App_ui
       setGameState App_props app_setGameState app_gameState app_stats].
  unfold rendered. cbn [fst snd]. rewrite Hg, He.
  rewrite !bool_decide_eq_true_2 by (intros ?; simplify_eq).
  split; [done|]. destruct (app w). by simplify_eq/=.
Qed.

Lemma react_play_again d w :
  world_inv w → app_gameState (app w) = GAME_OVER →
  engine (react (ClickButton PlayAgain) d w) = initialEngine
  ∧ app (react (ClickButton PlayAgain) d w) = restarted (app w).
Proof.
  intros [((_ & _ & _ & Hlock & Htime) & Hphase & _) Hw] Hg. unfold phase_ok in Hphase.
  rewrite Hg in Hphase. destruct Hphase as (_ & Hproc & Hint & _).
  rewrite Hproc in Htime.
  rewrite react_engine, react_app by done. cbn zeta.
  rewrite initEffect_fst. unfold initDeps, timerDeps, highScoreDeps, rendered.
  cbn [handle dispatch clickButton props engine app fst snd gameState
       ui_setGameState ui_resetGame App_ui
       setGameState App_props resetGame].
  unfold_upd. unfold rendered.
  cbn [fst snd app_setGameState setStats app_gameState app_stats].
  rewrite Hg, Htime.
  rewrite !bool_decide_eq_true_2 by (intros ?; simplify_eq).
  split; [by destruct (engine w); simplify_eq/=|].
  destruct (app w). by simplify_eq/=.
Qed.

Lemma newCards_not_all_matched d : ¬ Forall (λ c, isMatched c) (newCards d).
Proof.
  pose proof (newCards_length d) as Hlen. pose proof (newCards_face_down d) as Hdown.
  destruct (newCards d) as [|c cs]; [done|].
  intros Hall. apply Forall_cons_1 in Hall as [Hc _], Hdown as [[_ Hc'] _].
  by rewrite Hc' in Hc.
Qed.

Lemma started_inv d a :
  is_count (moves (app_stats a)) → is_count (timer (app_stats a)) →
  state_inv (mkEngine (newCards d) [] false []) (started a).
Proof.
  intros Hm Ht. unfold state_inv, phase_ok. cbn [started app_gameState cards interval app_stats].
  split_and!; try done.
  - apply dealt_inv.
  - apply newCards_length.
  - apply newCards_not_all_matched.
Qed.

Lemma restarted_inv a : state_inv initialEngine (restarted a).
Proof.
  unfold state_inv, phase_ok. cbn. split_and!; try done. apply initialEngine_inv.
Qed.

(** ** Every reachable world satisfies the invariant *)

Lemma step_state_inv ev d w :
  world_inv w → enabled ev w →
  state_inv (engine (react ev d w)) (app (react ev d w)).
Proof.
  intros Hinv Hen. pose proof Hinv as [Hst Hw]. destruct ev as [b|c| |i].
  - apply enabled_button in Hen as [[-> Hg]|[-> Hg]].
    + destruct (react_start d w Hinv Hg) as [-> ->].
      apply started_inv; apply Hst.
    + destruct (react_play_again d w Hinv Hg) as [-> ->]. apply restarted_inv.
  - destruct (react_card c d w Hinv) as [-> ->]. by apply card_inv.
  - destruct (react_tick d w Hinv Hen) as [-> ->]. by apply tick_inv.
  - by apply timeout_inv.
Qed.

Lemma step_inv w w' : world_inv w → step w w' → world_inv w'.
Proof.
  intros Hinv Hstep. destruct Hstep as [ev d w Hen].
  split; [by apply step_state_inv|apply react_stable].
Qed.

Lemma initialWorld_state store :
  engine (initialWorld store) = initialEngine
  ∧ app (initialWorld store) = initialApp store.
Proof.
  unfold initialWorld. rewrite settle_eq. cbn -[commit].
  rewrite commit_engine, commit_app. done.
Qed.

Lemma initialWorld_inv store : world_inv (initialWorld store).
Proof.
  split; [|apply settle_stable].
  destruct (initialWorld_state store) as [-> ->].
  unfold state_inv, phase_ok. cbn. split_and!; try done. apply initialEngine_inv.
Qed.

(** [world_inv] is kept along every run. *)
Lemma invariant_rtc w w' : world_inv w → rtc step w w' → world_inv w'.
Proof.
  intros Hinv Hrtc. revert w' Hrtc.
  apply rtc_ind_r; [done|]. intros w' w'' _ Hstep IH. by eapply step_inv.
Qed.

(** Induction along a run, with the invariant at hand. *)
Lemma rtc_step_ind (Q : World → Prop) w0 :
  world_inv w0 → Q w0 →
  (∀ ev d w, world_inv w → enabled ev w → Q w → Q (react ev d w)) →
  ∀ w, rtc step w0 w → Q w.
Proof.
  intros Hinv0 HQ0 Hstep w Hrtc.
  cut (world_inv w ∧ Q w); [naive_solver|]. revert w Hrtc.
  apply rtc_ind_r; [done|].
  intros w w' _ Hs [Hinv HQ]. split; [by eapply step_inv|].
  destruct Hs as [ev d w Hen]. by apply Hstep.
Qed.

Lemma reachable_ind (Q : World → Prop) :
  (∀ store, Q (initialWorld store)) →
  (∀ ev d w, world_inv w → enabled ev w → Q w → Q (react ev d w)) →
  ∀ w, reachable w → Q w.
Proof.
  intros Hinit Hstep w [store Hrtc].
  by apply (rtc_step_ind Q (initialWorld store) (initialWorld_inv store)).
Qed.

(** Turns a hypothesis [H : reachable w] into [H : world_inv w]. *)
Ltac reach_inv H :=
  let store := fresh "store" in
  destruct H as [store H];
  apply (invariant_rtc _ _ (initialWorld_inv store)) in H.
