(* ===== verification/Runs.v ===== *)
(** * Runs: executing the application on a list of events

    [run] of [Game] executes events; this file relates it to the step
    relation, and adds scripts: a player's actions named by what is on the
    screen (the card at a position of the grid, the pending callback) rather
    than by the values the events carry.  The worlds a script reaches from a
    fresh mount are the concrete worlds the theorems of the development are
    tried on. *)

From S2P Require Import Prelude Types Shuffle Board Storage Engine App GameUI.
From S2P Require Import Game Invariant.

(** ** [run] and the step relation *)

Lemma run_rtc evs w w' : run evs w = Some w' → rtc step w w'.
Proof.
  revert w. induction evs as [|[ev d] evs IH]; intros w Hrun; simpl in Hrun.
  - by simplify_eq.
  - case_decide; [|done]. eapply rtc_l; [by constructor|by apply IH].
Qed.

Lemma run_app evs evs' w : run (evs ++ evs') w = run evs w ≫= run evs'.
Proof.
  revert w. induction evs as [|[ev d] evs IH]; intros w; simpl; [done|].
  by case_decide.
Qed.

Lemma run_cons ev d evs w w' :
  run ((ev, d) :: evs) w = Some w' ↔ enabled ev w ∧ run evs (react ev d w) = Some w'.
Proof. simpl. case_decide; naive_solver. Qed.

Lemma run_reachable evs w w' : reachable w → run evs w = Some w' → reachable w'.
Proof.
  intros [store Hw] Hrun. exists store. etrans; [done|by eapply run_rtc].
Qed.

Lemma run_inv evs w w' : world_inv w → run evs w = Some w' → world_inv w'.
Proof. intros Hw Hrun. eapply invariant_rtc; [done|by eapply run_rtc]. Qed.

(** Every reachable world is the end of a run. *)
Lemma rtc_run w w' : rtc step w w' → ∃ evs, run evs w = Some w'.
Proof.
  induction 1 as [w|w w' w'' [ev d ? Hen] _ [evs IH]]; [by exists []|].
  exists ((ev, d) :: evs). by apply run_cons.
Qed.

Lemma reachable_run w :
  reachable w ↔ ∃ store evs, run evs (initialWorld store) = Some w.
Proof.
  split.
  - intros [store [evs Hrun]%rtc_run]. by exists store, evs.
  - intros (store & evs & Hrun). exists store. by eapply run_rtc.
Qed.

(** ** Scripts *)

Inductive Action :=
  | Press (b : Button)
  | Flip (index : nat)
  | Expire
  | Second.

(** The card shown at a position of the grid. *)
Definition cardAt (index : nat) (w : World) : Card :=
  default (mkCard "" "" false false) (cards (engine w) !! index).

Definition eventOf (a : Action) (w : World) : Event :=
  match a with
  | Press b => ClickButton b
  | Flip index => ClickCard (cardAt index w)
  | Expire => TimeoutFires 0
  | Second => Tick
  end.

Fixpoint play (d : Draws) (script : list Action) (w : World) : option World :=
  match script with
  | [] => Some w
  | a :: script' =>
      if decide (enabled (eventOf a w) w)
      then play d script' (react (eventOf a w) d w) else None
  end.

Lemma play_rtc d script w w' : play d script w = Some w' → rtc step w w'.
Proof.
  revert w. induction script as [|a script IH]; intros w Hplay; simpl in Hplay.
  - by simplify_eq.
  - case_decide; [|done]. eapply rtc_l; [by constructor|by apply IH].
Qed.

(** The events a script delivers. *)
Fixpoint eventsOf (d : Draws) (script : list Action) (w : World)
    : list (Event * Draws) :=
  match script with
  | [] => []
  | a :: script' =>
      (eventOf a w, d) :: eventsOf d script' (react (eventOf a w) d w)
  end.

Lemma run_eventsOf d script w : run (eventsOf d script w) w = play d script w.
Proof.
  revert w. induction script as [|a script IH]; intros w; simpl; [done|].
  by case_decide.
Qed.

(** ** The worlds of a first game *)

(** With no draws the deal takes the first [PAIRS_COUNT] emojis of the pool
    in order, twice: the cards at [i] and [i + PAIRS_COUNT] are a pair. *)
Definition plainDraws : Draws := mkDraws [] [].

Definition mounted : World := initialWorld None.

Definition after (script : list Action) : World :=
  default mounted (play plainDraws script mounted).

Lemma after_reachable script :
  is_Some (play plainDraws script mounted) → reachable (after script).
Proof.
  intros [w Hplay]. unfold after. rewrite Hplay. exists None.
  by eapply play_rtc.
Qed.

Lemma after_rtc script :
  is_Some (play plainDraws script mounted) → rtc step mounted (after script).
Proof.
  intros [w Hplay]. unfold after. rewrite Hplay. by eapply play_rtc.
Qed.

Lemma after_inv script :
  is_Some (play plainDraws script mounted) → world_inv (after script).
Proof.
  intros [w Hplay]. unfold after. rewrite Hplay.
  eapply invariant_rtc; [apply initialWorld_inv|by eapply play_rtc].
Qed.

Lemma after_run script :
  is_Some (play plainDraws script mounted) →
  run (eventsOf plainDraws script mounted) mounted = Some (after script).
Proof. intros [w Hplay]. unfold after. by rewrite run_eventsOf, Hplay. Qed.

Lemma mounted_reachable : reachable mounted.
Proof. by exists None. Qed.

(** Decides a closed proposition by evaluation. *)
Ltac by_compute := apply (bool_decide_unpack _); vm_compute; exact I.

(** One card face up. *)
Definition oneUp : list Action := [Press StartGame; Flip 0].

(** A matching pair face up, its callback pending. *)
Definition pairUp : list Action := [Press StartGame; Flip 0; Flip 8].

(** A matching pair, matched. *)
Definition pairDone : list Action := pairUp ++ [Expire].

(** A pair that does not match face up, its callback pending. *)
Definition oddUp : list Action := [Press StartGame; Flip 0; Flip 1].

(** A pair that did not match turned back, then a matching pair face up. *)
Definition twoTurns : list Action :=
  [Press StartGame; Flip 0; Flip 1; Expire; Flip 0; Flip 8].

(** Turning the pair at [i] and [i + PAIRS_COUNT], and waiting. *)
Definition takePair (i : nat) : list Action :=
  [Flip i; Flip (i + PAIRS_COUNT); Expire].

(** A whole game without a mistake. *)
Definition perfectGame : list Action :=
  Press StartGame :: (seq 0 PAIRS_COUNT ≫= takePair).

Lemma oneUp_plays : is_Some (play plainDraws oneUp mounted).
Proof. vm_compute. by eexists. Qed.

Lemma pairUp_plays : is_Some (play plainDraws pairUp mounted).
Proof. vm_compute. by eexists. Qed.

Lemma pairDone_plays : is_Some (play plainDraws pairDone mounted).
Proof. vm_compute. by eexists. Qed.

Lemma oddUp_plays : is_Some (play plainDraws oddUp mounted).
Proof. vm_compute. by eexists. Qed.

Lemma twoTurns_plays : is_Some (play plainDraws twoTurns mounted).
Proof. vm_compute. by eexists. Qed.

Lemma perfectGame_plays : is_Some (play plainDraws perfectGame mounted).
Proof. vm_compute. by eexists. Qed.
