(* ===== verification/Reducer.v ===== *)
(** * Reducer: one event as one function of the state

    [react] of [Game] is operational: the handler queues updates, React
    renders, the effects whose dependencies changed run and queue more
    updates, until nothing is due.  [next] is the same transition written as
    a function of the event and the state, without effects and without
    dependencies.  On the worlds of the invariant the two agree
    ([react_nextEngine], [react_nextApp]); the theorems about scores and
    about the specification are proved on [next]. *)

From S2P Require Import Prelude Types Shuffle Board Storage Engine App GameUI.
From S2P Require Import Game Invariant Runs.

#[local] Open Scope upd_scope.

(** The click completes a pair. *)
Definition completesPair (c : Card) (w : World) : bool :=
  accepts (rendered w) c && bool_decide (length (flippedIds (engine w)) = 1).

(** The pending callback ends the game. *)
Definition finishes (w : World) : bool :=
  forallb isMatched (cards (resolve (engine w))).

Definition nextEngine (ev : Event) (d : Draws) (w : World) : Engine :=
  match ev with
  | ClickButton StartGame => mkEngine (newCards d) [] false []
  | ClickButton PlayAgain => initialEngine
  | ClickCard c => if accepts (rendered w) c then clicked c (engine w) else engine w
  | Tick => engine w
  | TimeoutFires _ => resolve (engine w)
  end.

Definition nextApp (ev : Event) (w : World) : App :=
  match ev with
  | ClickButton StartGame => started (app w)
  | ClickButton PlayAgain => restarted (app w)
  | ClickCard c => if completesPair c w then setStats incMoves (app w) else app w
  | Tick => tick (app w)
  | TimeoutFires _ => if finishes w then finished (app w) else app w
  end.

Definition next (ev : Event) (d : Draws) (w : World) : World :=
  let w' := mkWorld (nextEngine ev d w) (nextApp ev w) (deps w) in
  mkWorld (engine w') (app w') (depsOf w').

(** ** [react] is [next] *)

Lemma length_snoc_2 {A} (l : list A) x : length (l ++ [x]) = 2 ↔ length l = 1.
Proof. rewrite length_app. simpl. lia. Qed.

Lemma react_nextEngine ev d w :
  world_inv w → enabled ev w → engine (react ev d w) = nextEngine ev d w.
Proof.
  intros Hinv Hen. destruct ev as [b|c| |i]; cbn [nextEngine].
  - apply enabled_button in Hen as [[-> Hg]|[-> Hg]].
    + by destruct (react_start d w Hinv Hg) as [-> _].
    + by destruct (react_play_again d w Hinv Hg) as [-> _].
  - destruct (react_card c d w Hinv) as [-> _].
    destruct (accepts _ _) eqn:Hacc;
      [by rewrite handleCardClick_engine|by rewrite handleCardClick_rejected].
  - by destruct (react_tick d w Hinv Hen) as [-> _].
  - by destruct (react_timeout i d w Hinv Hen) as [-> _].
Qed.

Lemma react_nextApp ev d w :
  world_inv w → enabled ev w → app (react ev d w) = nextApp ev w.
Proof.
  intros Hinv Hen. destruct ev as [b|c| |i]; cbn [nextApp].
  - apply enabled_button in Hen as [[-> Hg]|[-> Hg]].
    + by destruct (react_start d w Hinv Hg) as [_ ->].
    + by destruct (react_play_again d w Hinv Hg) as [_ ->].
  - destruct (react_card c d w Hinv) as [_ ->].
    rewrite handleCardClick_props. unfold completesPair.
    by rewrite (bool_decide_ext _ _ (length_snoc_2 _ _)).
  - by destruct (react_tick d w Hinv Hen) as [_ ->].
  - by destruct (react_timeout i d w Hinv Hen) as [_ ->].
Qed.

Lemma stable_eta w : stable w → w = mkWorld (engine w) (app w) (depsOf w).
Proof. unfold stable. destruct w as [e a dp]. simpl. by intros ->. Qed.

(** C8: on the worlds of the invariant, delivering an event through the
    handlers, the renders and the effects is the function [next] of the
    event and the state. *)
Theorem react_next ev d w :
  world_inv w → enabled ev w → react ev d w = next ev d w.
Proof.
  intros Hinv Hen. destruct Hinv as [Hst Hw].
  rewrite (stable_eta (react ev d w)) by by apply react_stable.
  unfold next, depsOf, rendered. cbn [engine app].
  by rewrite react_nextEngine, react_nextApp.
Qed.

Lemma react_next_witness :
  react (TimeoutFires 0) plainDraws (after pairUp)
  = next (TimeoutFires 0) plainDraws (after pairUp).
Proof. apply react_next; [apply after_inv, pairUp_plays|by_compute]. Defined.

(** ** What [next] leaves alone *)

Lemma finished_eq a :
  finished a =
    if num_lt (moves (app_stats a)) (bestMoves (app_stats a))
    then mkApp GAME_OVER (set_bestMoves (moves (app_stats a)) (app_stats a))
           false (Some (toString (moves (app_stats a))))
    else mkApp GAME_OVER (app_stats a) false (localStorage a).
Proof.
  unfold finished, highScoreEffect, timerEffect. unfold_upd. simpl.
  by case_match.
Qed.

Lemma finished_moves a : moves (app_stats (finished a)) = moves (app_stats a).
Proof. rewrite finished_eq. by case_match. Qed.

Lemma finished_timer a : timer (app_stats (finished a)) = timer (app_stats a).
Proof. rewrite finished_eq. by case_match. Qed.

Lemma finished_gameState a : app_gameState (finished a) = GAME_OVER.
Proof. rewrite finished_eq. by case_match. Qed.

(** The phase after an event. *)
Lemma nextApp_gameState ev w :
  app_gameState (nextApp ev w) =
    match ev with
    | ClickButton StartGame => PLAYING
    | ClickButton PlayAgain => START
    | TimeoutFires _ => if finishes w then GAME_OVER else app_gameState (app w)
    | ClickCard _ | Tick => app_gameState (app w)
    end.
Proof.
  destruct ev as [[]|c| |i]; cbn [nextApp]; try done; case_match; try done.
  apply finished_gameState.
Qed.

(** An event finishes the game when it leads from PLAYING to GAME_OVER:
    it is the pending callback, and it matches the last pair. *)
Lemma finishes_iff ev w :
  world_inv w → enabled ev w →
  (app_gameState (app w) = PLAYING ∧ app_gameState (nextApp ev w) = GAME_OVER)
  ↔ (∃ i, ev = TimeoutFires i) ∧ finishes w = true.
Proof.
  intros [Hst _] Hen. rewrite nextApp_gameState.
  destruct ev as [[]|c| |i]; try (split; [intros [??]|intros [[??] ?]]; congruence).
  pose proof (pending_playing _ _ _ Hst Hen) as Hg.
  destruct (finishes w); split; try naive_solver. intros [_ ?]. congruence.
Qed.

(** The event ends a game with fewer moves than the best score. *)
Definition improving (ev : Event) (w : World) : bool :=
  match ev with
  | TimeoutFires _ =>
      finishes w
      && num_lt (moves (app_stats (app w))) (bestMoves (app_stats (app w)))
  | _ => false
  end.

Lemma nextApp_bestMoves ev w :
  bestMoves (app_stats (nextApp ev w)) =
    if improving ev w then moves (app_stats (app w))
    else bestMoves (app_stats (app w)).
Proof.
  destruct ev as [[]|c| |i]; cbn [nextApp improving]; try done; [by case_match|].
  destruct (finishes w); [|done]. rewrite finished_eq. by case_match.
Qed.

Lemma nextApp_localStorage ev w :
  localStorage (nextApp ev w) =
    if improving ev w then Some (toString (moves (app_stats (app w))))
    else localStorage (app w).
Proof.
  destruct ev as [[]|c| |i]; cbn [nextApp improving]; try done; [by case_match|].
  destruct (finishes w); [|done]. rewrite finished_eq. by case_match.
Qed.
