(* ===== verification/Pairs.v ===== *)
(** * Pairs: matched cards come in pairs

    The board pairs the emojis ([paired]): every card has exactly one
    partner.  This file shows that the handlers of
    [src/components/GameEngine.tsx] respect the pairs: the match callback
    marks both cards of a pair and no other card, so in every reachable
    world two cards with the same emoji are matched together or not at
    all.  [Liveness] builds on it. *)

From S2P Require Import Prelude Types Shuffle Board Storage Engine App GameUI.
From S2P Require Import Game Invariant Runs Reducer.

Implicit Types (cs : list Card) (c : Card) (e : Engine) (w : World).

(** ** Partners *)

Section partners.
Context (cs : list Card) (Hids : NoDup (id <$> cs)) (Hpaired : paired cs).

Lemma emoji_twice c : c ∈ cs → occ (emoji c) (emoji <$> cs) = 2.
Proof using Hpaired.
  intros Hc. unfold paired in Hpaired. rewrite Forall_forall in Hpaired.
  by apply Hpaired.
Qed.

(** A card has a partner: another card with its emoji. *)
Lemma partner_exists c :
  c ∈ cs → ∃ c', c' ∈ cs ∧ id c' ≠ id c ∧ emoji c' = emoji c.
Proof using All.
  intros Hc. pose proof (emoji_twice c Hc) as Hp. clear Hpaired.
  apply list_elem_of_split in Hc as (l1 & l2 & ->).
  rewrite fmap_app, fmap_cons, occ_app, occ_cons, decide_True in Hp by done.
  rewrite fmap_app, fmap_cons in Hids.
  apply NoDup_app in Hids as (_ & Hl1 & [Hl2 _]%NoDup_cons).
  assert (0 < occ (emoji c) (emoji <$> l1) ∨ 0 < occ (emoji c) (emoji <$> l2))
    as [Hocc|Hocc] by lia;
    apply occ_elem_of, list_elem_of_fmap in Hocc as (c' & He & Hc');
    exists c'; (split_and!; [set_solver| |done]); intros Hid.
  - apply (Hl1 (id c')); set_solver.
  - apply Hl2. rewrite <-Hid. set_solver.
Qed.

(** And no second one: a third card with the emoji of a pair is one of the
    pair. *)
Lemma pair_only c1 c2 c :
  c1 ∈ cs → c2 ∈ cs → c ∈ cs → id c1 ≠ id c2 →
  emoji c2 = emoji c1 → emoji c = emoji c1 → id c = id c1 ∨ id c = id c2.
Proof using All.
  intros H1 H2 Hc Hne He2 He.
  destruct (decide (id c = id c1)) as [|Hn1]; [by left|].
  destruct (decide (id c = id c2)) as [|Hn2]; [by right|]. exfalso.
  assert ([c1; c2; c] ⊆+ cs) as Hsub.
  { apply NoDup_submseteq; [|set_solver].
    repeat constructor; set_solver. }
  apply (fmap_submseteq emoji), (occ_submseteq (emoji c1)) in Hsub.
  rewrite emoji_twice in Hsub by done. simpl in Hsub.
  rewrite He2, He, !occ_cons, !decide_True in Hsub by done. lia.
Qed.

End partners.

(** ** Matched in pairs *)

(** Two cards with the same emoji are matched together or not at all. *)
Definition matched_pairs (cs : list Card) : Prop :=
  Forall (λ c, Forall (λ c', emoji c = emoji c' → isMatched c = isMatched c') cs) cs.

#[export] Instance matched_pairs_dec cs : Decision (matched_pairs cs).
Proof. unfold matched_pairs. apply _. Defined.

Lemma matched_pairs_spec cs :
  matched_pairs cs ↔
  ∀ c c', c ∈ cs → c' ∈ cs → emoji c = emoji c' → isMatched c = isMatched c'.
Proof.
  unfold matched_pairs. rewrite Forall_forall.
  apply forall_proper; intros c. rewrite Forall_forall. naive_solver.
Qed.

(** A board with no matched card. *)
Lemma matched_pairs_fresh cs :
  Forall (λ c, isMatched c = false) cs → matched_pairs cs.
Proof.
  rewrite matched_pairs_spec, Forall_forall. intros Hcs c c' Hc Hc' _.
  by rewrite !Hcs.
Qed.

(** An update that keeps the emoji and the matched flag of every card. *)
Lemma matched_pairs_keeps (f : Card → Card) cs :
  (∀ c, emoji (f c) = emoji c) → (∀ c, isMatched (f c) = isMatched c) →
  matched_pairs cs → matched_pairs (f <$> cs).
Proof.
  rewrite !matched_pairs_spec. intros Hemoji Hmatched Hcs c c'.
  intros (x & -> & Hx)%list_elem_of_fmap (x' & -> & Hx')%list_elem_of_fmap.
  rewrite !Hemoji, !Hmatched. auto.
Qed.

Lemma flipCard_matched_pairs i cs : matched_pairs cs → matched_pairs (flipCard i cs).
Proof. apply matched_pairs_keeps; keeps_face. Qed.

Lemma unflipCards_matched_pairs a b cs :
  matched_pairs cs → matched_pairs (unflipCards a b cs).
Proof. apply matched_pairs_keeps; keeps_face. Qed.

(** The matched flag of a card after [matchCards]. *)
Lemma matchCards_elem_of a b cs c :
  c ∈ matchCards a b cs →
  ∃ x, x ∈ cs ∧ id c = id x ∧ emoji c = emoji x
       ∧ isMatched c = hasId a x || hasId b x || isMatched x.
Proof.
  intros (x & -> & Hx)%list_elem_of_fmap. exists x.
  by destruct (hasId a x || hasId b x).
Qed.

(** Marking two cards with the same emoji keeps the pairs. *)
Lemma matchCards_matched_pairs cs c1 c2 :
  board_ok cs → c1 ∈ cs → c2 ∈ cs → id c1 ≠ id c2 → emoji c2 = emoji c1 →
  matched_pairs cs →
  matched_pairs (matchCards (Some (id c1)) (Some (id c2)) cs).
Proof.
  intros Hboard H1 H2 Hne He. rewrite !matched_pairs_spec. intros Hcs.
  assert (∀ x, x ∈ cs →
    hasId (Some (id c1)) x || hasId (Some (id c2)) x ↔ emoji x = emoji c1) as Hpair.
  { intros x Hx. unfold hasId. rewrite orb_True, !bool_decide_spec. split.
    - intros [Hid|Hid]; simplify_eq;
        [by rewrite (board_ok_id_inj cs x c1)|by rewrite (board_ok_id_inj cs x c2)].
    - intros Hx1. destruct Hboard as (? & ? & _).
      destruct (pair_only cs) with c1 c2 x; auto with f_equal. }
  intros c c' (x & Hx & _ & -> & ->)%matchCards_elem_of
    (x' & Hx' & _ & -> & ->)%matchCards_elem_of Hxx'.
  pose proof (Hpair x Hx) as Hh. pose proof (Hpair x' Hx') as Hh'.
  rewrite Hxx' in Hh. rewrite <-Hh' in Hh.
  destruct (hasId (Some (id c1)) x || hasId (Some (id c2)) x),
    (hasId (Some (id c1)) x' || hasId (Some (id c2)) x'); simpl in *; naive_solver.
Qed.

(** ** The callbacks keep the pairs *)

(** What [checkForMatch] found when it scheduled the match callback: two
    cards with the same emoji, under the first two ids. *)
Lemma pairOutcome_match ids cs id1 id2 :
  pairOutcome ids cs = MatchTimeout id1 id2 →
  ∃ c1 c2, c1 ∈ cs ∧ c2 ∈ cs ∧ emoji c2 = emoji c1
           ∧ id1 = Some (id c1) ∧ id2 = Some (id c2)
           ∧ ids !! 0 = id1 ∧ ids !! 1 = id2.
Proof.
  unfold pairOutcome.
  destruct (find (hasId (ids !! 0)) cs) as [c1|] eqn:H1; [|done].
  destruct (find (hasId (ids !! 1)) cs) as [c2|] eqn:H2; [|done].
  case_bool_decide; [|done]. intros [= <- <-].
  apply find_some in H1 as [?%list_elem_of_In ?%bool_decide_eq_true].
  apply find_some in H2 as [?%list_elem_of_In ?%bool_decide_eq_true].
  by exists c1, c2.
Qed.

Lemma resolve_matched_pairs e :
  engine_inv e → matched_pairs (cards e) → matched_pairs (cards (resolve e)).
Proof.
  intros (Hboard & (Hnd & _) & _) Hcs. unfold resolve. cbn [cards].
  destruct (pairOutcome _ _) as [id1 id2|id1 id2] eqn:Hout;
    [|by apply unflipCards_matched_pairs].
  apply pairOutcome_match in Hout
    as (c1 & c2 & H1 & H2 & He & -> & -> & Hid1 & Hid2).
  apply matchCards_matched_pairs; try done.
  intros Hid. rewrite <-Hid in Hid2.
  by pose proof (NoDup_lookup _ _ _ _ Hnd Hid1 Hid2).
Qed.

Lemma react_matched_pairs ev d w :
  world_inv w → enabled ev w →
  matched_pairs (cards (engine w)) → matched_pairs (cards (engine (react ev d w))).
Proof.
  intros Hinv Hen Hw. rewrite react_nextEngine by done.
  destruct ev as [[]|c| |i]; cbn [nextEngine cards]; try done.
  - eapply matched_pairs_fresh, Forall_impl; [apply newCards_face_down|].
    by intros c [_ ?].
  - by constructor.
  - case_match; [|done]. rewrite clicked_cards. by apply flipCard_matched_pairs.
  - apply resolve_matched_pairs; [apply Hinv|done].
Qed.

Lemma reachable_matched_pairs w : reachable w → matched_pairs (cards (engine w)).
Proof.
  revert w. apply reachable_ind; [|apply react_matched_pairs].
  intros store. destruct (initialWorld_state store) as [-> _]. constructor.
Qed.

(** C12: in every reachable world the two cards of a pair are matched
    together: cards with the same emoji carry the same matched flag. *)
Theorem matched_in_pairs w c c' :
  reachable w → c ∈ cards (engine w) → c' ∈ cards (engine w) →
  emoji c = emoji c' → isMatched c = isMatched c'.
Proof. intros Hw%reachable_matched_pairs. by apply matched_pairs_spec. Qed.

Lemma matched_in_pairs_witness :
  let w := after pairDone in
  isMatched (cardAt 0 w) = isMatched (cardAt 8 w)
  ∧ isMatched (cardAt 1 w) = isMatched (cardAt 9 w).
Proof.
  split.
  - apply (matched_in_pairs (after pairDone));
      [apply after_reachable, pairDone_plays|by_compute..].
  - apply (matched_in_pairs (after pairDone));
      [apply after_reachable, pairDone_plays|by_compute..].
Defined.
