(* ===== verification/Delivery.v ===== *)
(** * Delivery: what the browser delivers

    [Game.enabled] lets the browser deliver a click on any card of the
    grid.  The page is more careful: a matched card is switched off
    ([pointer-events-none] in [src/components/GameEngine.tsx]), so its click
    never arrives.  [Delivery] is the interface between the two: a delivery
    hands over only events that are enabled, and at least those that are
    gentle, that is, all but the clicks on matched cards.  The theorems of
    this file hold for every delivery: its runs are runs of [Game.run], and
    it reaches the worlds [Game.step] reaches, because the guard of
    [handleCardClick] turns away what the page would have switched off. *)

From S2P Require Import Prelude Types Shuffle Board Storage Engine App GameUI.
From S2P Require Import Game Invariant Runs.

Implicit Types (c : Card) (w : World) (d : Draws) (ev : Event).

(** ** What the browser delivers *)

(** A click on a card that is matched asks for more than the page
    promises: the card is switched off. *)
Definition gentle (ev : Event) : Prop :=
  match ev with
  | ClickCard c => isMatched c = false
  | _ => True
  end.

#[export] Instance gentle_dec ev : Decision (gentle ev).
Proof. destruct ev; simpl; apply _. Defined.

(** A delivery of events: only events that are enabled, and all of them
    that are gentle. *)
Class Delivery (deliver : Event → World → Prop) := {
  delivery_dec ev w :: Decision (deliver ev w);
  delivery_enabled ev w : deliver ev w → enabled ev w;
  delivery_gentle ev w : enabled ev w → gentle ev → deliver ev w;
}.

#[export] Instance enabled_Delivery : Delivery enabled.
Proof. by split; [apply _|..]. Qed.

(** [run], with the events of a delivery. *)
Fixpoint runWith (deliver : Event → World → Prop) `{!Delivery deliver}
    (evs : list (Event * Draws)) (w : World) : option World :=
  match evs with
  | [] => Some w
  | (ev, d) :: evs' =>
      if decide (deliver ev w) then runWith deliver evs' (react ev d w)
      else None
  end.

(** One event of a delivery. *)
Inductive stepWith (deliver : Event → World → Prop) : World → World → Prop :=
  | stepWith_event ev d w : deliver ev w → stepWith deliver w (react ev d w).

Definition reachableWith (deliver : Event → World → Prop) (w : World) : Prop :=
  ∃ store, rtc (stepWith deliver) (initialWorld store) w.

(** ** Clicks the guard turns away *)

Lemma react_rejected c d w :
  stable w → accepts (rendered w) c = false → react (ClickCard c) d w = w.
Proof.
  intros Hw Hacc. unfold react, handle, dispatch.
  rewrite handleCardClick_rejected by done.
  rewrite settle_stable_id; by destruct w.
Qed.

Lemma accepts_matched (e : Engine) (a : App) c :
  isMatched c = true → accepts (e, a) c = false.
Proof.
  intros Hm. unfold accepts. by rewrite Hm, andb_false_r.
Qed.

(** An event that is not gentle changes nothing. *)
Lemma react_rough ev d w : stable w → ¬ gentle ev → react ev d w = w.
Proof.
  destruct ev as [|c| |]; simpl; [done| |done..]. intros Hw Hm.
  apply react_rejected, accepts_matched; [done|]. by destruct (isMatched c).
Qed.

(** ** Every delivery *)

Section delivery.
Context `{!Delivery deliver}.

Lemma runWith_run evs w w' :
  runWith deliver evs w = Some w' → run evs w = Some w'.
Proof.
  revert w. induction evs as [|[ev d] evs IH]; intros w; [done|]. simpl.
  case_decide as Hev; [|done]. apply delivery_enabled in Hev.
  rewrite decide_True by done. apply IH.
Qed.

Lemma stepWith_step w w' : stepWith deliver w w' → step w w'.
Proof. intros Hstep. destruct Hstep. constructor. by apply delivery_enabled. Qed.

(** A step of the game is a step of the delivery, or changes nothing. *)
Lemma step_stepWith w w' :
  stable w → step w w' → w' = w ∨ stepWith deliver w w'.
Proof.
  intros Hw Hstep. destruct Hstep as [ev d' w Hev].
  destruct (decide (gentle ev)) as [Hg|Hg].
  - right. constructor. by apply delivery_gentle.
  - left. by apply react_rough.
Qed.

Lemma rtc_stepWith_step w w' : rtc (stepWith deliver) w w' → rtc step w w'.
Proof. apply rtc_subrel. intros ??. apply stepWith_step. Qed.

Lemma rtc_step_stepWith w w' :
  world_inv w → rtc step w w' → rtc (stepWith deliver) w w'.
Proof.
  intros Hinv Hrtc. revert w' Hrtc. apply rtc_ind_r; [done|].
  intros w' w'' Hrtc Hstep IH.
  destruct (invariant_rtc w w' Hinv Hrtc) as [_ Hstable].
  destruct (step_stepWith w' w'' Hstable Hstep) as [->|Hstep'];
    [done|by eapply rtc_r].
Qed.

(** The delivery reaches the worlds of the game. *)
Lemma reachableWith_reachable w : reachableWith deliver w ↔ reachable w.
Proof.
  split; intros [store Hrtc]; exists store.
  - by apply rtc_stepWith_step.
  - by apply rtc_step_stepWith; [apply initialWorld_inv|].
Qed.

End delivery.
