(* ===== verification/Liveness.v ===== *)
(** * Liveness: every game can be finished

    The safety theorems say what never happens; this file shows that the
    game never gets stuck.  From every reachable world there is a run of
    events (clicks the handlers of [src/components/GameEngine.tsx] accept
    and callbacks that are pending) that ends in GAME_OVER, and it is
    short: the player turns a card that is not matched, then its partner,
    and the callback marks both.  The measure is the number of cards that
    are not matched ([unmatched]); a round takes three events and lowers
    it by two.  The partner lies face down because matched cards come in
    pairs ([Pairs]).

    The run is built against the interface [Delivery]: it uses only
    events every browser delivers, so it is a run of [Game.run] and a run
    of the clicks the markup offers ([View]). *)

From S2P Require Import Prelude Types Shuffle Board Storage Engine App GameUI.
From S2P Require Import Game Invariant Runs Reducer Pairs Delivery.

Implicit Types (cs : list Card) (c : Card) (e : Engine) (w : World) (d : Draws).

(** ** The measure *)

(** The cards that are not matched yet. *)
Definition unmatched (cs : list Card) : nat := occ false (isMatched <$> cs).

Lemma unmatched_cons c cs :
  unmatched (c :: cs) = (if isMatched c then 0 else 1) + unmatched cs.
Proof. unfold unmatched. rewrite fmap_cons, occ_cons. by destruct (isMatched c). Qed.

Lemma unmatched_le_length cs : unmatched cs ≤ length cs.
Proof. unfold unmatched. by rewrite occ_le_length, length_fmap. Qed.

Lemma unmatched_zero cs : unmatched cs = 0 → Forall (λ c, isMatched c) cs.
Proof.
  induction cs as [|c cs IH]; [done|]. rewrite unmatched_cons.
  destruct (isMatched c) eqn:Hc; [|lia]. intros ?. constructor; [by rewrite Hc|auto].
Qed.

Lemma unmatched_flipCard i cs : unmatched (flipCard i cs) = unmatched cs.
Proof. unfold unmatched. by rewrite flipCard_isMatched. Qed.

(** A card that is not matched, if there is one. *)
Lemma unmatched_card cs :
  ¬ Forall (λ c, isMatched c) cs → ∃ c, c ∈ cs ∧ isMatched c = false.
Proof.
  intros (c & Hc & Hm)%not_Forall_Exists%Exists_exists; [|apply _].
  exists c. split; [done|]. simpl in Hm. by destruct (isMatched c).
Qed.

(** The cards [matchCards] marks and that were not matched. *)
Definition hits (a b : option string) (cs : list Card) : list Card :=
  filter (λ c, (hasId a c || hasId b c) ∧ isMatched c = false) cs.

Lemma unmatched_matchCards a b cs :
  unmatched (matchCards a b cs) + length (hits a b cs) = unmatched cs.
Proof.
  induction cs as [|c cs IH]; [done|]. unfold hits in *.
  rewrite filter_cons. unfold matchCards in *. rewrite fmap_cons, !unmatched_cons.
  destruct (hasId a c || hasId b c), (isMatched c) eqn:Hc; simpl;
    try case_decide; simpl; naive_solver lia.
Qed.

(** Matching two cards that were not matched leaves two cards less. *)
Lemma unmatched_pair cs c1 c2 :
  c1 ∈ cs → c2 ∈ cs → id c1 ≠ id c2 →
  isMatched c1 = false → isMatched c2 = false →
  unmatched (matchCards (Some (id c1)) (Some (id c2)) cs) + 2 ≤ unmatched cs.
Proof.
  intros H1 H2 Hne Hm1 Hm2.
  rewrite <-(unmatched_matchCards (Some (id c1)) (Some (id c2)) cs).
  apply Nat.add_le_mono_l.
  assert ([c1; c2] ⊆+ hits (Some (id c1)) (Some (id c2)) cs) as Hsub.
  { apply NoDup_submseteq; [repeat constructor; set_solver|].
    intros c Hc. apply list_elem_of_filter. unfold hasId.
    rewrite orb_True, !bool_decide_spec. set_solver. }
  by apply submseteq_length in Hsub.
Qed.

(** At most two cards carry one of two ids. *)
Lemma hits_length a b cs : NoDup (id <$> cs) → length (hits a b cs) ≤ 2.
Proof.
  intros Hids. rewrite <-(length_fmap (Some ∘ id)).
  assert (length [a; b] = 2) as <- by done.
  apply submseteq_length, NoDup_submseteq.
  - rewrite list_fmap_compose. apply (NoDup_fmap_2 _).
    eapply sublist_NoDup; [done|]. apply fmap_sublist, sublist_filter.
  - intros i (c & -> & [Hc _]%list_elem_of_filter)%list_elem_of_fmap.
    unfold hasId in Hc. rewrite orb_True, !bool_decide_spec in Hc. set_solver.
Qed.

(** The cards that are matched. *)
Definition matchedCount (cs : list Card) : nat := occ true (isMatched <$> cs).

Lemma matchedCount_cons c cs :
  matchedCount (c :: cs) = (if isMatched c then 1 else 0) + matchedCount cs.
Proof.
  unfold matchedCount. rewrite fmap_cons, occ_cons. by destruct (isMatched c).
Qed.

Lemma matchedCount_unmatched cs : matchedCount cs + unmatched cs = length cs.
Proof.
  induction cs as [|c cs IH]; [done|].
  rewrite matchedCount_cons, unmatched_cons. simpl. destruct (isMatched c); lia.
Qed.

Lemma matchedCount_flags cs cs' :
  isMatched <$> cs = isMatched <$> cs' → matchedCount cs = matchedCount cs'.
Proof. unfold matchedCount. by intros ->. Qed.

Lemma matchedCount_fresh cs :
  Forall (λ c, isMatched c = false) cs → matchedCount cs = 0.
Proof.
  induction 1 as [|c cs Hc _ IH]; [done|]. by rewrite matchedCount_cons, Hc.
Qed.

Lemma matchedCount_all cs :
  Forall (λ c, isMatched c) cs → matchedCount cs = length cs.
Proof.
  induction 1 as [|c cs Hc _ IH]; [done|].
  rewrite matchedCount_cons, IH. by destruct (isMatched c).
Qed.

(** A match adds at most two matched cards. *)
Lemma matchedCount_matchCards a b cs :
  NoDup (id <$> cs) → matchedCount (matchCards a b cs) ≤ matchedCount cs + 2.
Proof.
  intros Hids%(hits_length a b).
  pose proof (matchedCount_unmatched cs).
  pose proof (matchedCount_unmatched (matchCards a b cs)) as Hm.
  rewrite matchCards_length in Hm.
  pose proof (unmatched_matchCards a b cs). lia.
Qed.

(** ** Runs that end the game *)

Definition playing (w : World) : Prop := app_gameState (app w) = PLAYING.

(** The invariants a run keeps. *)
Definition live (w : World) : Prop :=
  world_inv w ∧ matched_pairs (cards (engine w)).

Section finish.
Context `{!Delivery deliver}.

(** Some run of at most [n] events leads from [w] to the end of the game. *)
Definition winsIn (n : nat) (w : World) : Prop :=
  ∃ evs w', length evs ≤ n ∧ runWith deliver evs w = Some w'
            ∧ app_gameState (app w') = GAME_OVER.

Lemma winsIn_over n w : app_gameState (app w) = GAME_OVER → winsIn n w.
Proof. intros Hw. exists [], w. simpl. split_and!; [lia|done..]. Qed.

Lemma winsIn_step ev d n w :
  enabled ev w → gentle ev → winsIn n (react ev d w) → winsIn (S n) w.
Proof.
  intros Hen Hev (evs & w' & Hlen & Hrun & Hw'). exists ((ev, d) :: evs), w'.
  simpl. rewrite decide_True by by apply delivery_gentle.
  split_and!; [lia|done..].
Qed.

Lemma winsIn_mono n m w : n ≤ m → winsIn n w → winsIn m w.
Proof. intros Hnm (evs & w' & ? & ? & ?). exists evs, w'. split_and!; [lia|done..]. Qed.

End finish.

Lemma react_live ev d w : live w → enabled ev w → live (react ev d w).
Proof.
  intros [Hinv Hpairs] Hen. split; [|by apply react_matched_pairs].
  eapply step_inv; [done|by constructor].
Qed.

(** ** One event *)

(** A click on a card that lies face down, while the board is not locked. *)
Lemma click_outcome d w c :
  world_inv w → playing w → c ∈ cards (engine w) →
  isProcessing (engine w) = false → isMatched c = false → isFlipped c = false →
  engine (react (ClickCard c) d w) = clicked c (engine w)
  ∧ playing (react (ClickCard c) d w).
Proof.
  intros Hinv Hplay Hc Hproc Hm Hf. unfold playing in *.
  rewrite react_nextEngine, react_nextApp, nextApp_gameState by done.
  split; [|done]. cbn [nextEngine]. unfold accepts, rendered.
  cbn [fst snd gameState App_props].
  by rewrite Hplay, Hproc, Hm, Hf, bool_decide_eq_true_2.
Qed.

(** The callback of two selected cards. *)
Lemma fire_outcome d w :
  world_inv w → playing w → length (flippedIds (engine w)) = 2 →
  enabled (TimeoutFires 0) w
  ∧ engine (react (TimeoutFires 0) d w) = resolve (engine w)
  ∧ (app_gameState (app (react (TimeoutFires 0) d w)) = GAME_OVER
     ∨ playing (react (TimeoutFires 0) d w)).
Proof.
  intros Hinv Hplay Hlen. unfold playing in *.
  assert (enabled (TimeoutFires 0) w) as Hen.
  { destruct Hinv as [((_ & _ & _ & Hproc & Htime) & _) _].
    rewrite Hproc, bool_decide_eq_true_2 in Htime by done.
    cbn [enabled]. by rewrite Htime. }
  rewrite react_nextEngine, react_nextApp, nextApp_gameState by done.
  split_and!; [done..|]. destruct (finishes w); auto.
Qed.

(** ** One round *)

(** With one card selected, its partner lies face down. *)
Lemma partner_selectable e a :
  engine_inv e → matched_pairs (cards e) → flippedIds e = [a] →
  ∃ c c', c ∈ cards e ∧ c' ∈ cards e ∧ id c = a ∧ id c' ≠ id c
    ∧ emoji c' = emoji c
    ∧ isMatched c = false ∧ isMatched c' = false ∧ isFlipped c' = false.
Proof.
  intros ((Hids & Hpaired & _) & (_ & Hsub & Hsel) & _) Hpairs Ha.
  rewrite Ha in Hsub, Hsel. rewrite Forall_forall in Hsel.
  assert (a ∈ id <$> cards e) as (c & -> & Hc)%list_elem_of_fmap by set_solver.
  destruct (partner_exists _ Hids Hpaired c Hc) as (c' & Hc' & Hne & He).
  pose proof (Hsel c Hc) as Hsc. pose proof (Hsel c' Hc') as Hsc'.
  rewrite list_elem_of_singleton in Hsc, Hsc'.
  assert (isMatched c = false) as Hm by (destruct (isMatched c); naive_solver).
  assert (isMatched c' = false) as Hm'.
  { rewrite <-Hm. rewrite matched_pairs_spec in Hpairs. by apply Hpairs. }
  exists c, c'. split_and!; try done.
  destruct (isFlipped c') eqn:?; [|done]. rewrite Hm' in Hsc'. naive_solver.
Qed.

(** With no card selected, a card that is not matched lies face down. *)
Lemma unmatched_face_down e c :
  engine_inv e → flippedIds e = [] → c ∈ cards e → isMatched c = false →
  isFlipped c = false.
Proof.
  intros (_ & (_ & _ & Hsel) & _) Hnil Hc Hm. rewrite Forall_forall in Hsel.
  specialize (Hsel c Hc). rewrite Hnil, Hm in Hsel.
  destruct (isFlipped c); [|done]. set_solver.
Qed.

(** The lock is open while fewer than two cards are selected. *)
Lemma unlocked e : engine_inv e → length (flippedIds e) < 2 → isProcessing e = false.
Proof. intros (_ & _ & _ & -> & _) Hlen. apply bool_decide_eq_false. lia. Qed.

(** Two cards with the same emoji are a match, whichever card was turned
    last. *)
Lemma pairOutcome_pair cs c c' i :
  NoDup (id <$> cs) → c ∈ cs → c' ∈ cs → emoji c' = emoji c →
  pairOutcome [id c; id c'] (flipCard i cs)
  = MatchTimeout (Some (id c)) (Some (id c')).
Proof.
  intros Hids Hc Hc' He. unfold flipCard.
  rewrite pairOutcome_keeps by keeps_face. unfold pairOutcome. simpl (_ !! _).
  rewrite !find_hasId_elem_of by done. by rewrite bool_decide_eq_true_2.
Qed.

(** The click on the partner schedules the callback of a match. *)
Lemma clicked_pair e c c' :
  engine_inv e → flippedIds e = [id c] → c ∈ cards e → c' ∈ cards e →
  emoji c' = emoji c →
  clicked c' e =
    mkEngine (flipCard (id c') (cards e)) [id c; id c'] true
      [MatchTimeout (Some (id c)) (Some (id c'))].
Proof.
  intros Hinv Ha Hc Hc' He. pose proof Hinv as ((Hids & _) & _ & _ & _ & Htime).
  rewrite (unlocked e) in Htime by (rewrite ?Ha; simpl; done || lia).
  unfold clicked. rewrite Ha, Htime. simpl (_ ++ _).
  rewrite bool_decide_eq_true_2 by done. by rewrite pairOutcome_pair.
Qed.

(** The callback that follows the click on the partner marks the pair. *)
Lemma resolve_pair e c c' :
  engine_inv e → flippedIds e = [id c] → c ∈ cards e → c' ∈ cards e →
  emoji c' = emoji c →
  resolve (clicked c' e) =
    mkEngine (matchCards (Some (id c)) (Some (id c')) (flipCard (id c') (cards e)))
      [] false [].
Proof.
  intros Hinv Ha Hc Hc' He. rewrite (clicked_pair e c) by done.
  unfold resolve. cbn [cards flippedIds].
  by rewrite pairOutcome_pair by (done || apply Hinv).
Qed.

Lemma unmatched_matchCards_flipCard a b i cs :
  unmatched (matchCards a b (flipCard i cs)) = unmatched (matchCards a b cs).
Proof.
  unfold unmatched, matchCards, flipCard. rewrite <-!list_fmap_compose.
  f_equal. apply list_fmap_ext. intros ? c ?. simpl. unfold hasId.
  destruct (bool_decide (id c = i)); simpl; by case_match.
Qed.

(** While a game is played the board is complete and not all matched. *)
Lemma playing_board w :
  world_inv w → playing w →
  length (cards (engine w)) = 2 * PAIRS_COUNT
  ∧ ¬ Forall (λ c, isMatched c) (cards (engine w)).
Proof.
  intros [(_ & Hphase & _) _] Hplay. unfold phase_ok in Hphase.
  rewrite Hplay in Hphase. naive_solver.
Qed.

Section round.
Context `{!Delivery deliver} (d : Draws) (n : nat).
Context (IH : ∀ w, live w → playing w → flippedIds (engine w) = [] →
                unmatched (cards (engine w)) ≤ 2 * n → winsIn (3 * n) w).

(** Two cards are selected: their callback runs. *)
Lemma fire_wins w :
  live w → playing w → length (flippedIds (engine w)) = 2 →
  unmatched (cards (resolve (engine w))) ≤ 2 * n → winsIn (1 + 3 * n) w.
Proof using All.
  intros Hlive Hplay Hlen Hun.
  destruct (fire_outcome d w) as (Hen & He & Hphase); [apply Hlive|done..|].
  apply (winsIn_step (TimeoutFires 0) d); [done..|].
  destruct Hphase as [Hover|Hplay']; [by apply winsIn_over|].
  apply IH; [by apply react_live|done|by rewrite He|by rewrite He].
Qed.

(** One card is selected: the player turns its partner. *)
Lemma partner_wins w a :
  live w → playing w → flippedIds (engine w) = [a] →
  unmatched (cards (engine w)) ≤ 2 * S n → winsIn (2 + 3 * n) w.
Proof using All.
  intros Hlive Hplay Ha Hun. destruct (Hlive) as [Hinv Hpairs].
  pose proof Hinv as [(Heng & _) _].
  destruct (partner_selectable (engine w) a)
    as (c & c' & Hc & Hc' & <- & Hne & He & Hm & Hm' & Hf'); [done..|].
  assert (isProcessing (engine w) = false) as Hproc.
  { apply unlocked; [done|]. rewrite Ha. simpl. lia. }
  destruct (click_outcome d w c') as [He1 Hplay1]; [done..|].
  apply (winsIn_step (ClickCard c') d); [done..|].
  apply fire_wins; [by apply react_live|done|..].
  - by rewrite He1, clicked_flippedIds, Ha.
  - rewrite He1, (resolve_pair _ c) by done. cbn [cards].
    rewrite unmatched_matchCards_flipCard.
    pose proof (unmatched_pair (cards (engine w)) c c') as Hpair.
    specialize (Hpair Hc Hc' (not_eq_sym Hne) Hm Hm'). lia.
Qed.

(** No card is selected: the player turns a card that is not matched. *)
Lemma first_wins w :
  live w → playing w → flippedIds (engine w) = [] →
  unmatched (cards (engine w)) ≤ 2 * S n → winsIn (3 + 3 * n) w.
Proof using All.
  intros Hlive Hplay Hnil Hun. destruct (Hlive) as [Hinv Hpairs].
  pose proof Hinv as [(Heng & _) _].
  destruct (playing_board w) as [_ (c & Hc & Hm)%unmatched_card]; [done..|].
  assert (isProcessing (engine w) = false) as Hproc.
  { apply unlocked; [done|]. rewrite Hnil. simpl. lia. }
  destruct (click_outcome d w c) as [He1 Hplay1];
    [by eauto using unmatched_face_down..|].
  apply (winsIn_step (ClickCard c) d); [done..|].
  apply (partner_wins _ (id c)); [by apply react_live|done|..].
  - by rewrite He1, clicked_flippedIds, Hnil.
  - by rewrite He1, clicked_cards, unmatched_flipCard.
Qed.

End round.

Lemma reachable_live w : reachable w → live w.
Proof.
  intros Hw. split; [|by apply reachable_matched_pairs]. by reach_inv Hw.
Qed.

Lemma board_unmatched w :
  world_inv w → playing w → unmatched (cards (engine w)) ≤ 2 * PAIRS_COUNT.
Proof.
  intros Hinv Hplay. destruct (playing_board w) as [<- _]; [done..|].
  apply unmatched_le_length.
Qed.

Section wins.
Context `{!Delivery deliver}.

(** From a board with no card selected the game can be finished with three
    events for every pair that is left. *)
Lemma clean_wins d n w :
  live w → playing w → flippedIds (engine w) = [] →
  unmatched (cards (engine w)) ≤ 2 * n → winsIn (3 * n) w.
Proof.
  revert w. induction n as [|n IH]; intros w Hlive Hplay Hnil Hun.
  - destruct (playing_board w) as [_ []]; [apply Hlive|done|].
    apply unmatched_zero. lia.
  - apply (winsIn_mono (3 + 3 * n)); [lia|]. by apply (first_wins d n IH).
Qed.

(** ** Every game can be finished *)

(** While a game is played. *)
Lemma playing_wins d w : live w → playing w → winsIn (3 * PAIRS_COUNT + 1) w.
Proof.
  intros Hlive Hplay. pose proof Hlive as [Hinv _].
  pose proof (board_unmatched w Hinv Hplay) as Hun.
  pose proof Hinv as [((_ & _ & Hlen & _) & _) _].
  destruct (flippedIds (engine w)) as [|a [|b [|]]] eqn:Hids;
    simpl in Hlen; [..|lia].
  - apply (winsIn_mono (3 * PAIRS_COUNT)); [lia|]. by apply (clean_wins d).
  - apply (winsIn_mono (2 + 3 * pred PAIRS_COUNT)); [simpl; lia|].
    by apply (partner_wins d _ (clean_wins d _) w a).
  - apply (winsIn_mono (1 + 3 * PAIRS_COUNT)); [lia|].
    apply (fire_wins d _ (clean_wins d _)); [done|done|by rewrite Hids|].
    rewrite unmatched_le_length, resolve_length.
    by destruct (playing_board w) as [-> _].
Qed.

(** On the start screen. *)
Lemma start_wins d w :
  live w → app_gameState (app w) = START → winsIn (3 * PAIRS_COUNT + 1) w.
Proof.
  intros Hlive Hstart. pose proof Hlive as [Hinv _].
  assert (enabled (ClickButton StartGame) w) as Hen by (apply enabled_button; auto).
  destruct (react_start d w Hinv Hstart) as [He Ha].
  rewrite Nat.add_1_r. apply (winsIn_step (ClickButton StartGame) d); [done..|].
  apply (clean_wins d);
    [by apply react_live|unfold playing; by rewrite Ha|by rewrite He|].
  rewrite He. cbn [cards]. by rewrite unmatched_le_length, newCards_length.
Qed.

(** From every reachable world, with the events of any delivery. *)
Lemma reachable_wins w : reachable w → winsIn (3 * PAIRS_COUNT + 1) w.
Proof.
  intros Hlive%reachable_live.
  destruct (app_gameState (app w)) eqn:Hphase.
  - by apply (start_wins plainDraws).
  - by apply (playing_wins plainDraws).
  - by apply winsIn_over.
Qed.

End wins.

(** C7: every game can be finished.  From every reachable world some run
    of events leads to the end of a game, and it needs no more than three
    events for each pair (two clicks and the callback) and one click on
    "Start Game". *)
Theorem winnable w :
  reachable w →
  ∃ evs w', length evs ≤ 3 * PAIRS_COUNT + 1 ∧ run evs w = Some w'
            ∧ app_gameState (app w') = GAME_OVER.
Proof.
  intros (evs & w' & ? & ?%runWith_run & ?)%(reachable_wins (deliver:=enabled)).
  by exists evs, w'.
Qed.

Lemma winnable_witness :
  ∃ evs w', length evs ≤ 3 * PAIRS_COUNT + 1 ∧ run evs (after oddUp) = Some w'
            ∧ app_gameState (app w') = GAME_OVER.
Proof. apply (winnable (after oddUp)), after_reachable, oddUp_plays. Defined.

(** The game without a mistake is such a run from the start screen. *)
Example perfectGame_wins :
  let evs := eventsOf plainDraws perfectGame mounted in
  length evs = 3 * PAIRS_COUNT + 1
  ∧ app_gameState ∘ app <$> run evs mounted = Some GAME_OVER.
Proof. vm_compute. done. Qed.
