(* ===== verification/View.v ===== *)
(** * View: the page of [src/App.tsx]

    What [App] returns: the background, the main area with the grid of
    [GameEngine], and the overlay of [GameUI], as one tree whose handlers
    are the events of [Game].  The clicks the page offers are read off the
    tree ([clicks]); with the turns of the interval and the pending
    callbacks they are a delivery ([offers], an instance of
    [Liveness.Delivery]) that lies between the events of [Game.enabled] and
    those of them that are gentle: what the markup switches off is exactly
    the clicks on matched cards.  Every game can be finished with the
    clicks the page offers, and under an overlay no card takes a click. *)

From S2P Require Import Prelude Markup Types Shuffle Board Storage Engine Grid.
From S2P Require Import GameUI App Game Invariant Runs Pairs Delivery Liveness.

#[local] Open Scope string_scope.

Implicit Types (c : Card) (w : World) (ev : Event).

(** ** The page *)

(** The return value of [App]: a component in the tree is the tree it
    returns, its handlers delivered as events. *)
Definition appView (w : World) : Node Event :=
  Elem "div" [ClassName "relative w-full h-full bg-slate-100 overflow-hidden no-select flex flex-col"]
    [Elem "div" [ClassName "absolute inset-0 pointer-events-none bg-gradient-to-br from-blue-50 to-indigo-100"] [Elem "div" [ClassName "absolute top-0 left-0 w-full h-full opacity-30 bg-[radial-gradient(#4f46e5_1px,transparent_1px)] [background-size:20px_20px]"] []];
     Elem "div" [ClassName "relative z-0 w-full h-full flex items-center justify-center"]
       (option_list (nmap ClickCard <$> renderGameEngine (rendered w)));
     nmap ClickButton (renderGameUI (app w))].

#[local] Close Scope string_scope.

(** The clicks the page takes. *)
Definition clicks (w : World) : list Event := offered true (appView w).

(** What the browser delivers to the page: the clicks it takes, the turns
    of a running interval, the pending callbacks. *)
Definition offers (ev : Event) (w : World) : Prop :=
  match ev with
  | ClickButton _ | ClickCard _ => ev ∈ clicks w
  | Tick | TimeoutFires _ => enabled ev w
  end.

#[export] Instance offers_dec ev w : Decision (offers ev w).
Proof. destruct ev; simpl; apply _. Defined.

(** ** The clicks of the page *)

(** The cards that take a click. *)
Definition clickable (w : World) : list Card :=
  filter (λ c, isMatched c = false) (cards (engine w)).

Lemma offered_grid w :
  flat_map (offered true)
    (option_list (nmap ClickCard <$> renderGameEngine (rendered w)))
  = ClickCard <$> clickable w.
Proof.
  destruct (renderGameEngine (rendered w)) as [n|] eqn:Hn; simpl.
  - rewrite app_nil_r, offered_nmap. f_equal.
    by apply (renderGameEngine_offered (rendered w)).
  - apply renderGameEngine_None in Hn. unfold renderGrid in Hn.
    case_match eqn:Hempty; [|done]. unfold clickable.
    apply andb_prop in Hempty as [_ Hnil%bool_decide_eq_true].
    apply nil_length_inv in Hnil. simpl in Hnil. by rewrite Hnil.
Qed.

(** The page takes the clicks on the cards that are not matched and on the
    buttons of the screen, and no other. *)
Lemma clicks_eq w :
  clicks w = (ClickCard <$> clickable w)
             ++ (ClickButton <$> buttonsOf (renderUI (app w))).
Proof.
  unfold clicks, appView. rewrite offered_Elem.
  cbn [handlers mbind list_bind pointerEvents classes flat_map]. 
  rewrite !offered_Elem. 
  change (pointerEvents true [ClassName _]) with true.
  rewrite offered_grid, offered_nmap, offered_renderGameUI.
  by destruct (hit _ _), (hit _ _); simpl; rewrite ?app_nil_r.
Qed.

Lemma elem_of_clickable c w :
  c ∈ clickable w ↔ c ∈ cards (engine w) ∧ isMatched c = false.
Proof. unfold clickable. rewrite list_elem_of_filter. tauto. Qed.

Lemma offers_iff ev w : offers ev w ↔ enabled ev w ∧ gentle ev.
Proof.
  destruct ev as [b|c| |i]; simpl; [..|tauto|tauto]; rewrite clicks_eq.
  - rewrite elem_of_app, !list_elem_of_fmap. split.
    + intros [(? & ? & ?)|(? & ? & ?)]; by simplify_eq.
    + intros [? _]. right. by exists b.
  - rewrite elem_of_app, !list_elem_of_fmap. setoid_rewrite elem_of_clickable.
    split.
    + intros [(? & ? & ?)|(? & ? & ?)]; by simplify_eq.
    + intros [? ?]. left. by exists c.
Qed.

#[export] Instance offers_Delivery : Delivery offers.
Proof.
  split; [apply _|..]; intros ev w; rewrite offers_iff; tauto.
Qed.

(** C21: the page takes the clicks on the buttons of the screen shown and on
    the cards of the board that are not matched, and no other: of the
    events of the game it leaves out exactly the clicks on matched cards. *)
Theorem page_offers ev w : offers ev w ↔ enabled ev w ∧ gentle ev.
Proof. apply offers_iff. Qed.

(** ** The game through the page *)

(** C22: the worlds reached through the page are the worlds of the game:
    what the markup switches off, the guard of [handleCardClick] would have
    turned away. *)
Theorem page_reaches w : reachableWith offers w ↔ reachable w.
Proof. apply reachableWith_reachable. Qed.

(** C23: every game can be finished with the clicks the page takes and the
    callbacks that are pending, in at most three events for each pair and
    one for the start button. *)
Theorem winnable_by_clicks w :
  reachable w →
  ∃ evs w', length evs ≤ 3 * PAIRS_COUNT + 1
            ∧ runWith offers evs w = Some w'
            ∧ app_gameState (app w') = GAME_OVER.
Proof. apply reachable_wins. Qed.

Lemma winnable_by_clicks_witness :
  ∃ evs w', length evs ≤ 3 * PAIRS_COUNT + 1
            ∧ runWith offers evs (after oddUp) = Some w'
            ∧ app_gameState (app w') = GAME_OVER.
Proof.
  apply (winnable_by_clicks (after oddUp)), after_reachable, oddUp_plays.
Defined.

(** ** Under an overlay *)

Lemma clickable_nil w :
  world_inv w → app_gameState (app w) ≠ PLAYING → clickable w = [].
Proof.
  intros [(_ & Hphase & _) _] Hplay. unfold phase_ok in Hphase.
  unfold clickable. destruct (app_gameState (app w)); [|done|].
  - by destruct Hphase as [-> _].
  - destruct Hphase as (_ & _ & _ & Hall & _).
    induction Hall as [|c cs Hc _ IH]; [done|].
    rewrite filter_cons, IH. case_decide as Hm; [|done].
    by rewrite Hm in Hc.
Qed.

(** While the start screen or the end screen lies over the board no
    card takes a click: the page takes the click on the button of the
    screen and nothing else. *)
Theorem overlay_blocks_board w :
  reachable w → app_gameState (app w) ≠ PLAYING →
  clicks w = ClickButton <$> buttonsOf (renderUI (app w)).
Proof.
  intros Hinv Hphase. reach_inv Hinv. by rewrite clicks_eq, clickable_nil.
Qed.

Lemma overlay_blocks_board_witness :
  clicks (after perfectGame)
  = ClickButton <$> buttonsOf (renderUI (app (after perfectGame))).
Proof.
  apply (overlay_blocks_board (after perfectGame));
    [apply after_reachable, perfectGame_plays|by_compute].
Defined.

(** ** Examples *)

(** With two cards matched, the page takes fourteen clicks. *)
Example clicks_pairDone :
  clicks (after pairDone)
  = ClickCard <$> filter (λ c, isMatched c = false) (cards (engine (after pairDone)))
  ∧ length (clicks (after pairDone)) = 14.
Proof. by vm_compute. Qed.

(** On the start screen, the one click is the start button. *)
Example clicks_mounted : clicks mounted = [ClickButton StartGame].
Proof. by vm_compute. Qed.
