(* ===== verification/Typing.v ===== *)
(** * Typing: the values are of the types the source declares

    TypeScript checks the types of [src/types.ts] when the program is
    compiled; at run time a value can still fall outside them.  A [number]
    can be [NaN], and an id taken from an array by destructuring is
    [undefined] when the array is too short, although [checkForMatch],
    [handleMatch] and [handleMismatch] declare it a [string].  The model
    keeps those values ([NaN], [None]); this file shows that the
    application never produces them where the types promise more: the
    counters are counts, the selected ids name cards, and every callback
    holds two strings that name cards of the board. *)

From S2P Require Import Prelude Types Shuffle Board Storage Engine App GameUI.
From S2P Require Import Game Invariant Runs.

Implicit Types (cs : list Card) (c : Card) (t : Timeout) (w : World).

(** The ids in the closure of a callback. *)
Definition timeoutIds (t : Timeout) : list (option string) :=
  match t with
  | MatchTimeout id1 id2 | MismatchTimeout id1 id2 => [id1; id2]
  end.

(** [i] is a string, and the id of a card of [cs]. *)
Definition names (cs : list Card) (i : option string) : Prop :=
  Exists (λ c, i = Some (id c)) cs.

(** Both ids of the callback are strings that name cards. *)
Definition callback_typed (cs : list Card) (t : Timeout) : Prop :=
  Forall (names cs) (timeoutIds t).

Definition typed (w : World) : Prop :=
  is_count (moves (app_stats (app w)))
  ∧ is_count (timer (app_stats (app w)))
  ∧ Forall (λ i, names (cards (engine w)) (Some i)) (flippedIds (engine w))
  ∧ Forall (callback_typed (cards (engine w))) (timeouts (engine w)).

#[export] Instance typed_dec w : Decision (typed w).
Proof. unfold typed, callback_typed, names. apply _. Defined.

Lemma names_elem_of cs i : names cs (Some i) ↔ i ∈ id <$> cs.
Proof.
  unfold names. rewrite Exists_exists, list_elem_of_fmap. naive_solver.
Qed.

(** The callback [checkForMatch] schedules for two selected cards. *)
Lemma pairOutcome_typed cs a b :
  a ∈ id <$> cs → b ∈ id <$> cs → callback_typed cs (pairOutcome [a; b] cs).
Proof.
  intros Ha%names_elem_of Hb%names_elem_of. unfold callback_typed.
  by destruct (pairOutcome_cases a b cs) as [-> | ->]; repeat constructor.
Qed.

Lemma engine_typed e :
  engine_inv e →
  Forall (λ i, names (cards e) (Some i)) (flippedIds e)
  ∧ Forall (callback_typed (cards e)) (timeouts e).
Proof.
  intros (_ & (_ & Hsub & _) & (_ & Hproc & ->)).
  assert (Forall (λ i, i ∈ id <$> cards e) (flippedIds e)) as Hids
    by (apply Forall_forall; set_solver).
  split; [by eapply Forall_impl; [done|]; intros i ?%names_elem_of|].
  rewrite Hproc. case_bool_decide; [|done].
  destruct (flippedIds e) as [|a [|b [|]]]; simplify_eq/=.
  apply Forall_singleton. apply pairOutcome_typed; set_solver.
Qed.

(** C16: the values stay within their types.  In every reachable world the
    two counters are integers that are not negative (never [NaN]), every
    selected id names a card of the board, and every pending callback holds
    two ids that are strings (never [undefined]) and name cards of the
    board. *)
Theorem reachable_typed w : reachable w → typed w.
Proof.
  intros Hw. reach_inv Hw. destruct Hw as [(Heng & _ & Hmoves & Htimer) _].
  destruct (engine_typed _ Heng). by split_and!.
Qed.

Lemma reachable_typed_witness : typed (after pairUp).
Proof. apply reachable_typed, after_reachable, pairUp_plays. Defined.

(** The callback of the witness, with its two ids. *)
Example pairUp_callback :
  timeouts (engine (after pairUp))
  = [MatchTimeout (Some "card-0") (Some "card-8")].
Proof. vm_compute. done. Qed.
