(* ===== verification/Timed.v ===== *)
(** * Timed: the clock, the delays and the interval

    [Game] lets a scheduled callback and the interval fire at any moment.
    This file adds the clock.  A timer of the browser never fires early: a
    callback handed to [setTimeout] runs once, no sooner than its delay
    after the call, and the callback of [setInterval] runs again and again,
    its [k]-th turn no sooner than [k] delays after the call.  Late is
    allowed, as in a browser.  The delays are those of the source: 500 ms
    for a match, [FLIP_DELAY_MS] for a mismatch ([timeoutDelay]), 1000 ms
    for the interval of [src/App.tsx] ([intervalDelay]).

    A timed world is a world of [Game] with the time, the moment each
    pending callback is due, the moment the next turn of the interval is
    due, and the moment the interval was started.  A timed run is a run of
    [Game] with waits in between, so every theorem about reachable worlds
    holds of timed worlds; the clock adds that the timer shown never runs
    ahead of the time played, and that no game ends sooner than the
    matches take. *)

From S2P Require Import Prelude Types Shuffle Board Storage Engine App GameUI.
From S2P Require Import Game Invariant Runs Reducer Pairs Liveness.

Implicit Types (cs : list Card) (c : Card) (e : Engine) (w : World) (d : Draws).

(** ** Timed worlds *)

(** The delay of [setInterval] in "Timer Logic", in milliseconds. *)
Definition intervalDelay : nat := 1000.

Record Timed := mkTimed {
  world : World;
  now : nat;
  due : list nat;
  nextTick : nat;
  startedAt : nat;
}.

#[export] Instance Timed_eq_dec : EqDecision Timed.
Proof. solve_decision. Defined.

Implicit Types (t : Timed).

(** The timers of the browser do not fire early. *)
Definition ready (ev : Event) (t : Timed) : Prop :=
  match ev with
  | Tick => nextTick t ≤ now t
  | TimeoutFires i =>
      match due t !! i with
      | Some moment => moment ≤ now t
      | None => False
      end
  | ClickButton _ | ClickCard _ => True
  end.

#[export] Instance ready_dec ev t : Decision (ready ev t).
Proof. destruct ev; simpl; try case_match; apply _. Defined.

(** Time passes. *)
Definition elapse (ms : nat) (t : Timed) : Timed :=
  mkTimed (world t) (now t + ms) (due t) (nextTick t) (startedAt t).

(** The event starts the interval: it runs afterwards and did not before. *)
Definition startsInterval (w w' : World) : bool :=
  interval (app w') && negb (interval (app w)).

(** The moments the pending callbacks are due after an event: a callback
    that ran has left, a callback that was scheduled is due after its
    delay. *)
Definition dueAfter (ev : Event) (t : Timed) (w' : World) : list nat :=
  let scheduled :=
    drop (length (timeouts (engine (world t)))) (timeouts (engine w')) in
  match ev with
  | TimeoutFires i => delete i (due t)
  | _ => due t ++ ((λ p, now t + timeoutDelay p) <$> scheduled)
  end.

(** The moment the next turn of the interval is due after an event. *)
Definition nextTickAfter (ev : Event) (t : Timed) (w' : World) : nat :=
  if startsInterval (world t) w' then now t + intervalDelay
  else match ev with
       | Tick => nextTick t + intervalDelay
       | _ => nextTick t
       end.

(** An event is delivered; it takes no time. *)
Definition deliver (ev : Event) (d : Draws) (t : Timed) : Timed :=
  let w' := react ev d (world t) in
  mkTimed w' (now t) (dueAfter ev t w') (nextTickAfter ev t w')
    (if startsInterval (world t) w' then now t else startedAt t).

Inductive TimedEvent :=
  | Elapse (ms : nat)
  | Deliver (ev : Event) (d : Draws).

Inductive tstep : Timed → Timed → Prop :=
  | tstep_elapse ms t : tstep t (elapse ms t)
  | tstep_deliver ev d t :
      enabled ev (world t) → ready ev t → tstep t (deliver ev d t).

(** The application when it is mounted, at time 0. *)
Definition initialTimed (store : LocalStorage) : Timed :=
  mkTimed (initialWorld store) 0 [] 0 0.

Definition treachable (t : Timed) : Prop :=
  ∃ store, rtc tstep (initialTimed store) t.

(** Runs a list of timed events; [None] when an event is not enabled or its
    timer is not due. *)
Fixpoint trun (evs : list TimedEvent) (t : Timed) : option Timed :=
  match evs with
  | [] => Some t
  | Elapse ms :: evs' => trun evs' (elapse ms t)
  | Deliver ev d :: evs' =>
      if decide (enabled ev (world t) ∧ ready ev t)
      then trun evs' (deliver ev d t) else None
  end.

(** ** A timed run is a run *)

Lemma tstep_world t t' : tstep t t' → world t' = world t ∨ step (world t) (world t').
Proof. intros [ms t0|ev d t0 Hen _]; [by left|right]. by constructor. Qed.

Lemma rtc_tstep_world t t' : rtc tstep t t' → rtc step (world t) (world t').
Proof.
  induction 1 as [|t1 t2 t3 Hstep _ IH]; [done|].
  destruct (tstep_world _ _ Hstep) as [<-|Hs]; [done|by eapply rtc_l].
Qed.

Lemma treachable_world t : treachable t → reachable (world t).
Proof. intros [store Ht]. exists store. by apply rtc_tstep_world in Ht. Qed.

Lemma trun_rtc evs t t' : trun evs t = Some t' → rtc tstep t t'.
Proof.
  revert t. induction evs as [|[ms|ev d] evs IH]; intros t Hrun; simpl in Hrun.
  - by simplify_eq.
  - eapply rtc_l; [apply tstep_elapse|by apply IH].
  - case_decide as Hok; [|done]. destruct Hok.
    eapply rtc_l; [by apply tstep_deliver|by apply IH].
Qed.

(** ** The invariant of the clock *)

(** The delay of the callback of a match. *)
Definition matchDelay : nat := timeoutDelay (MatchTimeout None None).

#[global] Arguments intervalDelay : simpl never.
#[global] Arguments matchDelay : simpl never.

(** The seconds the timer shows. *)
Definition shown (t : Timed) : nat := absCount (timer (app_stats (app (world t)))).

(** The matches take their time: each matched pair has cost one delay of a
    match since the game started, and a pending callback was scheduled after
    the pairs before it, to run after its delay and no later. *)
Definition pace (t : Timed) : Prop :=
  let matched := matchedCount (cards (engine (world t))) in
  match timeouts (engine (world t)), due t with
  | [p], [moment] =>
      2 * startedAt t + matchDelay * matched + 2 * timeoutDelay p ≤ 2 * moment
      ∧ moment ≤ now t + timeoutDelay p
  | _, _ => 2 * startedAt t + matchDelay * matched ≤ 2 * now t
  end.

Definition clock_inv (t : Timed) : Prop :=
  length (due t) = length (timeouts (engine (world t)))
  ∧ startedAt t + intervalDelay * shown t ≤ now t
  ∧ (interval (app (world t)) = true →
     nextTick t = startedAt t + intervalDelay * S (shown t))
  ∧ pace t.

Definition timed_inv (t : Timed) : Prop := world_inv (world t) ∧ clock_inv t.

#[export] Instance timed_inv_dec t : Decision (timed_inv t).
Proof.
  unfold timed_inv, clock_inv, pace. cbn zeta.
  repeat (apply and_dec || apply impl_dec || apply _); repeat case_match; apply _.
Defined.

Lemma initialTimed_inv store : timed_inv (initialTimed store).
Proof.
  split; [apply initialWorld_inv|]. unfold clock_inv, pace, shown, initialTimed.
  cbn [world now due nextTick startedAt].
  destruct (initialWorld_state store) as [-> ->]. cbn. split_and!; [done|lia|done|lia].
Qed.

Lemma elapse_inv ms t : timed_inv t → timed_inv (elapse ms t).
Proof.
  intros [Hw (Hdue & Hshown & Htick & Hpace)]. split; [done|].
  unfold clock_inv, pace, shown, elapse in *.
  cbn [world now due nextTick startedAt] in *.
  split_and!; [done|lia|done|]. repeat case_match; lia.
Qed.

(** ** Events keep the invariant *)

(** The callbacks pending under the invariant, with their moments. *)
Lemma pending_due t :
  timed_inv t →
  (isProcessing (engine (world t)) = false
   ∧ timeouts (engine (world t)) = [] ∧ due t = [])
  ∨ (∃ p moment, isProcessing (engine (world t)) = true
       ∧ timeouts (engine (world t)) = [p] ∧ due t = [moment]).
Proof.
  intros [[((_ & _ & _ & _ & Htime) & _) _] (Hdue & _)].
  rewrite Htime in Hdue |- *.
  destruct (isProcessing _); [right|left].
  - destruct (due t) as [|moment [|]]; simplify_eq/=. by eexists _, _.
  - by destruct (due t).
Qed.

(** A click and a callback leave the timer alone, and do not start the
    interval. *)
Lemma click_timer c w :
  interval (nextApp (ClickCard c) w) = interval (app w)
  ∧ timer (app_stats (nextApp (ClickCard c) w)) = timer (app_stats (app w)).
Proof. cbn [nextApp]. by case_match. Qed.

Lemma finished_interval a : interval (finished a) = false.
Proof. rewrite finished_eq. by case_match. Qed.

Lemma timeout_timer i w :
  startsInterval w (mkWorld (resolve (engine w)) (nextApp (TimeoutFires i) w) (deps w))
    = false
  ∧ (interval (nextApp (TimeoutFires i) w) = true → interval (app w) = true)
  ∧ timer (app_stats (nextApp (TimeoutFires i) w)) = timer (app_stats (app w)).
Proof.
  unfold startsInterval. cbn [nextApp app]. destruct (finishes w).
  - by rewrite finished_interval, finished_timer.
  - by destruct (interval (app w)).
Qed.

(** The callback that runs has had its delay. *)
Lemma resolve_matchedCount e :
  NoDup (id <$> cards e) →
  matchDelay * matchedCount (cards (resolve e))
  ≤ matchDelay * matchedCount (cards e)
    + 2 * timeoutDelay (pairOutcome (flippedIds e) (cards e)).
Proof.
  intros Hids. unfold resolve. cbn [cards].
  destruct (pairOutcome _ _) as [id1 id2|id1 id2].
  - pose proof (matchedCount_matchCards id1 id2 _ Hids).
    unfold matchDelay. cbn [timeoutDelay]. lia.
  - rewrite (matchedCount_flags _ _ (unflipCards_isMatched id1 id2 _)). lia.
Qed.

Section deliver.
Context (d : Draws) (t : Timed) (Hinv : timed_inv t).

Lemma start_clock :
  app_gameState (app (world t)) = START →
  clock_inv (deliver (ClickButton StartGame) d t).
Proof using All.
  intros Hstart. destruct Hinv as [Hw (Hdue & Hshown & Htick & Hpace)].
  destruct (react_start d _ Hw Hstart) as [He Ha].
  destruct Hw as [(_ & Hphase & _) _]. unfold phase_ok in Hphase.
  rewrite Hstart in Hphase. destruct Hphase as (Heng & Hint & _ & Htimer).
  rewrite Heng in Hdue. destruct (due t) as [|] eqn:Hd; [|done].
  unfold clock_inv, pace, shown, deliver, dueAfter, nextTickAfter,
    startsInterval.
  cbn [world now due nextTick startedAt].
  rewrite He, Ha, Hint, Hd. cbn [started interval app_stats timeouts cards andb negb].
  rewrite Htimer, drop_nil, matchedCount_fresh
    by (eapply Forall_impl; [apply newCards_face_down|]; by intros c [_ ?]).
  cbn [absCount fmap list_fmap app length]. split_and!; [done|lia|intros _; lia|lia].
Qed.

Lemma again_clock :
  app_gameState (app (world t)) = GAME_OVER →
  clock_inv (deliver (ClickButton PlayAgain) d t).
Proof using All.
  intros Hover. pose proof Hinv as [Hw (Hdue & Hshown & Htick & Hpace)].
  destruct (react_play_again d _ Hw Hover) as [He Ha].
  destruct Hw as [(_ & Hphase & _) _]. unfold phase_ok in Hphase.
  rewrite Hover in Hphase. destruct Hphase as (_ & Hproc & Hint & _).
  destruct (pending_due t Hinv) as [(_ & Htime & Hd)|(p & m & ? & _)];
    [|congruence].
  unfold clock_inv, pace, shown, deliver, dueAfter, nextTickAfter,
    startsInterval.
  cbn [world now due nextTick startedAt].
  rewrite He, Ha, Hd.
  cbn [restarted interval app_stats timeouts cards andb initialEngine set_timer timer].
  rewrite drop_nil.
  cbn [absCount fmap list_fmap app length matchedCount occ filter list_filter].
  split_and!; [done|lia|done|lia].
Qed.

Lemma tick_clock :
  enabled Tick (world t) → ready Tick t → clock_inv (deliver Tick d t).
Proof using All.
  intros Hen Hready. pose proof Hinv as [Hw (Hdue & Hshown & Htick & Hpace)].
  destruct (react_tick d _ Hw Hen) as [He Ha]. cbn [enabled ready] in Hen, Hready.
  specialize (Htick Hen).
  assert (is_count (timer (app_stats (app (world t))))) as Hcount by apply Hw.
  unfold clock_inv, pace, shown, deliver, dueAfter, nextTickAfter,
    startsInterval in *.
  cbn [world now due nextTick startedAt].
  rewrite He, Ha. cbn [tick setStats interval app_stats set_timer timer].
  rewrite Hen, drop_all, absCount_succ by done.
  cbn [andb negb fmap list_fmap]. rewrite app_nil_r.
  split_and!; [done|lia|intros _; lia|done].
Qed.

Lemma fire_clock i :
  enabled (TimeoutFires i) (world t) → ready (TimeoutFires i) t →
  clock_inv (deliver (TimeoutFires i) d t).
Proof using All.
  intros Hen Hready. pose proof Hinv as [Hw (Hdue & Hshown & Htick & Hpace)].
  pose proof Hw as [((Hboard & _) & _) _]. destruct Hen as [p Hp].
  destruct (pending_inv _ _ _ (proj1 (proj1 Hw)) Hp)
    as (a & b & -> & _ & Hids & Htime & ->).
  destruct (pending_due t Hinv) as [(_ & ? & _)|(? & m & _ & _ & Hd)];
    [congruence|].
  assert (enabled (TimeoutFires 0) (world t)) as Hen by (cbn; by rewrite Htime).
  pose proof (react_nextEngine _ d _ Hw Hen) as He. cbn [nextEngine] in He.
  pose proof (react_nextApp _ d _ Hw Hen) as Ha.
  destruct (timeout_timer 0 (world t)) as (Hstarts & Hint & Htimer).
  pose proof (resolve_matchedCount _ (proj1 Hboard)) as Hcount.
  rewrite Hids in Hcount.
  unfold clock_inv, pace, shown, deliver, dueAfter, nextTickAfter,
    startsInterval in *.
  cbn [world now due nextTick startedAt ready app] in *.
  rewrite Hd in Hready, Hpace |- *. rewrite Htime in Hpace.
  rewrite He, Ha, Hstarts, Htimer.
  assert (timeouts (resolve (engine (world t))) = []) as -> by done.
  cbn [delete list_delete length lookup list_lookup] in *.
  split_and!; [done|done|auto|lia].
Qed.

Lemma click_clock c :
  enabled (ClickCard c) (world t) → clock_inv (deliver (ClickCard c) d t).
Proof using All.
  intros Hen. pose proof Hinv as [Hw (Hdue & Hshown & Htick & Hpace)].
  pose proof (react_nextEngine _ d _ Hw Hen) as He. cbn [nextEngine] in He.
  pose proof (react_nextApp _ d _ Hw Hen) as Ha.
  destruct (click_timer c (world t)) as [Hint Htimer].
  unfold clock_inv, pace, shown, deliver, dueAfter, nextTickAfter,
    startsInterval in *.
  cbn [world now due nextTick startedAt] in *.
  rewrite He, Ha, Hint, Htimer, andb_negb_r. clear He Ha Hint Htimer.
  destruct (accepts _ c) eqn:Hacc; [|by rewrite drop_all, app_nil_r].
  assert (isProcessing (engine (world t)) = false) as Hproc.
  { unfold accepts in Hacc. by destruct (isProcessing _), (bool_decide _). }
  destruct (pending_due t Hinv) as [(_ & Htime & Hd)|(? & ? & ? & _)];
    [|congruence].
  rewrite Htime, Hd in *. unfold clicked. rewrite Htime.
  rewrite (matchedCount_flags _ _ (eq_sym (flipCard_isMatched (id c) _))) in Hpace.
  case_bool_decide; cbn [timeouts cards drop fmap list_fmap length];
    rewrite ?app_nil_l; cbn [drop fmap list_fmap]; split_and!; try done; lia.
Qed.

End deliver.

Lemma deliver_inv ev d t :
  timed_inv t → enabled ev (world t) → ready ev t → timed_inv (deliver ev d t).
Proof.
  intros Hinv Hen Hready.
  split; [eapply step_inv; [apply Hinv|by constructor]|].
  destruct ev as [b|c| |i].
  - apply enabled_button in Hen as [[-> ?]|[-> ?]];
      [by apply start_clock|by apply again_clock].
  - by apply click_clock.
  - by apply tick_clock.
  - by apply fire_clock.
Qed.

Lemma tstep_inv t t' : timed_inv t → tstep t t' → timed_inv t'.
Proof.
  intros Hinv Hstep.
  destruct Hstep as [ms t|ev d t Hen Hready];
    [by apply elapse_inv|by apply deliver_inv].
Qed.

Lemma treachable_inv t : treachable t → timed_inv t.
Proof.
  intros [store Ht]. revert t Ht.
  apply rtc_ind_r; [apply initialTimed_inv|]. eauto using tstep_inv.
Qed.

(** ** Punctual runs *)

(** The wait does not pass the next turn of a running interval. *)
Definition onTime (ms : nat) (t : Timed) : Prop :=
  interval (app (world t)) = true → now t + ms ≤ nextTick t.

(** Steps in which the interval is served on time. *)
Inductive pstep : Timed → Timed → Prop :=
  | pstep_elapse ms t : onTime ms t → pstep t (elapse ms t)
  | pstep_deliver ev d t :
      enabled ev (world t) → ready ev t → pstep t (deliver ev d t).

Definition punctual (t : Timed) : Prop :=
  ∃ store, rtc pstep (initialTimed store) t.

Lemma pstep_tstep t t' : pstep t t' → tstep t t'.
Proof. intros [ms t0 _|ev d t0 Hen Hready]; by constructor. Qed.

Lemma punctual_treachable t : punctual t → treachable t.
Proof.
  intros [store Ht]. exists store.
  eapply rtc_subrel; [|done]. apply pstep_tstep.
Qed.

(** No turn of the interval is overdue. *)
Definition served (t : Timed) : Prop :=
  interval (app (world t)) = true → now t ≤ nextTick t.

Lemma deliver_served ev d t : served t → served (deliver ev d t).
Proof.
  unfold served, deliver, nextTickAfter, startsInterval.
  cbn [world now nextTick].
  destruct (interval (app (react ev d (world t)))), (interval (app (world t))), ev;
    cbn [andb negb]; intros; lia.
Qed.

Lemma punctual_served t : punctual t → served t.
Proof.
  intros [store Ht]. revert t Ht. apply rtc_ind_r.
  - unfold served, initialTimed. cbn [world now nextTick]. lia.
  - intros t t' _ [ms t0 Hon|ev d t0 _ _] Hserved; [|by apply deliver_served].
    unfold served, elapse. cbn [world now nextTick]. exact Hon.
Qed.

#[export] Instance onTime_dec ms t : Decision (onTime ms t).
Proof. unfold onTime. apply _. Defined.

(** Runs a list of timed events on time; [None] also when a wait passes a
    turn of the interval. *)
Fixpoint prun (evs : list TimedEvent) (t : Timed) : option Timed :=
  match evs with
  | [] => Some t
  | Elapse ms :: evs' =>
      if decide (onTime ms t) then prun evs' (elapse ms t) else None
  | Deliver ev d :: evs' =>
      if decide (enabled ev (world t) ∧ ready ev t)
      then prun evs' (deliver ev d t) else None
  end.

Lemma prun_rtc evs t t' : prun evs t = Some t' → rtc pstep t t'.
Proof.
  revert t. induction evs as [|[ms|ev d] evs IH]; intros t Hrun; simpl in Hrun.
  - by simplify_eq.
  - case_decide; [|done]. eapply rtc_l; [by apply pstep_elapse|by apply IH].
  - case_decide as Hok; [|done]. destruct Hok.
    eapply rtc_l; [by apply pstep_deliver|by apply IH].
Qed.

(** ** Timed scripts *)

(** The timed world a list of timed events leads to from a mount with
    nothing stored. *)
Definition tafter (evs : list TimedEvent) : Timed :=
  default (initialTimed None) (trun evs (initialTimed None)).

Lemma tafter_reachable evs :
  is_Some (trun evs (initialTimed None)) → treachable (tafter evs).
Proof.
  intros [t Hrun]. unfold tafter. rewrite Hrun. exists None. by eapply trun_rtc.
Qed.

Lemma tafter_punctual evs :
  prun evs (initialTimed None) = trun evs (initialTimed None) →
  is_Some (trun evs (initialTimed None)) → punctual (tafter evs).
Proof.
  intros Hp [t Hrun]. unfold tafter. rewrite Hrun. exists None.
  apply (prun_rtc evs). by rewrite Hp.
Qed.

(** The events of a script of [Runs], each callback after a wait. *)
Definition paced (wait : nat) (script : list Action) : list TimedEvent :=
  eventsOf plainDraws script mounted ≫= λ '(ev, d),
    match ev with
    | TimeoutFires _ => [Elapse wait; Deliver ev d]
    | _ => [Deliver ev d]
    end.

(** A game without a mistake, each callback as soon as it is due. *)
Definition quickGame : list TimedEvent := paced matchDelay perfectGame.

(** A turn of the interval that comes late. *)
Definition lateTick : list TimedEvent :=
  [Deliver (ClickButton StartGame) plainDraws; Elapse 2500;
   Deliver Tick plainDraws].

(** A turn of the interval on time, and some time after it. *)
Definition onTimeTick : list TimedEvent :=
  [Deliver (ClickButton StartGame) plainDraws; Elapse 1000;
   Deliver Tick plainDraws; Elapse 600].

Lemma quickGame_runs : is_Some (trun quickGame (initialTimed None)).
Proof. vm_compute. by eexists. Qed.

Lemma lateTick_runs : is_Some (trun lateTick (initialTimed None)).
Proof. vm_compute. by eexists. Qed.

Lemma onTimeTick_runs : is_Some (trun onTimeTick (initialTimed None)).
Proof. vm_compute. by eexists. Qed.

(** A callback does not run before its delay: a millisecond early, the
    first callback of the game is not ready. *)
Example early_callback :
  trun (paced (matchDelay - 1) pairDone) (initialTimed None) = None
  ∧ is_Some (trun (paced matchDelay pairDone) (initialTimed None)).
Proof. vm_compute. split; [done|by eexists]. Qed.

(** ** What the clock shows *)

(** C19: the timer never runs ahead of the clock.  At every moment of every
    timed run the timer shows a whole number of seconds, and that many
    seconds have passed since the interval was started, however late the
    browser serves it. *)
Theorem timer_behind_clock t :
  treachable t →
  ∃ seconds : nat,
    timer (app_stats (app (world t))) = Num (Z.of_nat seconds)
    ∧ startedAt t + intervalDelay * seconds ≤ now t.
Proof.
  intros [[(_ & _ & _ & Hcount) _] (_ & Hshown & _)]%treachable_inv.
  unfold shown in Hshown. destruct (timer _) as [|z]; [done|].
  exists (Z.to_nat z). cbn in Hcount, Hshown. split; [f_equal; lia|done].
Qed.

Lemma timer_behind_clock_witness :
  ∃ seconds : nat,
    timer (app_stats (app (world (tafter lateTick)))) = Num (Z.of_nat seconds)
    ∧ startedAt (tafter lateTick) + intervalDelay * seconds ≤ now (tafter lateTick).
Proof.
  apply (timer_behind_clock (tafter lateTick)), tafter_reachable, lateTick_runs.
Defined.

(** C27: when the interval is served on time, the timer shows the time
    played to the second: during a game the seconds shown have passed since
    the game started, and the next second has not passed yet. *)
Theorem timer_to_the_second t :
  punctual t → app_gameState (app (world t)) = PLAYING →
  ∃ seconds : nat,
    timer (app_stats (app (world t))) = Num (Z.of_nat seconds)
    ∧ startedAt t + intervalDelay * seconds ≤ now t
      ≤ startedAt t + intervalDelay * (seconds + 1).
Proof.
  intros Hp Hplay. pose proof (punctual_served t Hp) as Hserved.
  apply punctual_treachable, treachable_inv in Hp
    as [[(_ & Hphase & _ & Hcount) _] (_ & Hshown & Htick & _)].
  unfold phase_ok in Hphase. rewrite Hplay in Hphase.
  destruct Hphase as (_ & Hint & _). specialize (Htick Hint).
  specialize (Hserved Hint). unfold shown in *.
  destruct (timer _) as [|z]; [done|].
  exists (Z.to_nat z). cbn in Hcount, Hshown, Htick.
  split; [f_equal; lia|]. rewrite Nat.add_1_r. lia.
Qed.

Lemma timer_to_the_second_witness :
  ∃ seconds : nat,
    timer (app_stats (app (world (tafter onTimeTick)))) = Num (Z.of_nat seconds)
    ∧ startedAt (tafter onTimeTick) + intervalDelay * seconds
      ≤ now (tafter onTimeTick)
      ≤ startedAt (tafter onTimeTick) + intervalDelay * (seconds + 1).
Proof.
  apply (timer_to_the_second (tafter onTimeTick)); [|by_compute].
  apply tafter_punctual; [by vm_compute|apply onTimeTick_runs].
Defined.

Lemma matchDelay_eq : matchDelay = 500.
Proof. reflexivity. Qed.

(** C17: no game is finished in less than the matches take: when the game
    is over, at least 500 ms for each of the [PAIRS_COUNT] pairs have passed
    since it was started, four seconds in all. *)
Theorem game_takes_time t :
  treachable t → app_gameState (app (world t)) = GAME_OVER →
  startedAt t + 500 * PAIRS_COUNT ≤ now t.
Proof.
  intros Ht Hover. pose proof (treachable_inv t Ht) as Hinv.
  destruct (pending_due t Hinv) as [(_ & Htime & Hd)|(p & m & Hproc & _)].
  - destruct Hinv as [[(_ & Hphase & _) _] (_ & _ & _ & Hpace)].
    unfold phase_ok in Hphase. rewrite Hover in Hphase.
    destruct Hphase as (Hlen & _ & _ & Hall & _).
    unfold pace in Hpace.
    rewrite Htime, matchedCount_all, Hlen, matchDelay_eq in Hpace by done. lia.
  - destruct Hinv as [[(_ & Hphase & _) _] _].
    unfold phase_ok in Hphase. rewrite Hover in Hphase.
    destruct Hphase as (_ & ? & _). congruence.
Qed.

Lemma game_takes_time_witness :
  startedAt (tafter quickGame) + 500 * PAIRS_COUNT ≤ now (tafter quickGame).
Proof.
  apply (game_takes_time (tafter quickGame));
    [apply tafter_reachable, quickGame_runs|by_compute].
Defined.

(** The bound is attained: the game without a mistake, played as fast as the
    callbacks allow, is over after four seconds. *)
Example quickGame_time :
  app_gameState (app (world (tafter quickGame))) = GAME_OVER
  ∧ startedAt (tafter quickGame) = 0 ∧ now (tafter quickGame) = 4000.
Proof. vm_compute. done. Qed.
