(* ===== verification/Deadline.v ===== *)
(** * Deadline: every game can be finished in time

    [Liveness] finds a run that ends the game; [Timed] puts a clock on the
    runs.  Together: from every timed world the application reaches, the
    game can be finished within the delays of the callbacks that are left,
    at most [FLIP_DELAY_MS] for a callback that is pending and 500 ms for
    each pair.  The player clicks at once and waits only for the callback
    of the pair, which fires when it is due. *)

From S2P Require Import Prelude Types Shuffle Board Storage Engine GameUI App.
From S2P Require Import Game Invariant Runs Reducer Pairs Liveness Timed.

Implicit Types (c : Card) (e : Engine) (w : World) (d : Draws) (t : Timed).

(** ** Timed runs that end the game *)

(** The invariants a timed run keeps. *)
Definition tlive (t : Timed) : Prop :=
  timed_inv t ∧ matched_pairs (cards (engine (world t))).

(** Some timed run leads from [t] to the end of the game by the deadline. *)
Definition winsBy (deadline : nat) (t : Timed) : Prop :=
  ∃ evs t', trun evs t = Some t'
            ∧ app_gameState (app (world t')) = GAME_OVER ∧ now t' ≤ deadline.

Lemma tlive_live t : tlive t → live (world t).
Proof. intros [[Hw _] Hpairs]. by split. Qed.

Lemma treachable_tlive t : treachable t → tlive t.
Proof.
  intros Ht. split; [by apply treachable_inv|].
  by apply reachable_matched_pairs, treachable_world.
Qed.

Lemma elapse_tlive ms t : tlive t → tlive (elapse ms t).
Proof. intros [Hinv Hpairs]. split; [by apply elapse_inv|done]. Qed.

Lemma deliver_tlive ev d t :
  tlive t → enabled ev (world t) → ready ev t → tlive (deliver ev d t).
Proof.
  intros [Hinv Hpairs] Hen Hready. split; [by apply deliver_inv|].
  apply react_matched_pairs; [apply Hinv|done..].
Qed.

Lemma winsBy_over deadline t :
  app_gameState (app (world t)) = GAME_OVER → now t ≤ deadline →
  winsBy deadline t.
Proof. intros Hover Hnow. by exists [], t. Qed.

Lemma winsBy_elapse ms deadline t :
  winsBy deadline (elapse ms t) → winsBy deadline t.
Proof. intros (evs & t' & Hrun & ?). by exists (Elapse ms :: evs), t'. Qed.

Lemma winsBy_deliver ev d deadline t :
  enabled ev (world t) → ready ev t →
  winsBy deadline (deliver ev d t) → winsBy deadline t.
Proof.
  intros Hen Hready (evs & t' & Hrun & ?). exists (Deliver ev d :: evs), t'.
  simpl. by rewrite decide_True.
Qed.

Lemma winsBy_mono deadline deadline' t :
  deadline ≤ deadline' → winsBy deadline t → winsBy deadline' t.
Proof.
  intros Hle (evs & t' & ? & ? & ?). exists evs, t'. split_and!; [done..|lia].
Qed.

(** ** Waiting for the callback *)

Lemma timeoutDelay_le p : timeoutDelay p ≤ FLIP_DELAY_MS.
Proof. destruct p; cbn [timeoutDelay]; unfold FLIP_DELAY_MS; lia. Qed.

(** The pending callback is due after its delay at the latest. *)
Lemma wait_due t p :
  timed_inv t → timeouts (engine (world t)) = [p] →
  ∃ ms, ready (TimeoutFires 0) (elapse ms t)
        ∧ now (elapse ms t) ≤ now t + timeoutDelay p.
Proof.
  intros Hinv Htime. pose proof Hinv as [_ (_ & _ & _ & Hpace)].
  destruct (pending_due t Hinv) as [(_ & ? & _)|(? & m & _ & _ & Hd)];
    [congruence|].
  unfold pace in Hpace. rewrite Htime, Hd in Hpace.
  exists (m - now t). unfold elapse. cbn [ready due now]. rewrite Hd. simpl. lia.
Qed.

(** ** One round, with the clock *)

Section round.
Context (d : Draws) (n : nat).
Context (IH : ∀ t, tlive t → playing (world t) →
                flippedIds (engine (world t)) = [] →
                unmatched (cards (engine (world t))) ≤ 2 * n →
                winsBy (now t + matchDelay * n) t).

(** Two cards are selected: the player waits for their callback. *)
Lemma fire_by t p :
  tlive t → playing (world t) → timeouts (engine (world t)) = [p] →
  length (flippedIds (engine (world t))) = 2 →
  unmatched (cards (resolve (engine (world t)))) ≤ 2 * n →
  winsBy (now t + timeoutDelay p + matchDelay * n) t.
Proof using All.
  intros Hlive Hplay Htime Hlen Hun. pose proof Hlive as [Hinv _].
  destruct (wait_due t p) as (ms & Hready & Hnow); [done..|].
  destruct (fire_outcome d (world t)) as (Hen & He & Hphase);
    [apply Hinv|done..|].
  apply (winsBy_elapse ms), (winsBy_deliver (TimeoutFires 0) d); [done..|].
  pose proof (deliver_tlive (TimeoutFires 0) d _ (elapse_tlive ms t Hlive)
                Hen Hready) as Hlive'.
  destruct Hphase as [Hover|Hplay']; [apply winsBy_over; [done|]|].
  - cbn [deliver now] in *. lia.
  - eapply winsBy_mono;
      [|apply (IH (deliver (TimeoutFires 0) d (elapse ms t)));
        [done|done|cbn [deliver world elapse]; by rewrite He..]].
    cbn [deliver now] in *. lia.
Qed.

(** One card is selected: the player turns its partner at once. *)
Lemma partner_by t a :
  tlive t → playing (world t) → flippedIds (engine (world t)) = [a] →
  unmatched (cards (engine (world t))) ≤ 2 * S n →
  winsBy (now t + matchDelay * S n) t.
Proof using All.
  intros Hlive Hplay Ha Hun. pose proof (tlive_live t Hlive) as [Hw Hpairs].
  pose proof Hw as [(Heng & _) _].
  destruct (partner_selectable (engine (world t)) a)
    as (c & c' & Hc & Hc' & <- & Hne & He & Hm & Hm' & Hf'); [done..|].
  assert (isProcessing (engine (world t)) = false) as Hproc.
  { apply unlocked; [done|]. rewrite Ha. simpl. lia. }
  destruct (click_outcome d (world t) c') as [He1 Hplay1]; [done..|].
  apply (winsBy_deliver (ClickCard c') d); [done..|].
  pose proof (deliver_tlive (ClickCard c') d t Hlive Hc' I) as Hlive1.
  rewrite (clicked_pair _ c) in He1 by done.
  eapply winsBy_mono;
    [|apply (fire_by (deliver (ClickCard c') d t)
               (MatchTimeout (Some (id c)) (Some (id c')))); [done|done|..]].
  - cbn [deliver now timeoutDelay]. unfold matchDelay. cbn [timeoutDelay]. lia.
  - cbn [deliver world]. by rewrite He1.
  - cbn [deliver world]. by rewrite He1.
  - cbn [deliver world]. rewrite He1. unfold resolve. cbn [cards flippedIds].
    rewrite pairOutcome_pair by (done || apply Heng).
    rewrite unmatched_matchCards_flipCard.
    pose proof (unmatched_pair (cards (engine (world t))) c c') as Hpair.
    specialize (Hpair Hc Hc' (not_eq_sym Hne) Hm Hm'). lia.
Qed.

(** No card is selected: the player turns a card that is not matched. *)
Lemma first_by t :
  tlive t → playing (world t) → flippedIds (engine (world t)) = [] →
  unmatched (cards (engine (world t))) ≤ 2 * S n →
  winsBy (now t + matchDelay * S n) t.
Proof using All.
  intros Hlive Hplay Hnil Hun. pose proof (tlive_live t Hlive) as [Hw Hpairs].
  pose proof Hw as [(Heng & _) _].
  destruct (playing_board (world t)) as [_ (c & Hc & Hm)%unmatched_card];
    [done..|].
  assert (isProcessing (engine (world t)) = false) as Hproc.
  { apply unlocked; [done|]. rewrite Hnil. simpl. lia. }
  destruct (click_outcome d (world t) c) as [He1 Hplay1];
    [by eauto using unmatched_face_down..|].
  apply (winsBy_deliver (ClickCard c) d); [done..|].
  pose proof (deliver_tlive (ClickCard c) d t Hlive Hc I) as Hlive1.
  apply (partner_by (deliver (ClickCard c) d t) (id c)); [done|done|..];
    cbn [deliver world]; rewrite He1.
  - by rewrite clicked_flippedIds, Hnil.
  - by rewrite clicked_cards, unmatched_flipCard.
Qed.

End round.

(** From a board with no card selected the game can be finished in the time
    of one match for every pair that is left. *)
Lemma clean_by d n t :
  tlive t → playing (world t) → flippedIds (engine (world t)) = [] →
  unmatched (cards (engine (world t))) ≤ 2 * n →
  winsBy (now t + matchDelay * n) t.
Proof.
  revert t. induction n as [|n IH]; intros t Hlive Hplay Hnil Hun.
  - destruct (playing_board (world t)) as [_ []]; [apply Hlive|done|].
    apply unmatched_zero. lia.
  - by apply (first_by d n IH).
Qed.

(** ** Every game can be finished in time *)

(** While a game is played. *)
Lemma playing_by d t :
  tlive t → playing (world t) →
  winsBy (now t + FLIP_DELAY_MS + matchDelay * PAIRS_COUNT) t.
Proof.
  intros Hlive Hplay. pose proof Hlive as [Hinv _]. pose proof Hinv as [Hw _].
  pose proof (board_unmatched _ Hw Hplay) as Hun.
  pose proof Hw as [((_ & _ & Hlen & _) & _) _].
  destruct (flippedIds (engine (world t))) as [|a [|b [|]]] eqn:Hids;
    simpl in Hlen; [..|lia].
  - eapply winsBy_mono; [|by apply (clean_by d PAIRS_COUNT)]. lia.
  - eapply winsBy_mono;
      [|by apply (partner_by d _ (clean_by d (pred PAIRS_COUNT)) t a)].
    simpl. lia.
  - destruct (pending_due t Hinv) as [(Hproc & _)|(p & _ & _ & Htime & _)].
    { destruct Hw as [((_ & _ & _ & Hlock & _) & _) _].
      by rewrite Hlock, Hids in Hproc. }
    eapply winsBy_mono;
      [|apply (fire_by d _ (clean_by d PAIRS_COUNT) t p);
        [done..|by rewrite Hids|]].
    + pose proof (timeoutDelay_le p). lia.
    + rewrite unmatched_le_length, resolve_length.
      by destruct (playing_board (world t)) as [-> _].
Qed.

(** On the start screen. *)
Lemma start_by d t :
  tlive t → app_gameState (app (world t)) = START →
  winsBy (now t + matchDelay * PAIRS_COUNT) t.
Proof.
  intros Hlive Hstart. pose proof Hlive as [[Hw _] _].
  assert (enabled (ClickButton StartGame) (world t)) as Hen
    by (apply enabled_button; auto).
  destruct (react_start d _ Hw Hstart) as [He Ha].
  apply (winsBy_deliver (ClickButton StartGame) d); [done..|].
  apply (clean_by d PAIRS_COUNT (deliver (ClickButton StartGame) d t));
    [by apply deliver_tlive|..]; unfold playing; cbn [deliver world];
    rewrite ?He, ?Ha; [done..|].
  cbn [cards]. by rewrite unmatched_le_length, newCards_length.
Qed.

(** C18: every game can be finished in time: from every timed world the
    application reaches, some timed run ends the game within
    [FLIP_DELAY_MS] for a callback that may be pending and 500 ms for each
    pair: five seconds. *)
Theorem finishable_in_time t :
  treachable t →
  ∃ evs t', trun evs t = Some t'
            ∧ app_gameState (app (world t')) = GAME_OVER
            ∧ now t' ≤ now t + FLIP_DELAY_MS + 500 * PAIRS_COUNT.
Proof.
  intros Hlive%treachable_tlive. rewrite <-matchDelay_eq.
  destruct (app_gameState (app (world t))) eqn:Hphase.
  - eapply winsBy_mono; [|by apply (start_by plainDraws)]. lia.
  - by apply (playing_by plainDraws).
  - apply winsBy_over; [done|lia].
Qed.

Lemma finishable_in_time_witness :
  ∃ evs t', trun evs (tafter lateTick) = Some t'
            ∧ app_gameState (app (world t')) = GAME_OVER
            ∧ now t' ≤ now (tafter lateTick) + FLIP_DELAY_MS + 500 * PAIRS_COUNT.
Proof.
  apply (finishable_in_time (tafter lateTick)), tafter_reachable, lateTick_runs.
Defined.
