(* ===== verification/Safety.v ===== *)
(** * Safety: what the reachable worlds never do

    Consequences of the invariant of [Invariant] for the behaviour a player
    can observe: clicks the guard of [handleCardClick] turns away leave the
    world as it is, at most one callback is pending and only during a game,
    the phase follows the cycle START, PLAYING, GAME_OVER, and each phase has
    the board, the interval and the counters that belong to it. *)

From S2P Require Import Prelude Types Shuffle Board Storage Engine App GameUI.
From S2P Require Import Game Invariant Reducer Runs Delivery.

#[local] Open Scope upd_scope.

(** ** The invariant *)

(** C1: every world the application can reach satisfies [world_inv]: the
    board is well formed, the selection and the lock agree with the cards
    and the pending callback, each phase has the board, the interval and the
    counters it should, and no effect is due. *)
Theorem reachable_inv w : reachable w → world_inv w.
Proof. intros Hw. by reach_inv Hw. Qed.

Lemma reachable_inv_witness : world_inv (after pairUp).
Proof. apply reachable_inv, after_reachable, pairUp_plays. Defined.

(** ** Clicks the guard turns away *)

Lemma accepts_locked (e : Engine) (a : App) c :
  isProcessing e = true → accepts (e, a) c = false.
Proof. intros Hproc. unfold accepts. simpl. by rewrite Hproc, andb_false_r. Qed.

(** C5: while a pair is being resolved a click on a card changes nothing:
    no card turns, no move is counted, no callback is scheduled. *)
Theorem locked_click_ignored c d w :
  stable w → isProcessing (engine w) = true → react (ClickCard c) d w = w.
Proof. intros Hw Hproc. by apply react_rejected, accepts_locked. Qed.

Lemma locked_click_ignored_witness :
  react (ClickCard (cardAt 2 (after pairUp))) plainDraws (after pairUp)
  = after pairUp.
Proof.
  apply locked_click_ignored; [apply after_inv, pairUp_plays|by_compute].
Defined.

(** C34: selecting a third card before the pending pair resolves is a no-op. *)
Theorem third_card_ignored c d w :
  reachable w → length (flippedIds (engine w)) = 2 →
  react (ClickCard c) d w = w.
Proof.
  intros Hw Hlen. reach_inv Hw.
  destruct Hw as [(( _ & _ & _ & Hlock & _) & _) Hw].
  apply react_rejected, accepts_locked; [done|].
  by rewrite Hlock, bool_decide_eq_true_2.
Qed.

Lemma third_card_ignored_witness :
  react (ClickCard (cardAt 5 (after pairUp))) plainDraws (after pairUp)
  = after pairUp.
Proof. apply third_card_ignored; [apply after_reachable, pairUp_plays|by_compute]. Defined.

(** Selecting a card that is already selected is a no-op. *)
Theorem selected_card_ignored c d w :
  reachable w → c ∈ cards (engine w) → id c ∈ flippedIds (engine w) →
  react (ClickCard c) d w = w.
Proof.
  intros Hw Hc Hsel. reach_inv Hw.
  destruct Hw as [((_ & (_ & _ & Hok) & _) & _) Hw].
  rewrite Forall_forall in Hok. apply (Hok c Hc) in Hsel as [Hup _].
  apply react_rejected; [done|]. unfold accepts.
  destruct (isFlipped c); [by rewrite andb_false_r|done].
Qed.

Lemma selected_card_ignored_witness :
  react (ClickCard (cardAt 0 (after oneUp))) plainDraws (after oneUp)
  = after oneUp.
Proof.
  apply selected_card_ignored; [apply after_reachable, oneUp_plays|by_compute|by_compute].
Defined.

(** A click outside a game is a no-op. *)
Theorem idle_click_ignored c d w :
  stable w → app_gameState (app w) ≠ PLAYING → react (ClickCard c) d w = w.
Proof.
  intros Hw Hg. apply react_rejected; [done|]. unfold accepts, rendered. simpl.
  by rewrite bool_decide_eq_false_2.
Qed.

Lemma idle_click_ignored_witness :
  react (ClickCard (cardAt 0 (after oneUp))) plainDraws mounted = mounted.
Proof.
  apply idle_click_ignored; [apply (after_inv []); by eexists|by_compute].
Defined.

(** ** The pending callback *)

(** At most one callback is pending. *)
Theorem one_pending w : reachable w → length (timeouts (engine w)) ≤ 1.
Proof.
  intros Hw. reach_inv Hw.
  destruct Hw as [((_ & _ & _ & _ & Htime) & _) _]. rewrite Htime.
  destruct (isProcessing _); simpl; lia.
Qed.

Lemma one_pending_witness : length (timeouts (engine (after pairUp))) ≤ 1.
Proof. apply one_pending, after_reachable, pairUp_plays. Defined.

(** C33: no callback outlives its game. *)
Theorem no_stale_timeout w :
  reachable w → app_gameState (app w) ≠ PLAYING → timeouts (engine w) = [].
Proof.
  intros Hw Hg. reach_inv Hw. destruct Hw as [Hst _].
  destruct (timeouts (engine w)) as [|t ts] eqn:Ht; [done|].
  destruct Hg. apply (pending_playing _ _ 0 Hst). rewrite Ht. by exists t.
Qed.

Lemma no_stale_timeout_witness : timeouts (engine (after perfectGame)) = [].
Proof. apply no_stale_timeout; [apply after_reachable, perfectGame_plays|by_compute]. Defined.

(** The lock is held exactly while a callback is pending, and exactly while
    two cards are selected. *)
Theorem lock_iff_pending w :
  reachable w →
  (isProcessing (engine w) = true ↔ timeouts (engine w) ≠ [])
  ∧ (isProcessing (engine w) = true ↔ length (flippedIds (engine w)) = 2).
Proof.
  intros Hw. reach_inv Hw.
  destruct Hw as [((_ & _ & _ & Hlock & Htime) & _) _].
  rewrite Htime, Hlock. split; [|apply bool_decide_eq_true].
  by case_bool_decide.
Qed.

Lemma lock_iff_pending_witness :
  (isProcessing (engine (after oddUp)) = true
   ↔ timeouts (engine (after oddUp)) ≠ [])
  ∧ (isProcessing (engine (after oddUp)) = true
     ↔ length (flippedIds (engine (after oddUp))) = 2).
Proof. apply lock_iff_pending, after_reachable, oddUp_plays. Defined.

(** ** Phases *)

(** C6: the game is over exactly when the board is dealt and every card is
    matched. *)
Theorem game_over_iff_all_matched w :
  reachable w →
  app_gameState (app w) = GAME_OVER ↔
    cards (engine w) ≠ [] ∧ Forall (λ c, isMatched c) (cards (engine w)).
Proof.
  intros Hw. reach_inv Hw. destruct Hw as [(_ & Hphase & _) _].
  unfold phase_ok in Hphase. destruct (app_gameState (app w)).
  - destruct Hphase as (He & _). split; [done|].
    intros [Hne _]. by rewrite He in Hne.
  - split; [done|]. naive_solver.
  - destruct Hphase as (Hlen & _ & _ & Hall & _). split; [intros _|done].
    split; [|done]. intros Hnil. by rewrite Hnil in Hlen.
Qed.

Lemma game_over_iff_all_matched_witness :
  app_gameState (app (after perfectGame)) = GAME_OVER ↔
    cards (engine (after perfectGame)) ≠ []
    ∧ Forall (λ c, isMatched c) (cards (engine (after perfectGame))).
Proof. apply game_over_iff_all_matched, after_reachable, perfectGame_plays. Defined.

(** The interval runs exactly while the game is played. *)
Theorem interval_iff_playing w :
  reachable w → interval (app w) = true ↔ app_gameState (app w) = PLAYING.
Proof.
  intros Hw. reach_inv Hw. destruct Hw as [(_ & Hphase & _) _].
  unfold phase_ok in Hphase.
  destruct (app_gameState (app w)); destruct_and!; split; congruence.
Qed.

Lemma interval_iff_playing_witness :
  interval (app (after oneUp)) = true ↔ app_gameState (app (after oneUp)) = PLAYING.
Proof. apply interval_iff_playing, after_reachable, oneUp_plays. Defined.

(** C35: on the start screen nothing of the last game is left. *)
Theorem start_clean w :
  reachable w → app_gameState (app w) = START →
  engine w = initialEngine
  ∧ moves (app_stats (app w)) = Num 0 ∧ timer (app_stats (app w)) = Num 0.
Proof.
  intros Hw Hg. reach_inv Hw. destruct Hw as [(_ & Hphase & _) _].
  unfold phase_ok in Hphase. rewrite Hg in Hphase. naive_solver.
Qed.

Lemma start_clean_witness :
  engine mounted = initialEngine
  ∧ moves (app_stats (app mounted)) = Num 0
  ∧ timer (app_stats (app mounted)) = Num 0.
Proof. apply start_clean; [apply mounted_reachable|by_compute]. Defined.

(** A dealt board has [2 * PAIRS_COUNT] cards with distinct ids and paired
    emojis, in every phase that shows it. *)
Theorem board_dealt w :
  reachable w → app_gameState (app w) ≠ START →
  length (cards (engine w)) = 2 * PAIRS_COUNT
  ∧ NoDup (id <$> cards (engine w)) ∧ paired (cards (engine w)).
Proof.
  intros Hw Hg. reach_inv Hw.
  destruct Hw as [(((Hids & Hpair & _) & _) & Hphase & _) _].
  unfold phase_ok in Hphase.
  destruct (app_gameState (app w)); [done|..]; naive_solver.
Qed.

Lemma board_dealt_witness :
  length (cards (engine (after oddUp))) = 2 * PAIRS_COUNT
  ∧ NoDup (id <$> cards (engine (after oddUp)))
  ∧ paired (cards (engine (after oddUp))).
Proof. apply board_dealt; [apply after_reachable, oddUp_plays|by_compute]. Defined.

(** *** The cycle of phases *)

(** The transitions of the session. *)
Inductive transition : GameState → GameState → Prop :=
  | transition_start : transition START PLAYING
  | transition_finish : transition PLAYING GAME_OVER
  | transition_again : transition GAME_OVER START.

#[export] Instance transition_dec g g' : Decision (transition g g').
Proof.
  destruct g, g'; first [by left; constructor | right; inversion 1].
Defined.

(** C32: a step keeps the phase or follows the cycle START, PLAYING, GAME_OVER,
    START. *)
Theorem phase_step w w' :
  reachable w → step w w' →
  app_gameState (app w') = app_gameState (app w)
  ∨ transition (app_gameState (app w)) (app_gameState (app w')).
Proof.
  intros Hw Hstep. reach_inv Hw.
  destruct Hstep as [ev d w Hen].
  rewrite (react_nextApp ev d w Hw Hen), nextApp_gameState.
  destruct ev as [b|c| |i]; auto.
  - right. apply enabled_button in Hen as [[-> ->]|[-> ->]]; constructor.
  - case_match; [|by left]. right.
    destruct Hw as [Hst _]. rewrite (pending_playing _ _ _ Hst Hen). constructor.
Qed.

Lemma phase_step_witness :
  app_gameState (app (react (TimeoutFires 0) plainDraws (after pairUp)))
    = app_gameState (app (after pairUp))
  ∨ transition (app_gameState (app (after pairUp)))
      (app_gameState (app (react (TimeoutFires 0) plainDraws (after pairUp)))).
Proof.
  apply phase_step; [apply after_reachable, pairUp_plays|]. constructor. by_compute.
Defined.

(** C38: a game in progress cannot be abandoned: from PLAYING a step leads to
    PLAYING or to GAME_OVER, never to START. *)
Theorem no_abandon w w' :
  reachable w → step w w' → app_gameState (app w) = PLAYING →
  app_gameState (app w') = PLAYING ∨ app_gameState (app w') = GAME_OVER.
Proof.
  intros Hw Hstep Hg. reach_inv Hw.
  destruct Hstep as [ev d w Hen].
  rewrite (react_nextApp ev d w Hw Hen), nextApp_gameState.
  destruct ev as [b|c| |i]; auto.
  - apply enabled_button in Hen as [[-> ?]|[-> ?]]; congruence.
  - case_match; auto.
Qed.

Lemma no_abandon_witness :
  app_gameState (app (react Tick plainDraws (after oneUp))) = PLAYING
  ∨ app_gameState (app (react Tick plainDraws (after oneUp))) = GAME_OVER.
Proof.
  apply (no_abandon (after oneUp)); [apply after_reachable, oneUp_plays| |by_compute].
  constructor. by_compute.
Defined.

(** ** The grid *)

(** The grid is shown in every phase but START, with one element per card
    and no key twice. *)
Theorem grid_shown w :
  reachable w →
  match renderGrid (rendered w) with
  | None => app_gameState (app w) = START
  | Some views =>
      app_gameState (app w) ≠ START
      ∧ length views = 2 * PAIRS_COUNT ∧ NoDup (key <$> views)
  end.
Proof.
  intros Hw. reach_inv Hw.
  destruct Hw as [(((Hids & _) & _) & Hphase & _) _].
  assert (key <$> (cardView <$> cards (engine w)) = id <$> cards (engine w))
    as Hkeys by (by rewrite <-list_fmap_compose).
  unfold renderGrid, rendered, phase_ok in *. cbn [fst snd gameState App_props].
  destruct (app_gameState (app w)); destruct Hphase as (Hlen & _).
  - by rewrite Hlen.
  - rewrite bool_decide_eq_false_2 by done. cbn [andb].
    by rewrite Hkeys, length_fmap.
  - rewrite bool_decide_eq_false_2 by done. cbn [andb].
    by rewrite Hkeys, length_fmap.
Qed.

Lemma grid_shown_witness :
  match renderGrid (rendered (after oneUp)) with
  | None => app_gameState (app (after oneUp)) = START
  | Some views =>
      app_gameState (app (after oneUp)) ≠ START
      ∧ length views = 2 * PAIRS_COUNT ∧ NoDup (key <$> views)
  end.
Proof. apply grid_shown, after_reachable, oneUp_plays. Defined.
