(* ===== verification/Score.v ===== *)
(** * Score: moves, best score and what is stored

    The three numbers a player is shown at the end of a game.  [moves]
    counts the pairs turned in the current game: the ones resolved and the
    one whose callback is pending, so no game ends with fewer moves than
    pairs.  [bestMoves] is the least number of moves a game was finished
    with, starting from what the browser stored, and what the browser
    stores reads back as [bestMoves]. *)

From S2P Require Import Prelude Types Shuffle Board Storage Engine App GameUI.
From S2P Require Import Game Invariant Reducer Runs Pairs Liveness.

#[local] Open Scope upd_scope.

(** ** Moves *)

(** The pairs resolved in the current game, after one more event. *)
Definition countAfter (ev : Event) (n : nat) : nat :=
  match ev with
  | ClickButton _ => 0
  | TimeoutFires _ => S n
  | ClickCard _ | Tick => n
  end.

Definition resolvedFrom (n : nat) (evs : list (Event * Draws)) : nat :=
  foldl (λ n e, countAfter e.1 n) n evs.

(** The pairs resolved since the last button was pressed. *)
Definition pairsResolved (evs : list (Event * Draws)) : nat := resolvedFrom 0 evs.

(** [moves] is [n] resolved pairs and the pending ones. *)
Definition counted (n : nat) (w : World) : Prop :=
  moves (app_stats (app w)) = Num (Z.of_nat (n + length (timeouts (engine w)))).

Lemma counted_initial store : counted 0 (initialWorld store).
Proof. unfold counted. by destruct (initialWorld_state store) as [-> ->]. Qed.

Lemma counted_click c w n :
  counted n w →
  counted n (mkWorld (nextEngine (ClickCard c) (mkDraws [] []) w)
                     (nextApp (ClickCard c) w) (deps w)).
Proof.
  unfold counted. cbn [nextEngine nextApp engine app].
  unfold completesPair, clicked.
  intros Hm. destruct (accepts _ _); cbn [andb]; [|done].
  rewrite (bool_decide_ext _ _ (length_snoc_2 _ _)). case_bool_decide; [|done].
  cbn. rewrite Hm, length_app. cbn. f_equal. lia.
Qed.

Lemma react_counted ev d w n :
  world_inv w → enabled ev w → counted n w →
  counted (countAfter ev n) (react ev d w).
Proof.
  intros Hinv Hen Hm. unfold counted in *.
  rewrite react_nextEngine, react_nextApp by done.
  destruct ev as [b|c| |i]; cbn [countAfter].
  - destruct Hinv as [(_ & Hphase & _) _]. unfold phase_ok in Hphase.
    apply enabled_button in Hen as [[-> Hg]|[-> Hg]]; [|done].
    rewrite Hg in Hphase. destruct Hphase as (_ & _ & Hz & _).
    cbn -[newCards]. by rewrite Hz.
  - apply (counted_click c w n Hm).
  - done.
  - destruct Hinv as [(He & _) _]. destruct Hen as [t Ht].
    destruct (pending_inv _ _ _ He Ht) as (a & b & _ & _ & _ & Htime & _).
    rewrite Htime in Hm. cbn [nextEngine nextApp resolve timeouts].
    destruct (finishes w); rewrite ?finished_moves, Hm; f_equal; simpl; lia.
Qed.

Lemma run_counted evs w w' n :
  world_inv w → run evs w = Some w' → counted n w →
  counted (resolvedFrom n evs) w'.
Proof.
  revert w n. induction evs as [|[ev d] evs IH]; intros w n Hinv Hrun Hm.
  - by simplify_eq/=.
  - apply run_cons in Hrun as [Hen Hrun].
    apply (IH (react ev d w)); [|done|by apply react_counted].
    eapply step_inv; [done|by constructor].
Qed.

(** C3: after any run of a freshly mounted application, [moves] is the
    number of pairs resolved in the current game plus the pair whose
    callback is pending. *)
Theorem moves_count store evs w :
  run evs (initialWorld store) = Some w →
  moves (app_stats (app w)) =
    Num (Z.of_nat (pairsResolved evs + length (timeouts (engine w)))).
Proof.
  intros Hrun.
  exact (run_counted evs _ w 0 (initialWorld_inv store) Hrun (counted_initial store)).
Qed.

Lemma moves_count_witness :
  moves (app_stats (app (after twoTurns))) =
    Num (Z.of_nat (pairsResolved (eventsOf plainDraws twoTurns mounted)
                   + length (timeouts (engine (after twoTurns))))).
Proof. apply (moves_count None), after_run, twoTurns_plays. Defined.

(** During a game [moves] changes by the click that completes a pair, and
    by nothing else. *)
Theorem moves_step ev d w :
  reachable w → enabled ev w → app_gameState (app w) = PLAYING →
  moves (app_stats (app (react ev d w))) =
    match ev with
    | ClickCard c =>
        if completesPair c w
        then num_add (moves (app_stats (app w))) (Num 1)
        else moves (app_stats (app w))
    | _ => moves (app_stats (app w))
    end.
Proof.
  intros Hw Hen Hg. reach_inv Hw. rewrite react_nextApp by done.
  destruct ev as [b|c| |i]; cbn [nextApp].
  - apply enabled_button in Hen as [[_ ?]|[_ ?]]; congruence.
  - by case_match.
  - done.
  - case_match; [apply finished_moves|done].
Qed.

Lemma moves_step_witness :
  moves (app_stats (app (react (ClickCard (cardAt 8 (after oneUp))) plainDraws
                           (after oneUp)))) =
    if completesPair (cardAt 8 (after oneUp)) (after oneUp)
    then num_add (moves (app_stats (app (after oneUp)))) (Num 1)
    else moves (app_stats (app (after oneUp))).
Proof.
  apply (moves_step (ClickCard (cardAt 8 (after oneUp))));
    [apply after_reachable, oneUp_plays|by_compute|by_compute].
Defined.

(** ** A game takes a move for each pair *)

(** The moves pay for the matched cards: each move for two of them, the
    move of the pending pair for none yet. *)
Definition earned (w : World) : Prop :=
  ∃ m : nat, moves (app_stats (app w)) = Num (Z.of_nat m)
    ∧ matchedCount (cards (engine w)) + 2 * length (timeouts (engine w)) ≤ 2 * m.

Lemma matchedCount_newCards d : matchedCount (newCards d) = 0.
Proof.
  apply matchedCount_fresh. eapply Forall_impl; [apply newCards_face_down|].
  by intros c [_ ?].
Qed.

Lemma matchedCount_resolve e :
  engine_inv e → matchedCount (cards (resolve e)) ≤ matchedCount (cards e) + 2.
Proof.
  intros ((Hids & _) & _). unfold resolve. cbn [cards].
  destruct (pairOutcome _ _).
  - by apply matchedCount_matchCards.
  - rewrite (matchedCount_flags _ (cards e)); [lia|]. apply unflipCards_isMatched.
Qed.

Lemma earned_initial store : earned (initialWorld store).
Proof.
  unfold earned. destruct (initialWorld_state store) as [-> ->]. by exists 0.
Qed.

Lemma react_earned ev d w :
  world_inv w → enabled ev w → earned w → earned (react ev d w).
Proof.
  intros Hinv Hen (m & Hm & Hle). unfold earned.
  rewrite react_nextEngine, react_nextApp by done.
  pose proof Hinv as [(He & Hphase & _) _]. unfold phase_ok in Hphase.
  destruct ev as [b|c| |i].
  - apply enabled_button in Hen as [[-> Hg]|[-> Hg]]; rewrite Hg in Hphase.
    + destruct Hphase as (_ & _ & Hz & _). exists 0.
      cbn [nextEngine nextApp started app_stats cards timeouts].
      by rewrite Hz, matchedCount_newCards.
    + by exists 0.
  - cbn [nextEngine nextApp]. unfold completesPair, clicked.
    destruct (accepts _ _); cbn [andb]; [|by exists m].
    rewrite (bool_decide_ext _ _ (length_snoc_2 _ _)).
    case_bool_decide; cbn [cards timeouts].
    + exists (S m). cbn. rewrite Hm, length_app.
      rewrite (matchedCount_flags _ (cards (engine w))) by apply flipCard_isMatched.
      split; [simpl; f_equal; lia|simpl; lia].
    + exists m. by rewrite (matchedCount_flags _ (cards (engine w)))
        by apply flipCard_isMatched.
  - by exists m.
  - destruct Hen as [t Ht].
    destruct (pending_inv _ _ _ He Ht) as (a & b & _ & _ & _ & Htime & _).
    rewrite Htime in Hle. pose proof (matchedCount_resolve _ He).
    exists m. cbn [nextEngine nextApp].
    split; [by destruct (finishes w); rewrite ?finished_moves|].
    simpl in *. lia.
Qed.

Lemma reachable_earned w : reachable w → earned w.
Proof.
  revert w. apply reachable_ind; [apply earned_initial|apply react_earned].
Qed.

(** C25: a game is not finished in fewer moves than there are pairs: when
    the game is over, [moves] is a count of at least [PAIRS_COUNT]. *)
Theorem moves_at_least w :
  reachable w → app_gameState (app w) = GAME_OVER →
  ∃ m : nat, moves (app_stats (app w)) = Num (Z.of_nat m) ∧ PAIRS_COUNT ≤ m.
Proof.
  intros Hw Hover. destruct (reachable_earned w Hw) as (m & Hm & Hle).
  exists m. split; [done|]. reach_inv Hw.
  destruct Hw as [(_ & Hphase & _) _]. unfold phase_ok in Hphase.
  rewrite Hover in Hphase. destruct Hphase as (Hlen & _ & _ & Hall & _).
  rewrite matchedCount_all, Hlen in Hle by done. lia.
Qed.

Lemma moves_at_least_witness :
  ∃ m : nat, moves (app_stats (app (after perfectGame))) = Num (Z.of_nat m)
             ∧ PAIRS_COUNT ≤ m.
Proof.
  apply (moves_at_least (after perfectGame));
    [apply after_reachable, perfectGame_plays|by_compute].
Defined.

(** The bound is attained: the game without a mistake takes eight moves. *)
Example perfectGame_moves :
  moves (app_stats (app (after perfectGame))) = Num (Z.of_nat PAIRS_COUNT).
Proof. by vm_compute. Qed.

(** ** Best score *)

(** [Math.min] as the comparison of [highScoreEffect] computes it. *)
Definition num_min (m b : number) : number := if num_lt m b then m else b.

(** The event ends a game. *)
Definition finishing (ev : Event) (d : Draws) (w : World) : bool :=
  bool_decide (app_gameState (app w) = PLAYING
               ∧ app_gameState (app (react ev d w)) = GAME_OVER).

(** The moves of the games a run finishes, in order. *)
Fixpoint finalScores (evs : list (Event * Draws)) (w : World) : list number :=
  match evs with
  | [] => []
  | (ev, d) :: evs' =>
      (if finishing ev d w then [moves (app_stats (app (react ev d w)))] else [])
      ++ finalScores evs' (react ev d w)
  end.

Definition bestOf (best : number) (scores : list number) : number :=
  foldl (λ b m, num_min m b) best scores.

Lemma finished_bestMoves a :
  bestMoves (app_stats (finished a)) =
    num_min (moves (app_stats a)) (bestMoves (app_stats a)).
Proof. rewrite finished_eq. unfold num_min. by case_match. Qed.

Lemma finishing_finishes ev d w :
  world_inv w → enabled ev w →
  finishing ev d w = match ev with TimeoutFires _ => finishes w | _ => false end.
Proof.
  intros Hinv Hen. unfold finishing. rewrite react_nextApp by done.
  pose proof (finishes_iff ev w Hinv Hen) as Hiff.
  destruct ev as [b|c| |i]; try (apply bool_decide_eq_false_2; naive_solver).
  destruct (finishes w);
    [apply bool_decide_eq_true_2|apply bool_decide_eq_false_2]; naive_solver.
Qed.

Lemma react_bestMoves ev d w :
  world_inv w → enabled ev w →
  bestMoves (app_stats (app (react ev d w))) =
    if finishing ev d w
    then num_min (moves (app_stats (app (react ev d w))))
                 (bestMoves (app_stats (app w)))
    else bestMoves (app_stats (app w)).
Proof.
  intros Hinv Hen. rewrite finishing_finishes, react_nextApp by done.
  destruct ev as [[]|c| |i]; cbn [nextApp]; try done; case_match; try done.
  by rewrite finished_bestMoves, finished_moves.
Qed.

Lemma run_bestMoves evs w w' :
  world_inv w → run evs w = Some w' →
  bestMoves (app_stats (app w')) =
    bestOf (bestMoves (app_stats (app w))) (finalScores evs w).
Proof.
  revert w. induction evs as [|[ev d] evs IH]; intros w Hinv Hrun.
  - by simplify_eq/=.
  - apply run_cons in Hrun as [Hen Hrun].
    rewrite (IH (react ev d w)); [|by eapply step_inv; [|constructor]|done].
    rewrite react_bestMoves by done. cbn [finalScores]. unfold bestOf.
    rewrite foldl_app. by case_match.
Qed.

(** C4: after any run of a freshly mounted application, [bestMoves] is the
    least of what the browser had stored and the moves of every game the
    run finished. *)
Theorem best_is_min store evs w :
  run evs (initialWorld store) = Some w →
  bestMoves (app_stats (app w)) =
    bestOf (loadBestMoves store) (finalScores evs (initialWorld store)).
Proof.
  intros Hrun. rewrite (run_bestMoves evs _ w (initialWorld_inv store) Hrun).
  by destruct (initialWorld_state store) as [_ ->].
Qed.

Lemma best_is_min_witness :
  bestMoves (app_stats (app (after perfectGame))) =
    bestOf (loadBestMoves None)
      (finalScores (eventsOf plainDraws perfectGame mounted) (initialWorld None)).
Proof. apply best_is_min, after_run, perfectGame_plays. Defined.

(** [bestOf] on counts is the minimum. *)
Lemma bestOf_Num b ms :
  bestOf (Num b) (Num <$> ms) = Num (foldl Z.min b ms).
Proof.
  revert b. induction ms as [|m ms IH]; intros b; [done|].
  cbn. unfold num_min. simpl. rewrite <-IH. unfold bestOf. f_equal.
  case_bool_decide; f_equal; lia.
Qed.

(** A best score that is not a number stays what it is. *)
Lemma bestOf_NaN ms : bestOf NaN ms = NaN.
Proof. induction ms as [|m ms IH]; [done|]. cbn. by destruct m. Qed.

(** The best score never gets worse. *)
Theorem bestMoves_step w w' b :
  reachable w → step w w' → bestMoves (app_stats (app w)) = Num b →
  ∃ b', bestMoves (app_stats (app w')) = Num b' ∧ (b' ≤ b)%Z.
Proof.
  intros Hw Hstep Hb. reach_inv Hw. destruct Hstep as [ev d w Hen].
  rewrite react_bestMoves by done. case_match; [|exists b; split; [done|lia]].
  rewrite Hb. unfold num_min. destruct (moves _) as [|m]; [by exists b|]. simpl.
  case_bool_decide; eexists; (split; [done|lia]).
Qed.

Lemma bestMoves_step_witness :
  ∃ b', bestMoves (app_stats (app (react (TimeoutFires 0) plainDraws
                                     (after pairUp)))) = Num b'
        ∧ (b' ≤ 9999)%Z.
Proof.
  apply (bestMoves_step (after pairUp));
    [apply after_reachable, pairUp_plays| |by_compute].
  constructor. by_compute.
Defined.

(** ** What is stored *)

(** The stored value reads back as the best score. *)
Definition storage_ok (a : App) : Prop :=
  loadBestMoves (localStorage a) = bestMoves (app_stats a).

Lemma nextApp_storage_ok ev w :
  world_inv w → storage_ok (app w) → storage_ok (nextApp ev w).
Proof.
  intros [(_ & _ & Hm & _) _] Hok. unfold storage_ok.
  rewrite nextApp_bestMoves, nextApp_localStorage. case_match; [|done].
  destruct (moves _) as [|m]; [done|]. apply (loadBestMoves_setItem m None).
Qed.

(** C31: in every reachable world the stored value reads back as the best score:
    a reload shows the best score of the session before. *)
Theorem stored_best w :
  reachable w → loadBestMoves (localStorage (app w)) = bestMoves (app_stats (app w)).
Proof.
  revert w. apply reachable_ind.
  - intros store. by destruct (initialWorld_state store) as [_ ->].
  - intros ev d w Hinv Hen Hok. rewrite react_nextApp by done.
    by apply nextApp_storage_ok.
Qed.

Lemma stored_best_witness :
  loadBestMoves (localStorage (app (after perfectGame)))
  = bestMoves (app_stats (app (after perfectGame))).
Proof. apply stored_best, after_reachable, perfectGame_plays. Defined.

(** C36: a stored value that is not a number disables the best score: no game
    improves on it and nothing is ever stored. *)
Theorem corrupt_store_sticks store evs w :
  loadBestMoves store = NaN → run evs (initialWorld store) = Some w →
  bestMoves (app_stats (app w)) = NaN ∧ localStorage (app w) = store.
Proof.
  intros Hnan Hrun%run_rtc. revert w Hrun.
  apply rtc_step_ind; [apply initialWorld_inv|..].
  - by destruct (initialWorld_state store) as [_ ->].
  - intros ev d w Hinv Hen [Hb Hs]. rewrite react_nextApp by done.
    rewrite nextApp_bestMoves, nextApp_localStorage.
    assert (improving ev w = false) as ->; [|done].
    destruct ev; try done. cbn [improving].
    by rewrite Hb, num_lt_NaN_r, andb_false_r.
Qed.

Lemma corrupt_store_sticks_witness :
  bestMoves (app_stats (app (react (ClickButton StartGame) plainDraws
                               (initialWorld (Some "best"%string))))) = NaN
  ∧ localStorage (app (react (ClickButton StartGame) plainDraws
                         (initialWorld (Some "best"%string))))
    = Some "best"%string.
Proof.
  apply (corrupt_store_sticks _ [(ClickButton StartGame, plainDraws)]);
    [by_compute|by_compute].
Defined.

(** C37: the start screen shows a best score below 9999 and hides any other:
    with nothing stored, a game finished in 9999 moves or more leaves no
    trace. *)
Theorem sentinel_hides_score a m :
  bestMoves (app_stats a) = Num 9999 → moves (app_stats a) = Num m →
  (9999 ≤ m)%Z →
  bestMoves (app_stats (finished a)) = Num 9999
  ∧ localStorage (finished a) = localStorage a
  ∧ renderUI (restarted (finished a)) = StartScreen None.
Proof.
  intros Hb Hm Hle. rewrite finished_eq, Hb, Hm. simpl.
  rewrite bool_decide_eq_false_2 by lia. split_and!; [done..|].
  unfold renderUI, restarted. simpl. by rewrite Hb.
Qed.

Lemma sentinel_hides_score_witness :
  let a := mkApp PLAYING (mkStats (Num 10000) (Num 9999) (Num 0)) true None in
  bestMoves (app_stats (finished a)) = Num 9999
  ∧ localStorage (finished a) = localStorage a
  ∧ renderUI (restarted (finished a)) = StartScreen None.
Proof. apply (sentinel_hides_score _ 10000); [done|done|lia]. Defined.
