(* ===== verification/Faults.v ===== *)
(** * Faults: a store that throws

    [src/App.tsx] reaches [localStorage] in two places, neither inside a
    [try]: [getItem] in the argument of [useState] (line 11) and [setItem]
    in the high-score effect (line 33).  A browser may refuse both (storage
    disabled: every access throws) or the second (no quota: reads work,
    writes throw).  An exception thrown while a component renders or an
    effect runs is caught by no one here, and React unmounts the
    application.

    This file is [Game] with that possibility: [setItemIn] and
    [highScoreEffectIn] are the source's calls with a result that is a
    value or an exception, [commitIn], [settleIn] and [reactIn] thread it.
    With a store that works nothing changes; with one that cannot be
    written the application is lost exactly when a game ends with a score
    better than the best one, and its state up to then is that of
    [Game]. *)

From S2P Require Import Prelude Types Shuffle Board Storage Engine App GameUI.
From S2P Require Import Game Invariant Runs Reducer.

#[local] Open Scope upd_scope.

Implicit Types (w : World) (a r : App) (d : Draws) (ev : Event).

(** ** Results *)

(** What the browser lets the page do with its store. *)
Inductive Access := Granted | ReadOnly | Denied.

#[export] Instance Access_eq_dec : EqDecision Access.
Proof. solve_decision. Defined.

Inductive Exception := GetItemThrew | SetItemThrew.

#[export] Instance Exception_eq_dec : EqDecision Exception.
Proof. solve_decision. Defined.

(** A value, or an exception nobody caught. *)
Inductive Result (A : Type) :=
  | Ok (value : A)
  | Throw (e : Exception).

#[global] Arguments Ok {A} value.
#[global] Arguments Throw {A} e.

#[export] Instance Result_eq_dec `{EqDecision A} : EqDecision (Result A).
Proof. solve_decision. Defined.

#[export] Instance Result_ret : MRet Result := @Ok.

#[export] Instance Result_bind : MBind Result := λ A B f x,
  match x with
  | Ok value => f value
  | Throw e => Throw e
  end.

(** ** The two calls *)

(** [localStorage.getItem('memory_best_moves')] *)
Definition getItemIn (access : Access) (store : LocalStorage) : Result LocalStorage :=
  match access with
  | Denied => Throw GetItemThrew
  | Granted | ReadOnly => Ok store
  end.

(** [localStorage.setItem('memory_best_moves', v)] *)
Definition setItemIn (access : Access) (v : string) (a : App) : Result App :=
  match access with
  | Granted => Ok (localStorage_setItem v a)
  | ReadOnly | Denied => Throw SetItemThrew
  end.

(** ** The session with a store that throws *)

(** The effect "Handle Game Over High Score". *)
Definition highScoreEffectIn (access : Access) (r : App) (a : App) : Result App :=
  if bool_decide (app_gameState r = GAME_OVER) then
    if num_lt (moves (app_stats r)) (bestMoves (app_stats r)) then
      a' ← setItemIn access (toString (moves (app_stats r))) a;
      Ok (setStats (λ prev, set_bestMoves (moves (app_stats r)) prev) a')
    else Ok a
  else Ok a.

(** The effects due after the render of [w]; the last one may throw. *)
Definition effectsIn (access : Access) (d : Draws) (w : World)
    (s : Engine * App) : Result (Engine * App) :=
  let r := rendered w in
  let s' :=
    (when (changed (depsInit (deps w)) (initDeps r)) (initEffect r d) ;;
     when (changed (depsTimer (deps w)) (timerDeps (app w)))
       (props (timerEffect (app w)))) s in
  if changed (depsHighScore (deps w)) (highScoreDeps (app w))
  then a ← highScoreEffectIn access (app w) s'.2; Ok (s'.1, a)
  else Ok s'.

Definition commitIn (access : Access) (d : Draws) (w : World) : Result World :=
  s ← effectsIn access d w (rendered w);
  Ok (mkWorld s.1 s.2 (depsOf w)).

Fixpoint settleIn (access : Access) (fuel : nat) (d : Draws) (w : World)
    : Result World :=
  match fuel with
  | 0 => Ok w
  | S fuel' =>
      if bool_decide (stable w) then Ok w
      else w' ← commitIn access d w; settleIn access fuel' d w'
  end.

Definition reactIn (access : Access) (ev : Event) (d : Draws) (w : World)
    : Result World :=
  settleIn access renderFuel d (handle ev w).

(** The first render and its effects. *)
Definition mountIn (access : Access) (store : LocalStorage) : Result World :=
  store' ← getItemIn access store;
  settleIn access renderFuel (mkDraws [] [])
    (mkWorld initialEngine (initialApp store') (mkDeps None None None)).

(** A run of events; it ends with the first exception. *)
Fixpoint runIn (access : Access) (evs : list (Event * Draws)) (w : World)
    : Result (option World) :=
  match evs with
  | [] => Ok (Some w)
  | (ev, d) :: evs' =>
      if decide (enabled ev w)
      then w' ← reactIn access ev d w; runIn access evs' w'
      else Ok None
  end.

(** ** When [setItem] is called *)

(** The commit of [w] calls [setItem]: the high-score effect is due, the
    game is over and the moves are fewer than the best score. *)
Definition stores (w : World) : bool :=
  changed (depsHighScore (deps w)) (highScoreDeps (app w)) && improves (app w).

Lemma highScoreEffectIn_eq access r a :
  highScoreEffectIn access r a =
    if improves r && bool_decide (access ≠ Granted) then Throw SetItemThrew
    else Ok (highScoreEffect r a).
Proof.
  unfold highScoreEffectIn, highScoreEffect, improves.
  case_bool_decide; [|done]. destruct (num_lt _ _); [|done].
  by destruct access.
Qed.

Lemma commitIn_eq access d w :
  commitIn access d w =
    if stores w && bool_decide (access ≠ Granted) then Throw SetItemThrew
    else Ok (commit d w).
Proof.
  unfold commitIn, effectsIn, stores, commit, effects. unfold_upd.
  destruct (changed (depsHighScore _) _); [|done]. cbn [andb].
  rewrite highScoreEffectIn_eq.
  by destruct (improves _ && _).
Qed.

Lemma stable_stores w : stable w → stores w = false.
Proof.
  unfold stable, stores. intros ->. cbn [depsOf depsHighScore].
  by rewrite changed_same.
Qed.

(** Once the best score is written, the effect has nothing more to
    write. *)
Lemma stores_commit d w : stores (commit d w) = false.
Proof.
  unfold stores. rewrite commit_deps, commit_app. cbn [depsHighScore depsOf].
  unfold highScoreDeps at 2.
  rewrite appEffects_gameState, appEffects_moves, appEffects_bestMoves.
  fold (stores w). destruct (stores w) eqn:Hw.
  - unfold improves. rewrite appEffects_gameState, appEffects_moves.
    rewrite appEffects_bestMoves. fold (stores w). rewrite Hw.
    apply andb_false_intro2. apply andb_false_iff. right.
    destruct (moves _); simpl; [done|]. apply bool_decide_eq_false. lia.
  - by rewrite changed_same.
Qed.

Lemma settleIn_eq access d w :
  settleIn access renderFuel d w =
    if stores w && bool_decide (access ≠ Granted) then Throw SetItemThrew
    else Ok (settle renderFuel d w).
Proof.
  unfold renderFuel. cbn [settleIn settle].
  case_bool_decide as Hw; [by rewrite stable_stores|].
  rewrite commitIn_eq. destruct (stores w && _); [done|]. cbn.
  case_bool_decide; [done|]. by rewrite commitIn_eq, stores_commit.
Qed.

Lemma reactIn_eq access ev d w :
  reactIn access ev d w =
    if stores (handle ev w) && bool_decide (access ≠ Granted)
    then Throw SetItemThrew else Ok (react ev d w).
Proof. apply settleIn_eq. Qed.

(** ** A store that works *)

Lemma reactIn_Granted ev d w : reactIn Granted ev d w = Ok (react ev d w).
Proof. by rewrite reactIn_eq, andb_false_r. Qed.

(** With a store that works the runs are those of [Game]. *)
Lemma runIn_Granted evs w : runIn Granted evs w = Ok (run evs w).
Proof.
  revert w. induction evs as [|[ev d] evs IH]; intros w; [done|].
  cbn [runIn run]. case_decide; [|done]. rewrite reactIn_Granted. apply IH.
Qed.

Lemma mountIn_initialWorld access store :
  access ≠ Denied → mountIn access store = Ok (initialWorld store).
Proof.
  intros Haccess. unfold mountIn.
  replace (getItemIn access store) with (Ok store) by by destruct access.
  cbn [mbind Result_bind]. rewrite settleIn_eq. unfold stores, improves.
  cbn [app initialApp app_gameState].
  by rewrite (bool_decide_eq_false_2 (START = GAME_OVER)), andb_false_r.
Qed.

(** ** A store that cannot be written *)

(** The handler of an event leaves a write for the effect exactly when the
    event ends a game with fewer moves than the best score. *)
Lemma stores_handle ev w :
  world_inv w → enabled ev w → stores (handle ev w) = improving ev w.
Proof.
  intros [Hst Hw] Hen. unfold stores, handle. cbn [deps app]. rewrite Hw.
  cbn [depsOf depsHighScore]. destruct ev as [b|c| |i]; cbn [dispatch improving].
  - apply enabled_button in Hen as [[-> Hg]|[-> Hg]];
      unfold improves; cbn; apply andb_false_r.
  - pose proof (handleCardClick_gameState (rendered w) c (rendered w)) as Hg.
    cbn [rendered fst snd gameState App_props] in Hg.
    destruct (decide (app_gameState (app w) = GAME_OVER)) as [Hover|Hover].
    + rewrite handleCardClick_rejected; [by rewrite changed_same|].
      unfold accepts. cbn. by rewrite Hover.
    + unfold improves. rewrite Hg, bool_decide_eq_false_2 by done.
      apply andb_false_r.
  - pose proof (state_inv_interval _ _ Hst Hen) as Hg. unfold improves.
    cbn. rewrite Hg. apply andb_false_r.
  - pose proof (pending_playing _ _ _ Hst Hen) as Hg.
    destruct Hst as (He & _).
    rewrite (fireTimeout_resolve (rendered w) i He Hen). unfold finishes.
    cbn [rendered fst snd]. destruct (forallb _ _); [|by rewrite changed_same].
    unfold improves, highScoreDeps. cbn. rewrite Hg.
    by rewrite changed_ne, (bool_decide_eq_true_2 (GAME_OVER = GAME_OVER)).
Qed.

(** C26: with a store that cannot be written the application is lost
    exactly when a game ends with fewer moves than the best score: the
    effect's [setItem] throws and nothing catches it.  Any other event is
    handled as with a working store. *)
Theorem unwritable_store_crashes ev d w :
  world_inv w → enabled ev w →
  reactIn ReadOnly ev d w =
    if improving ev w then Throw SetItemThrew else Ok (react ev d w).
Proof.
  intros Hinv Hen. by rewrite reactIn_eq, stores_handle, andb_true_r.
Qed.

(** The game without a mistake, its last callback pending. *)
Definition lastPairUp : list Action := removelast perfectGame.

Lemma lastPairUp_plays : is_Some (play plainDraws lastPairUp mounted).
Proof. vm_compute. by eexists. Qed.

Lemma unwritable_store_crashes_witness :
  reactIn ReadOnly (TimeoutFires 0) plainDraws (after lastPairUp) =
    if improving (TimeoutFires 0) (after lastPairUp)
    then Throw SetItemThrew
    else Ok (react (TimeoutFires 0) plainDraws (after lastPairUp)).
Proof.
  apply (unwritable_store_crashes (TimeoutFires 0) plainDraws (after lastPairUp));
    [apply after_inv, lastPairUp_plays|by_compute].
Defined.

(** ** Examples *)

(** A first game, played without a mistake: with a working store it ends
    on the end screen, with one that cannot be written in an exception,
    and with no store at all the application does not start. *)
Example perfectGame_faults :
  let evs := eventsOf plainDraws perfectGame mounted in
  runIn Granted evs mounted = Ok (Some (after perfectGame))
  ∧ runIn ReadOnly evs mounted = Throw SetItemThrew
  ∧ mountIn Denied None = Throw GetItemThrew.
Proof. by vm_compute. Qed.

(** Up to its last callback the game is played as with a working store. *)
Example lastPairUp_played :
  runIn ReadOnly (eventsOf plainDraws lastPairUp mounted) mounted
  = Ok (Some (after lastPairUp)).
Proof. by vm_compute. Qed.
