(* ===== verification/Scenarios.v ===== *)
(** * Scenarios: four games, played

    The scenarios the specification lists, run on the model from a fresh
    mount.  The board of the application always has [2 * PAIRS_COUNT] cards,
    so a scenario stated on a board of four cards is played on the first
    cards of a board of sixteen: with [plainDraws] the cards at [i] and
    [i + PAIRS_COUNT] carry the same emoji and the cards at [0] and [1] do
    not.  The last scenario resets a game in progress, which no button of
    the application does; [abandon] is what [resetGame] would do if it were
    called then. *)

From S2P Require Import Prelude Types Shuffle Board Storage Engine App GameUI.
From S2P Require Import Game Invariant Runs Reducer.

#[local] Open Scope string_scope.

(** ** What a player sees *)

(** The faces of the cards: face up, matched. *)
Definition faces (w : World) : list (bool * bool) :=
  (λ c, (isFlipped c, isMatched c)) <$> cards (engine w).

Definition phase (w : World) : GameState := app_gameState (app w).

Definition movesOf (w : World) : number := moves (app_stats (app w)).

Definition bestOfWorld (w : World) : number := bestMoves (app_stats (app w)).

(** The world a script leads to from a mount with the stored value
    [store]. *)
Definition afterFrom (store : LocalStorage) (script : list Action) : World :=
  default (initialWorld store) (play plainDraws script (initialWorld store)).

(** A game with one mistake: nine moves. *)
Definition flawedGame : list Action :=
  [Press StartGame; Flip 0; Flip 1; Expire] ++ (seq 0 PAIRS_COUNT ≫= takePair).

(** ** Scenario A: a match *)

(** Two cards with the same emoji are selected; after the delay both
    are matched and stay face up, one move is counted, the selection is
    empty and the lock is released.  Fourteen cards are left, so the game
    goes on. *)
Example scenario_match :
  let w := after (pairUp ++ [Expire]) in
  faces w !! 0 = Some (true, true) ∧ faces w !! 8 = Some (true, true)
  ∧ movesOf w = Num 1 ∧ phase w = PLAYING
  ∧ flippedIds (engine w) = [] ∧ isProcessing (engine w) = false
  ∧ timeouts (engine w) = [].
Proof. vm_compute. done. Qed.

(** The last pair ends the game: every card is matched, eight moves are
    counted and stored as the best score, and the interval is stopped. *)
Example scenario_finish :
  let w := after perfectGame in
  phase w = GAME_OVER ∧ faces w = replicate 16 (true, true)
  ∧ movesOf w = Num 8 ∧ bestOfWorld w = Num 8
  ∧ localStorage (app w) = Some "8" ∧ interval (app w) = false.
Proof. vm_compute. done. Qed.

(** ** Scenario B: a mismatch *)

(** Two cards with different emojis are selected: while the callback is
    pending both are face up and the lock is held; after the delay both lie
    face down again, one move is counted and the game goes on. *)
Example scenario_mismatch :
  let w := after oddUp in
  let w' := after (oddUp ++ [Expire]) in
  (faces w !! 0 = Some (true, false) ∧ faces w !! 1 = Some (true, false)
   ∧ isProcessing (engine w) = true
   ∧ timeouts (engine w) = [MismatchTimeout (Some "card-0") (Some "card-1")])
  ∧ faces w' = replicate 16 (false, false)
  ∧ movesOf w' = Num 1 ∧ phase w' = PLAYING
  ∧ flippedIds (engine w') = [] ∧ isProcessing (engine w') = false.
Proof. vm_compute. done. Qed.

(** ** Scenario C: the best score *)

(** With a stored best score of 20, a game of 8 moves makes 8 the best
    score and stores it; a second game of 9 moves leaves it.  With a stored
    best score of 5 a game of 8 moves changes nothing. *)
Example scenario_best :
  let first := afterFrom (Some "20") perfectGame in
  let second := afterFrom (Some "20") (perfectGame ++ [Press PlayAgain] ++ flawedGame) in
  let other := afterFrom (Some "5") perfectGame in
  (bestOfWorld (initialWorld (Some "20")) = Num 20
   ∧ movesOf first = Num 8 ∧ bestOfWorld first = Num 8
   ∧ localStorage (app first) = Some "8")
  ∧ (phase second = GAME_OVER ∧ movesOf second = Num 9
     ∧ bestOfWorld second = Num 8 ∧ localStorage (app second) = Some "8")
  ∧ (phase other = GAME_OVER ∧ bestOfWorld other = Num 5
     ∧ localStorage (app other) = Some "5").
Proof. vm_compute. done. Qed.

(** ** Scenario D: a reset during a game *)

(** [resetGame] called in the world [w], and the renders that follow. *)
Definition abandon (w : World) : World :=
  settle renderFuel plainDraws
    (mkWorld (engine w) (resetGame (app w)) (deps w)).

(** No button resets a game in progress. *)
Example reset_not_offered :
  buttonsOf (renderUI (app (after oneUp))) = []
  ∧ play plainDraws (oneUp ++ [Press PlayAgain]) mounted = None.
Proof. vm_compute. done. Qed.

(** If [resetGame] is called during a game, the phase is START again,
    moves and timer are cleared, the best score is kept, the board is
    removed and the interval is stopped. *)
Example scenario_reset :
  let w := after (twoTurns ++ [Expire; Second; Second]) in
  let w' := abandon w in
  (phase w = PLAYING ∧ movesOf w = Num 2 ∧ timer (app_stats (app w)) = Num 2)
  ∧ phase w' = START ∧ movesOf w' = Num 0 ∧ timer (app_stats (app w')) = Num 0
  ∧ bestOfWorld w' = bestOfWorld w
  ∧ engine w' = initialEngine ∧ interval (app w') = false.
Proof. vm_compute. done. Qed.

