(* ===== verification/Spec.v ===== *)
(** * Spec: the state machine of the specification

    The specification describes the game without React: a session (phase,
    moves, elapsed seconds, best score) and a board (cards, selected ids,
    lock), with the operations [start], [tick] (here [tickSecond]),
    [recordMove], [finish] and [reset] of the session controller, and
    [select] and the settling of a pair ([settlePair]) of the board engine.
    This file writes that machine down as the specification states it
    (sections 3 and 4), independently of the code; [Refinement] shows that
    the code implements it.  Counts are natural numbers and an unset best
    score is [None]. *)

From S2P Require Import Prelude.

Module Spec.

Inductive Phase := NotStarted | InProgress | Finished.

#[export] Instance Phase_eq_dec : EqDecision Phase.
Proof. solve_decision. Defined.

Record BoardCard := mkBoardCard {
  id : string;
  symbol : string;
  faceUp : bool;
  matched : bool;
}.

#[export] Instance BoardCard_eq_dec : EqDecision BoardCard.
Proof. solve_decision. Defined.

(** Session and board in one state. *)
Record State := mkState {
  phase : Phase;
  moves : nat;
  elapsedSeconds : nat;
  bestMoves : option nat;
  cards : list BoardCard;
  selectedIds : list string;
  locked : bool;
}.

#[export] Instance State_eq_dec : EqDecision State.
Proof. solve_decision. Defined.

(** ** The board engine *)

(** A board as the deal algorithm produces it: an even number of cards with
    unique ids, every symbol on exactly two cards, all face down and
    unmatched. *)
Definition dealt (gridCells : nat) (board : list BoardCard) : Prop :=
  length board = gridCells
  ∧ NoDup (id <$> board)
  ∧ Forall (λ c, occ (symbol c) (symbol <$> board) = 2) board
  ∧ Forall (λ c, faceUp c = false ∧ matched c = false) board.

Definition lookupCard (i : string) (cs : list BoardCard) : option BoardCard :=
  find (λ c, bool_decide (id c = i)) cs.

Definition updateCards (ids : list string) (f : BoardCard → BoardCard) (cs : list BoardCard)
    : list BoardCard :=
  (λ c, if bool_decide (id c ∈ ids) then f c else c) <$> cs.

Definition turnUp (c : BoardCard) : BoardCard := mkBoardCard (id c) (symbol c) true (matched c).

Definition turnDown (c : BoardCard) : BoardCard := mkBoardCard (id c) (symbol c) false (matched c).

Definition markMatched (c : BoardCard) : BoardCard := mkBoardCard (id c) (symbol c) true true.

(** ** The session controller *)

Definition start (board : list BoardCard) (s : State) : State :=
  mkState InProgress 0 0 (bestMoves s) board [] false.

Definition tickSecond (s : State) : State :=
  match phase s with
  | InProgress =>
      mkState (phase s) (moves s) (S (elapsedSeconds s)) (bestMoves s)
        (cards s) (selectedIds s) (locked s)
  | _ => s
  end.

Definition recordMove (s : State) : State :=
  mkState (phase s) (S (moves s)) (elapsedSeconds s) (bestMoves s)
    (cards s) (selectedIds s) (locked s).

(** The best score after a game of [m] moves. *)
Definition improve (m : nat) (best : option nat) : option nat :=
  match best with
  | Some b => if decide (m < b) then Some m else Some b
  | None => Some m
  end.

Definition finish (s : State) : State :=
  mkState Finished (moves s) (elapsedSeconds s) (improve (moves s) (bestMoves s))
    (cards s) (selectedIds s) (locked s).

Definition reset (s : State) : State :=
  mkState NotStarted 0 0 (bestMoves s) [] [] false.

(** ** Selection *)

(** A selection is rejected when the board is locked, the card is matched or
    face up, or no game is in progress. *)
Definition rejects (c : BoardCard) (s : State) : bool :=
  locked s || matched c || faceUp c || bool_decide (phase s ≠ InProgress).

Definition select (cardId : string) (s : State) : State :=
  match lookupCard cardId (cards s) with
  | Some c =>
      if rejects c s then s
      else
        let cs := updateCards [cardId] turnUp (cards s) in
        let ids := selectedIds s ++ [cardId] in
        let s' := mkState (phase s) (moves s) (elapsedSeconds s) (bestMoves s)
                    cs ids (bool_decide (length ids = 2)) in
        if bool_decide (length ids = 2) then recordMove s' else s'
  | None => s
  end.

(** The two selected cards carry the same symbol. *)
Definition isMatch (s : State) : bool :=
  match selectedIds s with
  | [a; b] =>
      match lookupCard a (cards s), lookupCard b (cards s) with
      | Some c1, Some c2 => bool_decide (symbol c1 = symbol c2)
      | _, _ => false
      end
  | _ => false
  end.

(** The end of the settle delay. *)
Definition settlePair (s : State) : State :=
  let f := if isMatch s then markMatched else turnDown in
  let cs := updateCards (selectedIds s) f (cards s) in
  let s' := mkState (phase s) (moves s) (elapsedSeconds s) (bestMoves s)
              cs [] false in
  if isMatch s && forallb matched cs then finish s' else s'.

(** ** Steps *)

Inductive Label :=
  | Start (board : list BoardCard)
  | Tick
  | Select (cardId : string)
  | Settle
  | Reset.

Definition apply (l : Label) (s : State) : State :=
  match l with
  | Start board => start board s
  | Tick => tickSecond s
  | Select cardId => select cardId s
  | Settle => settlePair s
  | Reset => reset s
  end.

(** When the specification allows an operation. *)
Definition allowed (gridCells : nat) (l : Label) (s : State) : Prop :=
  match l with
  | Start board => phase s ≠ InProgress ∧ dealt gridCells board
  | Tick => phase s = InProgress
  | Select _ => True
  | Settle => locked s = true
  | Reset => True
  end.

Inductive stepsTo (gridCells : nat) : State → State → Prop :=
  | stepsTo_apply l s : allowed gridCells l s → stepsTo gridCells s (apply l s).

(** The session at process start, with the best score that was persisted. *)
Definition initial (best : option nat) : State :=
  mkState NotStarted 0 0 best [] [] false.

(** ** What the specification promises *)

(** The invariants of section 3 and the lock. *)
Definition wf (s : State) : Prop :=
  Forall (λ c, occ (symbol c) (symbol <$> cards s) = 2) (cards s)
  ∧ length (selectedIds s) ≤ 2
  ∧ (locked s = true ↔ length (selectedIds s) = 2)
  ∧ NoDup (id <$> cards s).

Lemma updateCards_id ids f cs :
  (∀ c, id (f c) = id c) → id <$> updateCards ids f cs = id <$> cs.
Proof.
  intros Hf. unfold updateCards. rewrite <-list_fmap_compose.
  apply list_fmap_ext; intros; simpl; case_match; auto.
Qed.

Lemma updateCards_symbol ids f cs :
  (∀ c, symbol (f c) = symbol c) → symbol <$> updateCards ids f cs = symbol <$> cs.
Proof.
  intros Hf. unfold updateCards. rewrite <-list_fmap_compose.
  apply list_fmap_ext; intros; simpl; case_match; auto.
Qed.

Lemma updateCards_pairs ids f cs :
  (∀ c, symbol (f c) = symbol c) →
  Forall (λ c, occ (symbol c) (symbol <$> cs) = 2) cs →
  Forall (λ c, occ (symbol c) (symbol <$> updateCards ids f cs) = 2)
    (updateCards ids f cs).
Proof.
  intros Hf Hcs. rewrite updateCards_symbol by done.
  unfold updateCards. rewrite Forall_fmap. eapply Forall_impl; [done|].
  intros c Hc. simpl. case_match; by rewrite ?Hf.
Qed.

Lemma initial_wf best : wf (initial best).
Proof. unfold wf. simpl. split_and!; [done|lia|done|constructor]. Qed.

Lemma select_wf i s : wf s → wf (select i s).
Proof.
  intros (Hpairs & Hlen & Hlock & Hids). unfold select.
  destruct (lookupCard i (cards s)) as [c|]; [|done].
  destruct (rejects c s) eqn:Hrej; [done|].
  assert (length (selectedIds s) ≠ 2) as Hne.
  { intros Hl2%Hlock. unfold rejects in Hrej. by rewrite Hl2 in Hrej. }
  unfold wf. case_bool_decide as H2; simpl;
    (split_and!; [by apply updateCards_pairs| | |by rewrite updateCards_id]);
    rewrite ?length_app in *; simpl in *; lia.
Qed.

Lemma settlePair_wf s : wf s → wf (settlePair s).
Proof.
  intros (Hpairs & Hlen & Hlock & Hids). unfold settlePair.
  assert (∀ c, symbol ((if isMatch s then markMatched else turnDown) c) = symbol c)
    as Hsym by (intros; by destruct (isMatch s)).
  assert (∀ c, id ((if isMatch s then markMatched else turnDown) c) = id c)
    as Hid by (intros; by destruct (isMatch s)).
  cut (wf (mkState (phase s) (moves s) (elapsedSeconds s) (bestMoves s)
             (updateCards (selectedIds s)
                (if isMatch s then markMatched else turnDown) (cards s)) [] false)).
  { by destruct (_ && _). }
  unfold wf. simpl.
  split_and!; [by apply updateCards_pairs|lia|done|by rewrite updateCards_id].
Qed.

(** Every step of the specification keeps its own invariants. *)
Lemma stepsTo_wf n s s' : wf s → stepsTo n s s' → wf s'.
Proof.
  intros Hs Hstep. destruct Hstep as [l s Hl]. destruct l as [board| |i| |].
  - destruct Hl as (_ & _ & ? & ? & _). unfold wf. simpl.
    split_and!; [done|lia|done|done].
  - destruct Hs as (? & ? & ? & ?). unfold apply, tickSecond. by destruct (phase s).
  - by apply select_wf.
  - by apply settlePair_wf.
  - unfold wf. simpl. split_and!; [done|lia|done|constructor].
Qed.

End Spec.
