(* ===== verification/Refinement.v ===== *)
(** * Refinement: the application implements the specification

    [abs] reads a state of the specification off a world: the phase, the two
    counters as natural numbers, the best score, the cards with their
    symbols and flags, the selection and the lock.  Every event is an
    operation of the specification ([label]), and [react_refines] shows that
    the application's reaction to an enabled event is that operation,
    allowed and carried out as the specification prescribes.  It follows
    that every reachable world abstracts to a state the specification can
    reach ([refines_run]), and so has the invariants the specification
    proves of its own states ([abs_wf]).

    Two things the abstraction cannot hide are stated as hypotheses or
    visible in the statements: the best score must be a number (a stored
    value that is not one makes the code and the specification differ), and
    a session with nothing stored starts from the best score 9999 where the
    specification says unset. *)

From S2P Require Import Prelude Types Shuffle Board Storage Engine App GameUI.
From S2P Require Import Game Invariant Runs Reducer Score Spec.

(** ** The abstraction *)

Definition absPhase (g : GameState) : Spec.Phase :=
  match g with
  | START => Spec.NotStarted
  | PLAYING => Spec.InProgress
  | GAME_OVER => Spec.Finished
  end.

Definition absCard (c : Card) : Spec.BoardCard :=
  Spec.mkBoardCard (id c) (emoji c) (isFlipped c) (isMatched c).

Definition absBest (x : number) : option nat :=
  match x with
  | Num z => Some (Z.to_nat z)
  | NaN => None
  end.

Definition absState (e : Engine) (a : App) : Spec.State :=
  Spec.mkState (absPhase (app_gameState a))
    (absCount (moves (app_stats a))) (absCount (timer (app_stats a)))
    (absBest (bestMoves (app_stats a)))
    (absCard <$> cards e) (flippedIds e) (isProcessing e).

Definition abs (w : World) : Spec.State := absState (engine w) (app w).

Definition label (ev : Event) (d : Draws) : Spec.Label :=
  match ev with
  | ClickButton StartGame => Spec.Start (absCard <$> newCards d)
  | ClickButton PlayAgain => Spec.Reset
  | ClickCard c => Spec.Select (id c)
  | Tick => Spec.Tick
  | TimeoutFires _ => Spec.Settle
  end.

(** ** Cards *)

Implicit Types (cs : list Card) (c : Card) (e : Engine) (a : App) (w : World).

Lemma absCard_id cs : Spec.id <$> (absCard <$> cs) = id <$> cs.
Proof. by rewrite <-list_fmap_compose. Qed.

Lemma absCard_symbol cs : Spec.symbol <$> (absCard <$> cs) = emoji <$> cs.
Proof. by rewrite <-list_fmap_compose. Qed.

Lemma absCard_paired cs :
  paired cs →
  Forall (λ x, occ (Spec.symbol x) (Spec.symbol <$> (absCard <$> cs)) = 2)
    (absCard <$> cs).
Proof. intros Hp. by rewrite absCard_symbol, Forall_fmap. Qed.

Lemma absCard_forallb cs :
  forallb Spec.matched (absCard <$> cs) = forallb isMatched cs.
Proof. induction cs as [|c cs IH]; [done|]. cbn. by rewrite <-IH. Qed.

Lemma absCard_lookup i cs :
  Spec.lookupCard i (absCard <$> cs) = absCard <$> find (hasId (Some i)) cs.
Proof.
  unfold Spec.lookupCard, hasId. induction cs as [|c cs IH]; [done|].
  rewrite fmap_cons. cbn [find]. rewrite IH. cbn [absCard Spec.id].
  repeat case_bool_decide; naive_solver.
Qed.

Lemma absCard_update (ids : list string) (test : Card → bool) f g cs :
  (∀ c, test c = bool_decide (id c ∈ ids)) →
  (∀ c, absCard (f c) = g (absCard c)) →
  absCard <$> ((λ c, if test c then f c else c) <$> cs)
  = Spec.updateCards ids g (absCard <$> cs).
Proof.
  intros Htest Hfg. unfold Spec.updateCards. rewrite <-!list_fmap_compose.
  apply list_fmap_ext. intros _ c _. simpl. rewrite Htest.
  case_bool_decide; [apply Hfg|done].
Qed.

Lemma absCard_flipCard i cs :
  absCard <$> flipCard i cs = Spec.updateCards [i] Spec.turnUp (absCard <$> cs).
Proof.
  apply (absCard_update [i] (λ c, bool_decide (id c = i))); [|done].
  intros c. apply bool_decide_ext. set_solver.
Qed.

Lemma hasId_pair (a b : string) c :
  hasId (Some a) c || hasId (Some b) c = bool_decide (id c ∈ [a; b]).
Proof.
  unfold hasId. apply eq_true_iff_eq.
  rewrite orb_true_iff, !bool_decide_eq_true. set_solver.
Qed.

Lemma absCard_matchCards (a b : string) cs :
  absCard <$> matchCards (Some a) (Some b) cs
  = Spec.updateCards [a; b] Spec.markMatched (absCard <$> cs).
Proof. apply absCard_update; [apply hasId_pair|done]. Qed.

Lemma absCard_unflipCards (a b : string) cs :
  absCard <$> unflipCards (Some a) (Some b) cs
  = Spec.updateCards [a; b] Spec.turnDown (absCard <$> cs).
Proof. apply absCard_update; [apply hasId_pair|done]. Qed.

(** ** Counts *)

Lemma absBest_improve m b :
  is_count m → is_count b →
  absBest (if num_lt m b then m else b) = Spec.improve (absCount m) (absBest b).
Proof.
  destruct m as [|m], b as [|b]; try done. simpl. intros Hm Hb.
  case_bool_decide; case_decide; f_equal; lia.
Qed.

(** ** One event *)

Section event.
Context (d : Draws) (w : World).
Context (Hinv : world_inv w) (Hbest : is_count (bestMoves (app_stats (app w)))).

Lemma refines_start :
  app_gameState (app w) = START →
  Spec.allowed (2 * PAIRS_COUNT) (label (ClickButton StartGame) d) (abs w)
  ∧ absState (mkEngine (newCards d) [] false []) (started (app w))
    = Spec.apply (label (ClickButton StartGame) d) (abs w).
Proof.
  intros Hg. destruct Hinv as [(_ & Hphase & _) _]. unfold phase_ok in Hphase.
  rewrite Hg in Hphase. destruct Hphase as (_ & _ & Hm & Ht). split.
  - split; [unfold abs, absState; simpl; by rewrite Hg|].
    unfold Spec.dealt. rewrite length_fmap, absCard_id.
    split_and!; [apply newCards_length|apply newCards_ids_NoDup|
      apply absCard_paired, Forall_forall, emojiCount_dealt|].
    rewrite Forall_fmap. apply newCards_face_down.
  - unfold abs, absState, started. cbn -[newCards]. by rewrite Hm, Ht.
Qed.

Lemma refines_again :
  absState initialEngine (restarted (app w))
  = Spec.apply (label (ClickButton PlayAgain) d) (abs w).
Proof. done. Qed.

Lemma refines_tick :
  interval (app w) = true →
  Spec.allowed (2 * PAIRS_COUNT) (label Tick d) (abs w)
  ∧ absState (engine w) (tick (app w)) = Spec.apply (label Tick d) (abs w).
Proof.
  intros Hint. destruct Hinv as [Hst _].
  pose proof (state_inv_interval _ _ Hst Hint) as Hg.
  destruct Hst as (_ & _ & _ & Ht).
  unfold abs, absState, Spec.allowed, Spec.apply, Spec.tickSecond, label. simpl.
  rewrite Hg. split; [done|]. by rewrite absCount_succ.
Qed.

Lemma rejects_accepts c :
  Spec.rejects (absCard c) (abs w) = negb (accepts (rendered w) c).
Proof.
  unfold Spec.rejects, accepts, abs, absState, rendered. simpl.
  destruct (app_gameState (app w)), (isProcessing (engine w)),
    (isMatched c), (isFlipped c); done.
Qed.

Lemma refines_click c :
  c ∈ cards (engine w) →
  absState (nextEngine (ClickCard c) d w) (nextApp (ClickCard c) w)
  = Spec.apply (label (ClickCard c) d) (abs w).
Proof.
  intros Hc. destruct Hinv as [(((Hids & _) & _) & _ & Hm & _) _].
  cbn [Spec.apply label nextEngine nextApp]. unfold Spec.select, completesPair.
  unfold abs at 1, absState at 2. cbn [Spec.cards].
  rewrite absCard_lookup, find_hasId_elem_of by done. cbn [fmap option_fmap option_map].
  rewrite rejects_accepts. destruct (accepts _ _) eqn:Hacc; cbn [negb andb]; [|done].
  assert (isProcessing (engine w) = false) as Hproc.
  { unfold accepts, rendered in Hacc. simpl in Hacc.
    destruct (isProcessing _); [by rewrite andb_false_r in Hacc|done]. }
  unfold clicked. rewrite (bool_decide_ext _ _ (length_snoc_2 _ _)).
  case_bool_decide as H2; unfold abs, absState, Spec.recordMove; simpl;
    rewrite ?absCard_flipCard, ?Hproc, ?absCount_succ by done.
  - by rewrite bool_decide_eq_true_2 by by apply length_snoc_2.
  - by rewrite bool_decide_eq_false_2 by by rewrite length_snoc_2.
Qed.

Lemma isMatch_pairOutcome (a b : string) e ap :
  flippedIds e = [a; b] →
  pairOutcome [a; b] (cards e) =
    if Spec.isMatch (absState e ap)
    then MatchTimeout (Some a) (Some b) else MismatchTimeout (Some a) (Some b).
Proof.
  intros Hids. unfold Spec.isMatch, pairOutcome, absState.
  cbn [Spec.selectedIds Spec.cards]. rewrite Hids, !absCard_lookup. simpl.
  destruct (find (hasId (Some a)) _), (find (hasId (Some b)) _); simpl; try done.
Qed.

Lemma absState_finished e ap :
  is_count (moves (app_stats ap)) → is_count (bestMoves (app_stats ap)) →
  absState e (finished ap) = Spec.finish (absState e ap).
Proof.
  intros Hm Hb. unfold Spec.finish, absState. cbn.
  rewrite finished_gameState, finished_moves, finished_timer, finished_bestMoves.
  unfold num_min. by rewrite absBest_improve.
Qed.

(** The abstract state after the settle delay, in terms of the engine. *)
Lemma settlePair_absState (a b : string) e ap :
  flippedIds e = [a; b] →
  Spec.settlePair (absState e ap) =
    let s' := absState (resolve e) ap in
    if Spec.isMatch (absState e ap) && forallb isMatched (cards (resolve e))
    then Spec.finish s' else s'.
Proof.
  intros Hids. unfold Spec.settlePair, resolve.
  rewrite Hids, (isMatch_pairOutcome a b e ap Hids).
  destruct (Spec.isMatch _); unfold absState;
    cbn [Spec.phase Spec.moves Spec.elapsedSeconds Spec.bestMoves Spec.cards
         Spec.selectedIds Spec.locked cards flippedIds isProcessing];
    by rewrite Hids, <-?absCard_matchCards, <-?absCard_unflipCards,
      ?absCard_forallb.
Qed.

Lemma refines_timeout i :
  enabled (TimeoutFires i) w →
  Spec.allowed (2 * PAIRS_COUNT) (label (TimeoutFires i) d) (abs w)
  ∧ absState (nextEngine (TimeoutFires i) d w) (nextApp (TimeoutFires i) w)
    = Spec.apply (label (TimeoutFires i) d) (abs w).
Proof.
  intros [t Ht]. destruct Hinv as [(He & _ & Hm & _) _].
  destruct (pending_inv _ _ _ He Ht) as (a & b & _ & Hproc & Hids & _ & _).
  split; [done|]. cbn [Spec.apply label nextEngine nextApp].
  unfold abs, finishes. rewrite (settlePair_absState a b) by done. cbn zeta.
  destruct (Spec.isMatch _) eqn:Hmatch; cbn [andb].
  - destruct (forallb _ _); [by rewrite absState_finished|done].
  - assert (forallb isMatched (cards (resolve (engine w))) = false) as ->; [|done].
    unfold resolve. rewrite Hids, (isMatch_pairOutcome a b _ (app w) Hids), Hmatch.
    apply not_true_is_false. intros Hall%Is_true_true%forallb_True.
    destruct (selected_not_all_matched (engine w) a He); [rewrite Hids; set_solver|].
    by rewrite (all_matched_flags _ _
      (eq_sym (unflipCards_isMatched (Some a) (Some b) _))).
Qed.

End event.

(** ** Steps *)

(** Every event the application reacts to is an operation the
    specification allows in the abstract state, and the world after the
    reaction abstracts to the state the operation prescribes. *)
Lemma react_refines ev d w :
  world_inv w → is_count (bestMoves (app_stats (app w))) → enabled ev w →
  Spec.allowed (2 * PAIRS_COUNT) (label ev d) (abs w)
  ∧ abs (react ev d w) = Spec.apply (label ev d) (abs w).
Proof.
  intros Hinv Hbest Hen. unfold abs at 2.
  rewrite react_nextEngine, react_nextApp by done.
  destruct ev as [b|c| |i].
  - apply enabled_button in Hen as [[-> Hg]|[-> Hg]];
      [by apply refines_start|split; [done|by apply refines_again]].
  - split; [done|by apply refines_click].
  - by apply refines_tick.
  - by apply refines_timeout.
Qed.

(** C9: every step of the application from a world of the invariant whose
    best score is a count is a step of the specification between the
    abstract states. *)
Theorem refines_step w w' :
  world_inv w → is_count (bestMoves (app_stats (app w))) → step w w' →
  Spec.stepsTo (2 * PAIRS_COUNT) (abs w) (abs w').
Proof.
  intros Hinv Hbest Hstep. destruct Hstep as [ev d w Hen].
  destruct (react_refines ev d w Hinv Hbest Hen) as [Hallowed ->].
  by constructor.
Qed.

Lemma refines_step_witness :
  Spec.stepsTo (2 * PAIRS_COUNT) (abs (after pairUp))
    (abs (react (TimeoutFires 0) plainDraws (after pairUp))).
Proof.
  apply (refines_step (after pairUp));
    [apply after_inv, pairUp_plays|by_compute|].
  constructor. by_compute.
Defined.

(** ** Runs *)

Lemma abs_initialWorld store :
  abs (initialWorld store) = Spec.initial (absBest (loadBestMoves store)).
Proof. unfold abs. by destruct (initialWorld_state store) as [-> ->]. Qed.

(** A best score that is a count stays one. *)
Lemma react_best_count ev d w :
  world_inv w → enabled ev w →
  is_count (bestMoves (app_stats (app w))) →
  is_count (bestMoves (app_stats (app (react ev d w)))).
Proof.
  intros Hinv Hen Hb. rewrite react_nextApp, nextApp_bestMoves by done.
  destruct Hinv as [(_ & _ & Hm & _) _]. by case_match.
Qed.

Lemma rtc_refines store w :
  is_count (loadBestMoves store) →
  rtc step (initialWorld store) w →
  rtc (Spec.stepsTo (2 * PAIRS_COUNT))
    (Spec.initial (absBest (loadBestMoves store))) (abs w).
Proof.
  intros Hstore Hrtc.
  cut (is_count (bestMoves (app_stats (app w)))
       ∧ rtc (Spec.stepsTo (2 * PAIRS_COUNT))
           (Spec.initial (absBest (loadBestMoves store))) (abs w));
    [naive_solver|].
  revert w Hrtc. apply rtc_step_ind; [apply initialWorld_inv|..].
  - rewrite abs_initialWorld. by destruct (initialWorld_state store) as [_ ->].
  - intros ev d w Hinv Hen [Hb Hspec]. split; [by apply react_best_count|].
    destruct (react_refines ev d w Hinv Hb Hen) as [Hallowed ->].
    eapply rtc_r; [done|]. by constructor.
Qed.

(** C10: when the stored best score is a count (or nothing is stored), every
    world the application reaches abstracts to a state the specification
    reaches from its initial state with that best score. *)
Theorem refines_run store w :
  is_count (loadBestMoves store) →
  rtc step (initialWorld store) w →
  rtc (Spec.stepsTo (2 * PAIRS_COUNT))
    (Spec.initial (absBest (loadBestMoves store))) (abs w).
Proof. apply rtc_refines. Qed.

Lemma refines_run_witness :
  rtc (Spec.stepsTo (2 * PAIRS_COUNT))
    (Spec.initial (absBest (loadBestMoves None))) (abs (after perfectGame)).
Proof.
  apply (refines_run None (after perfectGame)); [by_compute|].
  apply (after_rtc perfectGame), perfectGame_plays.
Defined.

(** With nothing stored the application starts from the best score 9999,
    not from an unset one. *)
Example abs_mounted : abs (initialWorld None) = Spec.initial (Some 9999).
Proof. by rewrite abs_initialWorld. Qed.

(** ** The invariants of the specification, through the refinement *)

Lemma rtc_stepsTo_wf n s s' : Spec.wf s → rtc (Spec.stepsTo n) s s' → Spec.wf s'.
Proof. induction 2; [done|]. eauto using Spec.stepsTo_wf. Qed.

(** What the specification promises of its states holds of the states of
    the application: each symbol is on two cards, at most two cards are
    selected, the lock is held exactly when two are, and the ids are
    distinct. *)
Lemma abs_wf store w :
  is_count (loadBestMoves store) → rtc step (initialWorld store) w →
  Spec.wf (abs w).
Proof.
  intros Hstore Hrtc. eapply rtc_stepsTo_wf; [apply Spec.initial_wf|].
  by apply rtc_refines.
Qed.
